(** * wooostock: the RSS-to-publisher pipeline of [rss_article.py]

    A shallow embedding of the article pipeline ([push_article]), of its
    helpers, of the feed loop ([process_rss]) and of the route ([root]),
    followed by the properties of the specification that were checked
    against it and by further properties of the code.

    Python values are modelled as follows.
    - [str] is a list of Unicode code points ([pystr]); literals are written
      with [utf8], which decodes the bytes of a Rocq string literal.
    - [set[str]] is a [gset pystr].
    - lxml elements are trees ([element]) with tag, attributes in document
      order, text, children and tail; a node handed around by reference is
      named by its path from the root, and the tree is threaded through the
      code that mutates it.
    - the network, the clock, the posted file and the log are an explicit
      state and an environment of oracles; exceptions are values of [exn]. *)

From Stdlib Require Import String Ascii NArith ZArith DecimalNat.
From stdpp Require Import base decidable countable gmap list.

Open Scope N_scope.

(** ** Python strings *)

Module PyStr.

Definition pystr := list N.

(** Decoding of a UTF-8 byte sequence (the bytes of a source literal). *)
Fixpoint utf8_decode (bs : list N) : pystr :=
  match bs with
  | [] => []
  | b :: r1 =>
    if b <? 128 then b :: utf8_decode r1
    else match r1 with
    | [] => []
    | b1 :: r2 =>
      if b <? 224 then ((b - 192) * 64 + (b1 - 128)) :: utf8_decode r2
      else match r2 with
      | [] => []
      | b2 :: r3 =>
        if b <? 240
        then ((b - 224) * 4096 + (b1 - 128) * 64 + (b2 - 128)) :: utf8_decode r3
        else match r3 with
        | [] => []
        | b3 :: r4 =>
          ((b - 240) * 262144 + (b1 - 128) * 4096 + (b2 - 128) * 64 + (b3 - 128))
            :: utf8_decode r4
        end
      end
    end
  end.

Definition utf8 (s : string) : pystr :=
  utf8_decode (map N_of_ascii (list_ascii_of_string s)).
Arguments utf8 s%_string : simpl never.

(** The double quote character. *)
Definition dq : pystr := [34].

(** [str.isspace] on one character, which is also what [\s] matches in a
    [str] pattern. *)
Definition is_space (c : N) : bool :=
  ((9 <=? c) && (c <=? 13)) || ((28 <=? c) && (c <=? 32))
  || (c =? 133) || (c =? 160) || (c =? 5760)
  || ((8192 <=? c) && (c <=? 8202))
  || (c =? 8232) || (c =? 8233) || (c =? 8239) || (c =? 8287) || (c =? 12288).

Fixpoint drop_while (f : N -> bool) (s : pystr) : pystr :=
  match s with
  | [] => []
  | c :: s' => if f c then drop_while f s' else s
  end.

Definition lstrip (s : pystr) : pystr := drop_while is_space s.
Definition rstrip (s : pystr) : pystr := rev (drop_while is_space (rev s)).
Definition strip (s : pystr) : pystr := rstrip (lstrip s).

(** [s.rstrip(chars)] for a one-character [chars]. *)
Definition rstrip_char (c : N) (s : pystr) : pystr :=
  rev (drop_while (N.eqb c) (rev s)).

(** Truth value of a [str]. *)
Definition truthy (s : pystr) : bool :=
  match s with [] => false | _ => true end.

(** [sep.join(l)] *)
Fixpoint join (sep : pystr) (l : list pystr) : pystr :=
  match l with
  | [] => []
  | [x] => x
  | x :: l' => x ++ sep ++ join sep l'
  end.

(** [''.join(l)] *)
Definition concat_str (l : list pystr) : pystr := List.concat l.

Fixpoint starts_with (pre s : pystr) : bool :=
  match pre, s with
  | [], _ => true
  | _ :: _, [] => false
  | a :: pre', b :: s' => (a =? b) && starts_with pre' s'
  end.

(** [old in s] *)
Fixpoint contains (old s : pystr) : bool :=
  starts_with old s ||
  match s with
  | [] => false
  | _ :: s' => contains old s'
  end.

(** [s.replace(old, new)] for a non-empty [old]: every occurrence, left to
    right, without overlap.  [skip] counts the characters of a matched
    occurrence that are still to be dropped. *)
Fixpoint replace_from (old new s : pystr) (skip : nat) : pystr :=
  match s with
  | [] => []
  | c :: s' =>
    match skip with
    | S k => replace_from old new s' k
    | O =>
      if starts_with old s
      then new ++ replace_from old new s' (Nat.pred (length old))
      else c :: replace_from old new s' O
    end
  end.

Definition replace (old new s : pystr) : pystr :=
  match old with
  | [] => s
  | _ => replace_from old new s O
  end.

(** [s.replace(c, new, 1)] for a one-character [c]. *)
Fixpoint replace_first_char (c : N) (new s : pystr) : pystr :=
  match s with
  | [] => []
  | d :: s' => if d =? c then new ++ s' else d :: replace_first_char c new s'
  end.

(** [s.replace(c, d)] on single characters. *)
Definition replace_char (c d : N) (s : pystr) : pystr :=
  map (fun x => if x =? c then d else x) s.

(** [s.split(c)[0]] and [s.split(c)[-1]] for a one-character [c]. *)
Fixpoint split_head (c : N) (s : pystr) : pystr :=
  match s with
  | [] => []
  | d :: s' => if d =? c then [] else d :: split_head c s'
  end.

Fixpoint split_last_from (c : N) (s cur : pystr) : pystr :=
  match s with
  | [] => cur
  | d :: s' => if d =? c then split_last_from c s' s' else split_last_from c s' cur
  end.

Definition split_last (c : N) (s : pystr) : pystr := split_last_from c s s.

(** Line boundaries of [str.splitlines]. *)
Definition is_linebreak (c : N) : bool :=
  ((10 <=? c) && (c <=? 13)) || ((28 <=? c) && (c <=? 30))
  || (c =? 133) || (c =? 8232) || (c =? 8233).

(** [s.splitlines()]: [cur] is the current line, reversed; a carriage return
    followed by a line feed is one boundary; no empty last line. *)
Fixpoint splitlines_from (s cur : pystr) : list pystr :=
  match s with
  | [] => match cur with [] => [] | _ => [rev cur] end
  | c :: s' =>
    if is_linebreak c then
      match s' with
      | d :: s'' =>
        if (c =? 13) && (d =? 10)
        then rev cur :: splitlines_from s'' []
        else rev cur :: splitlines_from s' []
      | [] => [rev cur]
      end
    else splitlines_from s' (c :: cur)
  end.

Definition splitlines (s : pystr) : list pystr := splitlines_from s [].

(** Decimal rendering of a natural number, as an f-string does. *)
Fixpoint uint_digits (d : Decimal.uint) : pystr :=
  match d with
  | Decimal.Nil => []
  | Decimal.D0 d' => 48 :: uint_digits d'
  | Decimal.D1 d' => 49 :: uint_digits d'
  | Decimal.D2 d' => 50 :: uint_digits d'
  | Decimal.D3 d' => 51 :: uint_digits d'
  | Decimal.D4 d' => 52 :: uint_digits d'
  | Decimal.D5 d' => 53 :: uint_digits d'
  | Decimal.D6 d' => 54 :: uint_digits d'
  | Decimal.D7 d' => 55 :: uint_digits d'
  | Decimal.D8 d' => 56 :: uint_digits d'
  | Decimal.D9 d' => 57 :: uint_digits d'
  end.

Definition str_of_nat (n : nat) : pystr := uint_digits (Nat.to_uint n).

End PyStr.
Import PyStr.

(** ** Keywords *)

(** [SEP_RX = re.compile(r'[,，、]\s*')]: the comma, the fullwidth comma and
    the ideographic comma. *)
Definition is_sep (c : N) : bool := (c =? 44) || (c =? 65292) || (c =? 12289).

(** [SEP_RX.split(s)]: [cur] is the current piece, reversed; [after_sep]
    holds while the blanks that follow a separator are being consumed by the
    same match. *)
Fixpoint sep_rx_split (s cur : pystr) (after_sep : bool) : list pystr :=
  match s with
  | [] => [rev cur]
  | c :: s' =>
    if is_sep c then rev cur :: sep_rx_split s' [] true
    else if after_sep && is_space c then sep_rx_split s' cur true
    else sep_rx_split s' (c :: cur) false
  end.

(** [[k.strip() for k in SEP_RX.split(s) if k.strip()]] *)
Definition split_kw (s : pystr) : list pystr :=
  map strip (filter (fun k => truthy (strip k) = true) (sep_rx_split s [] false)).

(** [[k for k in kw if not (k in seen_kw or seen_kw.add(k))]] *)
Fixpoint dedup_kw (kw : list pystr) (seen_kw : gset pystr) : list pystr :=
  match kw with
  | [] => []
  | k :: kw' =>
    if decide (k ∈ seen_kw) then dedup_kw kw' seen_kw
    else k :: dedup_kw kw' ({[k]} ∪ seen_kw)
  end.

(** Lines 105 to 107 of [push_article]: [meta] is the result of the
    keywords-meta XPath query and [tags] of the tag-link query. *)
Definition keywords_of (meta tags : list pystr) : pystr :=
  let kw := [utf8 "DecoTV"] ++ split_kw (concat_str meta) ++ tags in
  join (utf8 ",") (dedup_kw kw ∅).

(** ** Exceptions *)

Inductive exn : Type :=
| HTTPError (status : Z)          (* [Response.raise_for_status] *)
| RequestException (msg : pystr)  (* raised by [requests.get] or [requests.post] *)
| JSONError (msg : pystr)         (* [json.loads] and the [.get] chain after it *)
| ParserError (msg : pystr)       (* [html.fromstring] *)
| XMLSyntaxError                  (* [etree.fromstring] *)
| TypeError.                      (* [_Element.set] with a value that is [None] *)

Inductive result (A : Type) : Type :=
| OK (a : A)
| Raise (e : exn).
Arguments OK {A} a.
Arguments Raise {A} e.

Definition rbind {A B} (r : result A) (k : A -> result B) : result B :=
  match r with
  | OK a => k a
  | Raise e => Raise e
  end.

(** ** lxml element trees *)

Module Dom.

#[local] Set Warnings "-register-all".

Inductive element : Type :=
  Element (tag : pystr) (attrib : list (pystr * pystr)) (text : pystr)
          (children : list element) (tail : pystr).

Definition tag (e : element) : pystr :=
  match e with Element t _ _ _ _ => t end.
Definition attrib (e : element) : list (pystr * pystr) :=
  match e with Element _ a _ _ _ => a end.
Definition text (e : element) : pystr :=
  match e with Element _ _ x _ _ => x end.
Definition children (e : element) : list element :=
  match e with Element _ _ _ c _ => c end.
Definition tail (e : element) : pystr :=
  match e with Element _ _ _ _ t => t end.

(** [e.get(k)]: [None] when the attribute is absent. *)
Fixpoint assoc (k : pystr) (l : list (pystr * pystr)) : option pystr :=
  match l with
  | [] => None
  | (k', v) :: l' => if decide (k' = k) then Some v else assoc k l'
  end.

Definition get (e : element) (k : pystr) : option pystr := assoc k (attrib e).

(** [e.set(k, v)] on the attribute list: in place when the attribute
    exists, at the end otherwise. *)
Fixpoint set_assoc (k v : pystr) (l : list (pystr * pystr)) : list (pystr * pystr) :=
  match l with
  | [] => [(k, v)]
  | (k', v') :: l' =>
    if decide (k' = k) then (k, v) :: l' else (k', v') :: set_assoc k v l'
  end.

(** [e.set(k, v)] where [v] may be [None]: lxml refuses [None]. *)
Definition set (e : element) (k : pystr) (v : option pystr) : result element :=
  match v with
  | None => Raise TypeError
  | Some s =>
    OK (Element (tag e) (set_assoc k s (attrib e)) (text e) (children e) (tail e))
  end.

(** [e.attrib.clear()] *)
Definition attrib_clear (e : element) : element :=
  Element (tag e) [] (text e) (children e) (tail e).

(** A node of a tree is named by the child indices that lead to it. *)
Definition path := list nat.

Fixpoint get_at (e : element) (p : path) : option element :=
  match p with
  | [] => Some e
  | i :: p' =>
    match children e !! i with
    | Some c => get_at c p'
    | None => None
    end
  end.

(** Replacement of the node at [p] by the image of [f]; nothing changes
    when [p] names no node. *)
Fixpoint modify_at (f : element -> element) (e : element) (p : path) : element :=
  match p with
  | [] => f e
  | i :: p' =>
    match children e !! i with
    | Some c =>
      Element (tag e) (attrib e) (text e)
              (<[i := modify_at f c p']> (children e)) (tail e)
    | None => e
    end
  end.

(** The paths below a node whose children have the descendants [ds], the
    first child having index [i]: each child, then what is below it. *)
Fixpoint child_paths (i : nat) (ds : list (list path)) : list path :=
  match ds with
  | [] => []
  | d :: ds' => ([i] :: map (cons i) d) ++ child_paths (S i) ds'
  end.

(** Paths of the proper descendants of [e], in document order. *)
Fixpoint descendants (e : element) : list path :=
  match e with
  | Element _ _ _ cs _ => child_paths 0 (map descendants cs)
  end.

Definition has_tag (t : pystr) (e : element) (p : path) : bool :=
  match get_at e p with
  | Some x => bool_decide (tag x = t)
  | None => false
  end.

(** [e.xpath('.//t')] for a tag name [t]. *)
Definition xpath_descendants (t : pystr) (e : element) : list path :=
  filter (fun p => has_tag t e p = true) (descendants e).

(** Whether a node on the way from [e] down to the parent of the node at
    [p] ([e] included) has tag [t]. *)
Fixpoint has_ancestor (t : pystr) (e : element) (p : path) : bool :=
  match p with
  | [] => false
  | i :: p' =>
    bool_decide (tag e = t) ||
    match children e !! i with
    | Some c => has_ancestor t c p'
    | None => false
    end
  end.

End Dom.
Import Dom.

(** ** Library functions

    What the pipeline takes from lxml, json and hashlib without the code of
    this repository deciding it: hashing, character escaping in the HTML
    serialiser, parsers. *)

(** The results of the XPath queries that [push_article] runs on the
    article page, after [make_links_absolute]. *)
Record page : Type := {
  title_text : list pystr;      (* //h1[@class="page-title"]//text() *)
  og_image : list pystr;        (* //meta[@property="og:image"]/@content *)
  published_time : list pystr;  (* //meta[@property="article:published_time"]/@content *)
  meta_keywords : list pystr;   (* //meta[@name="keywords"]/@content *)
  tag_links : list pystr;       (* //div[contains(@class,"entry-tags")]//a/text() *)
  json_alternate : list pystr   (* //link[@rel="alternate" and @type="application/json"]/@href *)
}.

Record libs : Type := {
  md5 : pystr -> pystr;
  escape_text : pystr -> pystr;
  escape_attr : pystr -> pystr -> pystr;        (* attribute name, value *)
  parse_page : pystr -> pystr -> result page;   (* page text, base url *)
  json_rendered : pystr -> result pystr;        (* json.loads(s).get('content', {}).get('rendered', '') *)
  html_fromstring : pystr -> result element;
  str_exn : exn -> pystr                        (* str(e) *)
}.

(** ** Serialisation *)

Definition void_tags : list pystr :=
  map utf8 ["area"; "base"; "basefont"; "br"; "col"; "frame"; "hr"; "img";
            "input"; "isindex"; "link"; "meta"; "param"; "embed"]%string.

Definition is_void (t : pystr) : bool := bool_decide (t ∈ void_tags).

Definition attr_html (L : libs) (kv : pystr * pystr) : pystr :=
  utf8 " " ++ kv.1 ++ utf8 "=" ++ dq ++ escape_attr L kv.1 kv.2 ++ dq.

(** [etree.tostring(e, encoding='unicode', method='html')]: the element, its
    content unless it is a void element, and its tail. *)
Fixpoint tostring_html (L : libs) (e : element) : pystr :=
  match e with
  | Element t attrs txt cs tl =>
    utf8 "<" ++ t ++ concat_str (map (attr_html L) attrs) ++ utf8 ">"
    ++ (if is_void t then []
        else escape_text L txt ++ concat_str (map (tostring_html L) cs)
             ++ utf8 "</" ++ t ++ utf8 ">")
    ++ escape_text L tl
  end.

(** What an XML parser accepts after the document element: blanks.  The XML
    serialiser writes a carriage return as a character reference, which is
    refused there, so it does not count. *)
Definition xml_blank (c : N) : bool := (c =? 32) || (c =? 9) || (c =? 10).

(** [etree.fromstring(etree.tostring(e))]: the XML serialisation of [e]
    carries the tail of [e] after the element; the parser refuses a document
    with text after its root and drops blanks there.  Names and values are
    taken to survive the round trip. *)
Definition xml_roundtrip (e : element) : result element :=
  if forallb xml_blank (tail e)
  then OK (Element (tag e) (attrib e) (text e) (children e) [])
  else Raise XMLSyntaxError.

(** ** Helpers of [rss_article.py] *)

(** The element that [clean_img_html] serialises. *)
Definition cleaned_img (img : element) : result element :=
  rbind (xml_roundtrip img) (fun t =>
  let src := get t (utf8 "src") in
  let alt := default [] (get t (utf8 "alt")) in
  let t := attrib_clear t in
  rbind (set t (utf8 "src") src) (fun t =>
  rbind (set t (utf8 "style") (Some (utf8 "width:100%;"))) (fun t =>
  if truthy alt then set t (utf8 "alt") (Some alt) else OK t))).

Definition clean_img_html (L : libs) (img : element) : result pystr :=
  rbind (cleaned_img img) (fun t => OK (tostring_html L t)).

(** Case-insensitive comparison of a character with a lower-case ASCII
    letter of a pattern, as [re.I] does on [str]: besides the two ASCII
    cases, the dotted and dotless forms of i and the long s. *)
Definition ci_eq (pat c : N) : bool :=
  (c =? pat)
  || ((65 <=? c) && (c <=? 90) && (c + 32 =? pat))
  || ((pat =? 105) && ((c =? 304) || (c =? 305)))
  || ((pat =? 115) && (c =? 383)).

Fixpoint starts_with_ci (pat s : pystr) : bool :=
  match pat, s with
  | [], _ => true
  | _ :: _, [] => false
  | a :: pat', b :: s' => ci_eq a b && starts_with_ci pat' s'
  end.

(** Length of the longest prefix whose characters satisfy [f]. *)
Fixpoint span_len (f : N -> bool) (s : pystr) : nat :=
  match s with
  | [] => O
  | c :: s' => if f c then S (span_len f s') else O
  end.

Definition stripped_names : list pystr :=
  map utf8 ["srcset"; "sizes"; "decoding"; "fetchpriority"; "class"; "width";
            "height"; "loading"]%string.

(** Length matched by
    [(?:srcset|sizes|decoding|fetchpriority|data-[^=]+|class|width|height|loading)]
    before the equals sign.  No alternative is a prefix of another, and the
    run of [[^=]+] has to stop at the first equals sign. *)
Definition attr_name_len (s : pystr) : option nat :=
  match filter (fun n => starts_with_ci n s = true) stripped_names with
  | n :: _ => Some (length n)
  | [] =>
    if starts_with_ci (utf8 "data-") s then
      match span_len (fun c => negb (c =? 61)) (drop 5 s) with
      | O => None
      | S k => Some (5 + S k)%nat
      end
    else None
  end.

(** Length of the match of [RX_STRIP_ATTRS] at the start of [s], if any. *)
Definition rx_strip_match (s : pystr) : option nat :=
  match span_len is_space s with
  | O => None
  | S k =>
    let n1 := S k in
    match attr_name_len (drop n1 s) with
    | None => None
    | Some n2 =>
      match drop (n1 + n2) s with
      | 61 :: 34 :: s3 =>
        let n3 := span_len (fun c => negb (c =? 34)) s3 in
        match drop n3 s3 with
        | 34 :: _ => Some (n1 + n2 + 2 + n3 + 1)%nat
        | _ => None
        end
      | _ => None
      end
    end
  end.

(** [RX_STRIP_ATTRS.sub('', s)]; [skip] counts the characters of the current
    match that are still to be dropped. *)
Fixpoint rx_strip_from (s : pystr) (skip : nat) : pystr :=
  match s with
  | [] => []
  | c :: s' =>
    match skip with
    | S k => rx_strip_from s' k
    | O =>
      match rx_strip_match s with
      | Some n => rx_strip_from s' (Nat.pred n)
      | None => c :: rx_strip_from s' O
      end
    end
  end.

Definition strip_unwanted_attrs (html_str : pystr) : pystr :=
  rx_strip_from html_str O.

(** The [re.sub] of [add_or_merge_style], with count 1: the leftmost quoted
    style value gets stripped of trailing semicolons and extended. *)
Fixpoint merge_style (extra s : pystr) : pystr :=
  match s with
  | [] => []
  | c :: s' =>
    let pre := utf8 "style=" ++ dq in
    let after := drop (length pre) s in
    let n := span_len (fun c => negb (c =? 34)) after in
    if starts_with pre s && starts_with dq (drop n after)
    then pre ++ rstrip_char 59 (take n after) ++ utf8 "; " ++ extra ++ dq
         ++ drop (S n) after
    else c :: merge_style extra s'
  end.

Definition add_or_merge_style (tag extra : pystr) : pystr :=
  if negb (contains (utf8 " style=") tag)
  then replace_first_char 62 (utf8 " style=" ++ dq ++ extra ++ dq ++ utf8 ">") tag
  else merge_style extra tag.

(** ** The markup normaliser (lines 112 to 135 of [push_article]) *)

(** A value that is [None] or a [str], and Python's [or] on such values. *)
Definition py_truthy (v : option pystr) : bool :=
  match v with
  | Some s => truthy s
  | None => false
  end.

Definition py_or (a b : option pystr) : option pystr :=
  if py_truthy a then a else b.

(** [len(p) == 1 and p[0].tag == 'a' and len(p[0]) and p[0][0].tag == 'img'] *)
Definition is_linked_thumbnail (p : element) : bool :=
  match children p with
  | [a] =>
    bool_decide (tag a = utf8 "a")
    && match children a with
       | c :: _ => bool_decide (tag c = utf8 "img")
       | [] => false
       end
  | _ => false
  end.

(** [f'__IMG_{len(segs)}_{i}__'] *)
Definition placeholder (nsegs i : nat) : pystr :=
  utf8 "__IMG_" ++ str_of_nat nsegs ++ utf8 "_" ++ str_of_nat i ++ utf8 "__".

(** [img.attrib.clear(); img.tag = 'span'; img.text = ph] *)
Definition to_placeholder (ph : pystr) (img : element) : element :=
  Element (utf8 "span") [] ph (children img) (tail img).

(** The inner loop over [enumerate(p.xpath('.//img'))]: [pp] is the path of
    the paragraph in [root], [imgs] the paths of its images relative to it.
    The source of the image is read after its attributes were cleared. *)
Fixpoint paragraph_images (L : libs) (root : element) (pp : path) (nsegs i : nat)
    (imgs : list path) (phs : list (pystr * pystr)) (first_img : option pystr)
    : result (element * list (pystr * pystr) * option pystr) :=
  match imgs with
  | [] => OK (root, phs, first_img)
  | ip :: imgs' =>
    match get_at root (pp ++ ip) with
    | None => paragraph_images L root pp nsegs (S i) imgs' phs first_img
    | Some img =>
      let ph := placeholder nsegs i in
      rbind (clean_img_html L img) (fun ih =>
      let img' := to_placeholder ph img in
      let root' := modify_at (to_placeholder ph) root (pp ++ ip) in
      paragraph_images L root' pp nsegs (S i) imgs' (phs ++ [(ph, ih)])
                       (py_or first_img (get img' (utf8 "src"))))
    end
  end.

Definition justify : pystr := utf8 "text-align: justify;".

(** The serialised paragraph with its placeholders put back. *)
Definition paragraph_html (L : libs) (p : element) (phs : list (pystr * pystr)) : pystr :=
  let h := tostring_html L p in
  let h := rstrip (add_or_merge_style (strip_unwanted_attrs h) justify) in
  fold_left (fun h ph_ih => replace ph_ih.1 ph_ih.2 h) phs h.

(** The loop over [root.xpath('.//p')]: the list of paragraphs is computed
    before the loop, the tree changes under it. *)
Fixpoint paragraphs_loop (L : libs) (root : element) (ps : list path)
    (segs : list pystr) (first_img : option pystr)
    : result (element * list pystr * option pystr) :=
  match ps with
  | [] => OK (root, segs, first_img)
  | pp :: ps' =>
    match get_at root pp with
    | None => paragraphs_loop L root ps' segs first_img
    | Some p =>
      if is_linked_thumbnail p then paragraphs_loop L root ps' segs first_img
      else
        rbind (paragraph_images L root pp (length segs) O
                 (xpath_descendants (utf8 "img") p) [] first_img)
          (fun '(root', phs, first_img') =>
           let h := paragraph_html L (default p (get_at root' pp)) phs in
           paragraphs_loop L root' ps' (segs ++ [h]) first_img')
    end
  end.

(** [root.xpath('.//img[not(ancestor::p)]')].  The ancestors of the context
    node itself are the [html] and [body] elements that [html.fromstring]
    leaves above it, never a paragraph. *)
Definition xpath_imgs_outside_p (root : element) : list path :=
  filter (fun q => has_tag (utf8 "img") root q && negb (has_ancestor (utf8 "p") root q) = true)
         (descendants root).

Definition image_block (ih : pystr) : pystr :=
  utf8 "<p style=" ++ dq ++ justify ++ dq ++ utf8 ">" ++ ih ++ utf8 "</p>".

(** The loop over the images outside paragraphs. *)
Fixpoint outside_images (L : libs) (root : element) (imgs : list path)
    (segs : list pystr) (first_img : option pystr)
    : result (list pystr * option pystr) :=
  match imgs with
  | [] => OK (segs, first_img)
  | q :: imgs' =>
    match get_at root q with
    | None => outside_images L root imgs' segs first_img
    | Some img =>
      rbind (clean_img_html L img) (fun ih =>
      outside_images L root imgs' (segs ++ [image_block ih])
                     (py_or first_img (get img (utf8 "src"))))
    end
  end.

(** Lines 114 to 132: the content blocks and the first image. *)
Definition normalize (L : libs) (root : element) : result (list pystr * option pystr) :=
  rbind (paragraphs_loop L root (xpath_descendants (utf8 "p") root) [] (Some []))
    (fun '(root', segs, first_img) =>
     outside_images L root' (xpath_imgs_outside_p root') segs first_img).

Definition nl : pystr := [10].

Definition no_content : pystr :=
  utf8 "<p style=" ++ dq ++ justify ++ dq ++ utf8 ">（本文無內容）</p>".

Definition attribution (url title : pystr) : pystr :=
  nl ++ utf8 "<p style=" ++ dq ++ justify ++ dq ++ utf8 "><a href=" ++ dq ++ url
  ++ dq ++ utf8 ">" ++ title ++ utf8 "</a></p>".

(** Lines 134 and 135. *)
Definition assemble_body (segs : list pystr) (url title : pystr) : pystr :=
  let joined := join nl segs in
  (if truthy joined then joined else no_content) ++ attribution url title.

(** ** The outside world *)

Record response : Type := {
  status_code : Z;
  resp_text : pystr;                (* r.text *)
  resp_content : list N;            (* r.content *)
  content_type : option pystr       (* r.headers.get('content-type') *)
}.

(** The tuple that [fetch_pic] returns: file name, bytes, content type. *)
Definition pic : Type := pystr * list N * option pystr.

(** The [files] argument of [requests.post]: a dictionary with the key
    ['pic'] or none. *)
Definition files_arg : Type := list (pystr * option pic).

(** The form fields of the submission. *)
Record payload : Type := {
  sign : pystr;
  sign_time : pystr;
  title : pystr;
  description : pystr;
  content : pystr;
  keywords : pystr;
  type_ : pystr;
  ac_type : pystr;
  created_time : pystr
}.

(** Configuration and oracles.  An oracle is asked with the number of
    outside calls made so far, so that the world may answer the same request
    differently at different times. *)
Record world : Type := {
  API_URL : pystr;
  API_KEY : pystr;
  http_get : nat -> pystr -> result response;
  http_post : nat -> pystr -> payload -> files_arg -> result response;
  clock : nat -> pystr;                       (* now() *)
  feed_entries : nat -> pystr -> list pystr   (* the links of feedparser.parse(url).entries *)
}.

Inductive level : Type := INFO | WARNING | ERROR.

Inductive event : Type :=
| EvGet (url : pystr) (r : result response)
| EvPost (url : pystr) (data : payload) (files : files_arg) (r : result response)
| EvSave (uid : pystr)
| EvLog (lvl : level) (msg : pystr).

(** The posted file ([None] while it does not exist), what happened so far
    in order, and the number of outside calls. *)
Record state : Type := {
  posted_file : option pystr;
  events : list event;
  ticks : nat
}.

(** ** State and exceptions *)

Definition M (A : Type) : Type := state -> result A * state.

Definition ret {A} (a : A) : M A := fun st => (OK a, st).

Definition raise {A} (e : exn) : M A := fun st => (Raise e, st).

Definition bind {A B} (m : M A) (k : A -> M B) : M B :=
  fun st =>
    match m st with
    | (OK a, st') => k a st'
    | (Raise e, st') => (Raise e, st')
    end.

(** [try: m except Exception as e: h e] *)
Definition try_except {A} (m : M A) (h : exn -> M A) : M A :=
  fun st =>
    match m st with
    | (OK a, st') => (OK a, st')
    | (Raise e, st') => h e st'
    end.

Definition lift {A} (r : result A) : M A := fun st => (r, st).

Notation "'let*' x := m 'in' k" := (bind m (fun x => k))
  (at level 10, x pattern, m at level 100, k at level 200).

Definition emit (ev : event) : M unit :=
  fun st =>
    (OK tt, {| posted_file := posted_file st; events := events st ++ [ev];
               ticks := ticks st |}).

Definition log (lvl : level) (msg : pystr) : M unit := emit (EvLog lvl msg).

Definition tick (ev : option event) : M unit :=
  fun st =>
    (OK tt, {| posted_file := posted_file st;
               events := events st ++ match ev with Some e => [e] | None => [] end;
               ticks := S (ticks st) |}).

(** [requests.get(url, headers=UA, timeout=10)] *)
Definition requests_get (W : world) (url : pystr) : M response :=
  fun st =>
    let r := http_get W (ticks st) url in
    match tick (Some (EvGet url r)) st with
    | (_, st') => (r, st')
    end.

(** [requests.post(url, data=data, files=files)] *)
Definition requests_post (W : world) (url : pystr) (data : payload) (files : files_arg)
    : M response :=
  fun st =>
    let r := http_post W (ticks st) url data files in
    match tick (Some (EvPost url data files r)) st with
    | (_, st') => (r, st')
    end.

(** [now()] *)
Definition now (W : world) : M pystr :=
  fun st => match tick None st with (_, st') => (OK (clock W (ticks st)), st') end.

(** [r.raise_for_status()]: an [HTTPError] for the statuses 400 to 599. *)
Definition raise_for_status (r : response) : M unit :=
  if ((400 <=? status_code r) && (status_code r <? 600))%Z
  then raise (HTTPError (status_code r))
  else ret tt.

(** The parts that requests writes for [files]: an entry whose value is
    [None] is passed over. *)
Definition file_parts (files : files_arg) : list (pystr * pic) :=
  omap (fun kv => match kv.2 with Some f => Some (kv.1, f) | None => None end) files.

(** ** The deduplication store *)

Definition load_posted : M (gset pystr) :=
  fun st =>
    match posted_file st with
    | Some txt =>
      (OK (list_to_set
             (map strip (filter (fun l => truthy (strip l) = true) (splitlines txt)))),
       st)
    | None =>
      (OK ∅, {| posted_file := Some []; events := events st; ticks := ticks st |})
    end.

Definition save_posted (uid : pystr) : M unit :=
  fun st =>
    (OK tt,
     {| posted_file := Some (default [] (posted_file st) ++ uid ++ nl);
        events := events st ++ [EvSave uid];
        ticks := ticks st |}).

(** ** The article pipeline *)

Definition fetch_pic (L : libs) (W : world) (url : pystr) : M (option pic) :=
  try_except
    (let* r := requests_get W url in
     let* _ := raise_for_status r in
     let ext := split_last 47 (default (utf8 "image/jpeg") (content_type r)) in
     ret (Some (utf8 "image." ++ ext, resp_content r, content_type r)))
    (fun e =>
     let* _ := log WARNING (utf8 "Failed to fetch image " ++ url ++ utf8 ": " ++ str_exn L e) in
     ret None).

(** Lines 150 to 158: the submission and what is made of its answer. *)
Definition publish (W : world) (uid title : pystr) (data : payload) (files : files_arg)
    : M (option pystr) :=
  let* rsp := requests_post W (API_URL W) data files in
  if (status_code rsp =? 409)%Z then
    let* _ := log INFO (utf8 "API duplicate") in
    let* _ := save_posted uid in
    ret None
  else
    let* _ := raise_for_status rsp in
    let* _ := save_posted uid in
    let* _ := log INFO (utf8 "Pushed: " ++ title) in
    ret (Some (utf8 "ok")).

(** What lines 94 to 137 leave in the local variables [title], [cover],
    [created], [keywords] and [body]. *)
Record article : Type := {
  art_title : pystr;
  art_cover : option pystr;
  art_created : pystr;
  art_keywords : pystr;
  art_body : pystr
}.

(** Lines 95 to 137: the page, its fields, the rendered content behind the
    JSON alternate link, the normalised body and the cover. *)
Definition read_article (L : libs) (W : world) (url : pystr) : M article :=
  let* resp := requests_get W url in
  let* _ := raise_for_status resp in
  let* doc := lift (parse_page L (resp_text resp) url) in
  let title := strip (concat_str (title_text doc)) in
  let cover := concat_str (og_image doc) in
  let created := concat_str (published_time doc) in
  let* created :=
    (if truthy created then ret (split_head 43 (replace_char 84 32 created))
     else now W) in
  let keywords := keywords_of (meta_keywords doc) (tag_links doc) in
  let rest := concat_str (json_alternate doc) in
  let* rj := requests_get W rest in
  let* raw := lift (json_rendered L (resp_text rj)) in
  let* root := lift (html_fromstring L raw) in
  let* (segs, first_img) := lift (normalize L root) in
  let body := assemble_body segs url title in
  let cover := py_or (Some cover) first_img in
  ret {| art_title := title; art_cover := cover; art_created := created;
         art_keywords := keywords; art_body := body |}.

(** Line 138: [{'pic': fetch_pic(cover)} if cover else {}] *)
Definition cover_files (L : libs) (W : world) (cover : option pystr) : M files_arg :=
  match cover with
  | Some c =>
    if truthy c then
      let* f := fetch_pic L W c in
      ret [(utf8 "pic", f)]
    else ret []
  | None => ret []
  end.

(** Lines 140 to 148. *)
Definition form_data (L : libs) (W : world) (art : article) (sign_time : pystr) : payload :=
  {| sign := md5 L (art_title art ++ sign_time ++ API_KEY W);
     sign_time := sign_time;
     title := art_title art;
     description := [];
     content := art_body art;
     keywords := art_keywords art;
     type_ := utf8 "2";
     ac_type := utf8 "5";
     created_time := art_created art |}.

Definition push_article (L : libs) (W : world) (url : pystr) (seen : gset pystr)
    : M (option pystr) :=
  let uid := md5 L url in
  if decide (uid ∈ seen) then
    let* _ := log INFO (utf8 "Skipping duplicate: " ++ url) in
    ret None
  else
    let* _ := log INFO (utf8 "Fetching: " ++ url) in
    let* art := read_article L W url in
    let* files := cover_files L W (art_cover art) in
    let* sign_time := now W in
    publish W uid (art_title art) (form_data L W art sign_time) files.

(** ** The feed loop *)

Record results : Type := {
  success : list pystr;
  failed : list (pystr * pystr)     (* url, error *)
}.

(** The body of the loop of [process_rss]. *)
Definition process_entry (L : libs) (W : world) (seen : gset pystr) (res : results)
    (link : pystr) : M results :=
  try_except
    (let* r := push_article L W link seen in
     match r with
     | Some _ => ret {| success := success res ++ [link]; failed := failed res |}
     | None => ret res
     end)
    (fun e =>
     let* _ := log ERROR (utf8 "Err " ++ link ++ utf8 ": " ++ str_exn L e) in
     ret {| success := success res; failed := failed res ++ [(link, str_exn L e)] |}).

Fixpoint process_entries (L : libs) (W : world) (seen : gset pystr) (res : results)
    (entries : list pystr) : M results :=
  match entries with
  | [] => ret res
  | link :: entries' =>
    let* res' := process_entry L W seen res link in
    process_entries L W seen res' entries'
  end.

Definition feedparser_parse (W : world) (feed_url : pystr) : M (list pystr) :=
  fun st =>
    match tick None st with
    | (_, st') => (OK (feed_entries W (ticks st) feed_url), st')
    end.

Definition process_rss (L : libs) (W : world) (feed_url : pystr) : M (results * Z) :=
  let* _ := log INFO (utf8 "RSS: " ++ feed_url) in
  let* entries := feedparser_parse W feed_url in
  let* seen := load_posted in
  let* res := process_entries L W seen {| success := []; failed := [] |} entries in
  ret (res, 200%Z).

(** ** Reference definitions

    The wording of the specification for the keyword list and for the
    accounting of a run, to be compared with the code above. *)

(** The pieces of [s] between separators. *)
Fixpoint pieces_between (s cur : pystr) : list pystr :=
  match s with
  | [] => [rev cur]
  | c :: s' =>
    if is_sep c then rev cur :: pieces_between s' []
    else pieces_between s' (c :: cur)
  end.

(** Split at the three commas, trimmed, without the empty pieces. *)
Definition comma_separated (s : pystr) : list pystr :=
  filter (fun k => truthy k = true) (map strip (pieces_between s [])).

(** The elements of [l] that do not occur in [before] nor earlier in [l]. *)
Fixpoint first_occurrences (before l : list pystr) : list pystr :=
  match l with
  | [] => []
  | k :: l' =>
    (if decide (k ∈ before) then [] else [k]) ++ first_occurrences (before ++ [k]) l'
  end.

(** What happens to each entry of a feed, one after the other: the result
    of its pipeline, and the state in which the next entry starts. *)
Fixpoint entry_outcomes (L : libs) (W : world) (seen : gset pystr)
    (entries : list pystr) (st : state) : list (pystr * result (option pystr)) :=
  match entries with
  | [] => []
  | link :: entries' =>
    let r := push_article L W link seen st in
    let st' :=
      match r.1 with
      | OK _ => r.2
      | Raise e =>
        (log ERROR (utf8 "Err " ++ link ++ utf8 ": " ++ str_exn L e) r.2).2
      end in
    (link, r.1) :: entry_outcomes L W seen entries' st'
  end.

Definition published_links (outs : list (pystr * result (option pystr))) : list pystr :=
  omap (fun o => match o.2 with OK (Some _) => Some o.1 | _ => None end) outs.

Definition failure_records (L : libs) (outs : list (pystr * result (option pystr)))
    : list (pystr * pystr) :=
  omap (fun o => match o.2 with Raise e => Some (o.1, str_exn L e) | _ => None end) outs.

Definition unreported_links (outs : list (pystr * result (option pystr))) : list pystr :=
  omap (fun o => match o.2 with OK None => Some o.1 | _ => None end) outs.

(** Observations on a trace. *)
Definition fetched_urls (evs : list event) : list pystr :=
  omap (fun ev => match ev with EvGet u _ => Some u | _ => None end) evs.

Definition saved_ids (evs : list event) : list pystr :=
  omap (fun ev => match ev with EvSave u => Some u | _ => None end) evs.

Definition posted_forms (evs : list event) : list (payload * files_arg) :=
  omap (fun ev => match ev with EvPost _ d f _ => Some (d, f) | _ => None end) evs.

Definition is_quiet (ev : event) : bool :=
  match ev with
  | EvGet _ _ | EvLog _ _ => true
  | EvPost _ _ _ _ | EvSave _ => false
  end.

Definition answer_status (r : result response) : result Z :=
  rbind r (fun x => OK (status_code x)).

(** The addresses fetched, each with the status of its answer. *)
Definition fetches (evs : list event) : list (pystr * result Z) :=
  omap (fun ev => match ev with EvGet u r => Some (u, answer_status r) | _ => None end) evs.

(** The submissions, each with the file parts written and the status of the
    answer. *)
Definition submissions (evs : list event) : list (list (pystr * pic) * result Z) :=
  omap (fun ev =>
          match ev with
          | EvPost _ _ f r => Some (file_parts f, answer_status r)
          | _ => None
          end) evs.

(** The exception that [fetch_pic] catches for an answer, if any. *)
Definition fetch_failure (answer : result response) : option exn :=
  match answer with
  | OK r =>
    if ((400 <=? status_code r) && (status_code r <? 600))%Z
    then Some (HTTPError (status_code r)) else None
  | Raise e => Some e
  end.

(** [st] with a new posted file, more events and [n] more outside calls. *)
Definition after_events (st : state) (file : option pystr) (evs : list event) (n : nat)
    : state :=
  {| posted_file := file; events := events st ++ evs; ticks := n + ticks st |}.

(** The posted file after the identifiers [ids] were appended to it. *)
Definition file_after (file : option pystr) (ids : list pystr) : option pystr :=
  fold_left (fun f u => Some (default [] f ++ u ++ nl)) ids file.

(** The steps of [push_article] that come before the submission. *)
Definition before_submission (L : libs) (W : world) (url : pystr)
    : M (article * files_arg * pystr) :=
  let* _ := log INFO (utf8 "Fetching: " ++ url) in
  let* art := read_article L W url in
  let* files := cover_files L W (art_cover art) in
  let* sign_time := now W in
  ret (art, files, sign_time).

(** A computation is quiet when it leaves the posted file alone and only
    adds fetches and log lines to the trace. *)
Definition quiet {A} (m : M A) : Prop :=
  forall st r st', m st = (r, st') ->
    posted_file st' = posted_file st
    /\ exists new, events st' = events st ++ new /\ forallb is_quiet new = true.

(** The image at [q] is one that the normaliser hands to [clean_img_html]:
    it stands outside every paragraph, or inside a paragraph below the root
    that is not a link around an image. *)
Definition cleaned_at (root : element) (q : path) : Prop :=
  (q <> [] /\ has_ancestor (utf8 "p") root q = false)
  \/ (exists q1 r p,
        q = q1 ++ r /\ q1 <> [] /\ r <> []
        /\ get_at root q1 = Some p /\ tag p = utf8 "p"
        /\ is_linked_thumbnail p = false).

(** [y] has the tag, the attributes and the tail of [x]. *)
Definition same_node (y x : element) : Prop :=
  tag y = tag x /\ attrib y = attrib x /\ tail y = tail x.

(** [cur] is [root] after some of its images were turned into placeholders:
    the two trees have the same shape, and a node either kept its tag,
    attributes and tail, or had a [src] and is now a bare [span]. *)
Definition tracks (root cur : element) : Prop :=
  forall s,
    match get_at root s, get_at cur s with
    | Some x, Some y =>
      same_node y x
      \/ (get x (utf8 "src") <> None /\ tag y = utf8 "span" /\ attrib y = [])
    | None, None => True
    | _, _ => False
    end.

Definition img_at (e : element) (s : path) : Prop := has_tag (utf8 "img") e s = true.

(** ** A sample site

    Concrete libraries and worlds on which the definitions are run in the
    examples below.  The hash is a stand-in that keeps its argument. *)

Module Sample.

Definition html_escape (s : pystr) : pystr :=
  concat_str
    (map (fun c =>
            if c =? 38 then utf8 "&amp;"
            else if c =? 60 then utf8 "&lt;"
            else if c =? 62 then utf8 "&gt;"
            else [c]) s).

Definition show_exn (e : exn) : pystr :=
  match e with
  | HTTPError st => utf8 "HTTP error " ++ str_of_nat (Z.to_nat st)
  | RequestException m => m
  | JSONError m => m
  | ParserError m => m
  | XMLSyntaxError => utf8 "Extra content at the end of the document"
  | TypeError => utf8 "Argument must be bytes or unicode, got 'NoneType'"
  end.

Definition elem (t : string) (a : list (string * string)) (x : string)
    (c : list element) (tl : string) : element :=
  Element (utf8 t) (map (fun kv => (utf8 kv.1, utf8 kv.2)) a) (utf8 x) c (utf8 tl).
Arguments elem t%_string a%_string x%_string c tl%_string.

Definition article_url : pystr := utf8 "https://site.example/a1".
Definition json_url : pystr := utf8 "https://site.example/wp-json/a1".
Definition image_url : pystr := utf8 "https://site.example/a.jpg".

(** An article of the site: the text of its page with what the XPath
    queries find in it, and the rendered body with the tree that
    [html.fromstring] builds from it. *)
Record document : Type := {
  page_text : pystr;
  page_fields : page;
  body_html : pystr;
  body_tree : element
}.

(** The JSON document behind the alternate link. *)
Definition json_of (html : pystr) : pystr :=
  utf8 "{" ++ dq ++ utf8 "content" ++ dq ++ utf8 ": {" ++ dq ++ utf8 "rendered" ++ dq
  ++ utf8 ": " ++ dq ++ html ++ dq ++ utf8 "}}".

(** Libraries whose parsers know the texts of one article and refuse
    everything else. *)
Definition libs_for (d : document) : libs := {|
  md5 := fun s => utf8 "md5:" ++ s;
  escape_text := html_escape;
  escape_attr := fun _ v => html_escape v;
  parse_page := fun s _ =>
    if decide (s = page_text d) then OK (page_fields d)
    else Raise (ParserError (utf8 "Document is empty"));
  json_rendered := fun s =>
    if decide (s = json_of (body_html d)) then OK (body_html d)
    else Raise (JSONError (utf8 "Expecting value"));
  html_fromstring := fun s =>
    if decide (s = body_html d) then OK (body_tree d)
    else Raise (ParserError (utf8 "Document is empty"));
  str_exn := show_exn |}.

Definition reply (status : Z) (body : pystr) : response :=
  {| status_code := status; resp_text := body; resp_content := [];
     content_type := Some (utf8 "image/png") |}.

(** A world that serves one article and answers its page, its JSON
    endpoint, any other address and the publishing API with the given
    statuses. *)
Definition site (d : document) (page_status json_status image_status api_status : Z)
    (feed : list pystr) : world := {|
  API_URL := utf8 "https://api.example/post";
  API_KEY := utf8 "secret";
  http_get := fun _ url =>
    if decide (url = article_url) then OK (reply page_status (page_text d))
    else if decide (url = json_url) then OK (reply json_status (json_of (body_html d)))
    else OK (reply image_status []);
  http_post := fun _ _ _ _ => OK (reply api_status []);
  clock := fun _ => utf8 "2024-01-02 11:04:05";
  feed_entries := fun _ _ => feed |}.

Definition fresh : state := {| posted_file := Some []; events := []; ticks := O |}.

(** A page without Open Graph image. *)
Definition plain_page_text : pystr :=
  utf8 "<html><head><meta name='keywords' content='A,B,A'><meta property='article:published_time' content='2024-01-02T03:04:05+08:00'><link rel='alternate' type='application/json' href='https://site.example/wp-json/a1'></head><body><h1 class='page-title'> Title </h1><div class='entry-tags'><a>B</a><a>C</a></div></body></html>".

Definition plain_page : page := {|
  title_text := [utf8 " Title "];
  og_image := [];
  published_time := [utf8 "2024-01-02T03:04:05+08:00"];
  meta_keywords := [utf8 "A,B,A"];
  tag_links := [utf8 "B"; utf8 "C"];
  json_alternate := [json_url] |}.

(** The same page with an Open Graph image. *)
Definition cover_page_text : pystr :=
  utf8 "<html><head><meta property='og:image' content='https://site.example/a.jpg'><meta name='keywords' content='A,B,A'><meta property='article:published_time' content='2024-01-02T03:04:05+08:00'><link rel='alternate' type='application/json' href='https://site.example/wp-json/a1'></head><body><h1 class='page-title'> Title </h1><div class='entry-tags'><a>B</a><a>C</a></div></body></html>".

Definition page_with_cover : page := {|
  title_text := [utf8 " Title "];
  og_image := [image_url];
  published_time := [utf8 "2024-01-02T03:04:05+08:00"];
  meta_keywords := [utf8 "A,B,A"];
  tag_links := [utf8 "B"; utf8 "C"];
  json_alternate := [json_url] |}.

Definition body_text_only : element :=
  elem "div" [] "" [elem "p" [] "Text" [] ""] "".

(** A paragraph of text under the plain page. *)
Definition text_article : document := {|
  page_text := plain_page_text;
  page_fields := plain_page;
  body_html := utf8 "<div><p>Text</p></div>";
  body_tree := body_text_only |}.

(** The same body under the page with an Open Graph image. *)
Definition covered_article : document := {|
  page_text := cover_page_text;
  page_fields := page_with_cover;
  body_html := utf8 "<div><p>Text</p></div>";
  body_tree := body_text_only |}.

Definition body_with_paragraph_image : element :=
  elem "div" [] ""
    [elem "p" [] "Text "
       [elem "img" [("src", "https://site.example/a.jpg")]%string "" [] ""] ""] "".

(** An image inside a paragraph, no Open Graph image. *)
Definition paragraph_image_article : document := {|
  page_text := plain_page_text;
  page_fields := plain_page;
  body_html := utf8 "<div><p>Text <img src='https://site.example/a.jpg'></p></div>";
  body_tree := body_with_paragraph_image |}.

Definition body_with_linked_thumbnail : element :=
  elem "div" [] ""
    [elem "p" [] ""
       [elem "a" [("href", "/big")]%string ""
          [elem "img" [("alt", "x")]%string "" [] ""] ""] ""] "".

(** An image without source whose paragraph is a link around it. *)
Definition linked_thumbnail_article : document := {|
  page_text := plain_page_text;
  page_fields := plain_page;
  body_html := utf8 "<div><p><a href='/big'><img alt='x'></a></p></div>";
  body_tree := body_with_linked_thumbnail |}.

Definition body_with_sourceless_image : element :=
  elem "div" [] ""
    [elem "p" [] "Text " [elem "img" [("alt", "x")]%string "" [] ""] ""] "".

(** An image without source in a paragraph of text. *)
Definition sourceless_image_article : document := {|
  page_text := plain_page_text;
  page_fields := plain_page;
  body_html := utf8 "<div><p>Text <img alt='x'></p></div>";
  body_tree := body_with_sourceless_image |}.

(** A body without paragraph and without image. *)
Definition blockless_article : document := {|
  page_text := plain_page_text;
  page_fields := plain_page;
  body_html := utf8 "<div>no paragraph</div>";
  body_tree := elem "div" [] "no paragraph" [] "" |}.

(** An image with [src], [class], [width], [height] and [alt]. *)
Definition decorated_img : element :=
  elem "img" [("src", "a.jpg"); ("class", "wide"); ("width", "640");
              ("height", "480"); ("alt", "A cat")]%string "" [] "".

End Sample.

(** ** Further definitions

    The route, and what the properties of the store, of the string helpers,
    of the normaliser and of the submissions are stated with. *)

(** The identifiers that [load_posted] reads from the text of the file. *)
Definition stored_ids (txt : pystr) : gset pystr :=
  list_to_set (map strip (filter (fun l => truthy (strip l) = true) (splitlines txt))).

(** A posted file as [save_posted] leaves it: absent, empty, or ending with
    a line feed. *)
Definition newline_terminated (file : option pystr) : Prop :=
  match file with
  | None => True
  | Some txt => txt = [] \/ exists a, txt = a ++ nl
  end.

(** An identifier without blank character, as a hexadecimal digest is. *)
Definition is_token (u : pystr) : Prop :=
  u <> [] /\ forallb (fun c => negb (is_space c)) u = true.

(** The identifiers in the posted file; none while it does not exist. *)
Definition ids_of_file (file : option pystr) : gset pystr :=
  match file with
  | Some txt => stored_ids txt
  | None => ∅
  end.

(** The log line of an entry that is skipped. *)
Definition skip_line (url : pystr) : event := EvLog INFO (utf8 "Skipping duplicate: " ++ url).

(** The JSON documents of the route: [{'result': res}] and
    [{'summary': data}]. *)
Inductive reply_body : Type :=
| Result (res : option pystr)
| Summary (data : results).

(** The view function [root] (lines 183 to 191; its [def] line is indented
    by one space in the source).  [url] is [request.args.get('url')];
    [RSS_URL] is the setting of the same name. *)
Definition root (L : libs) (W : world) (RSS_URL : pystr) (url : option pystr)
    : M (reply_body * Z) :=
  if py_truthy url then
    let* seen := load_posted in
    let* r := push_article L W (default [] url) seen in
    let res := py_or r (Some (utf8 "duplicate")) in
    ret (Result res, 200%Z)
  else
    let* (data, code) := process_rss L W RSS_URL in
    ret (Summary data, code).

(** A keyword as [split_kw] returns them. *)
Definition clean_piece (k : pystr) : Prop :=
  k <> [] /\ strip k = k /\ forallb (fun c => negb (is_sep c)) k = true.

(** The attribute names that [RX_STRIP_ATTRS] lists, in lower case: the
    eight fixed names, and [data-] followed by a run without equals sign. *)
Definition listed_name (n : pystr) : Prop :=
  n ∈ stripped_names
  \/ exists t, t <> [] /\ forallb (fun c => negb (c =? 61)) t = true /\ n = utf8 "data-" ++ t.

(** The text that opens a double-quoted style attribute. *)
Definition quoted_style : pystr := utf8 "style=" ++ dq.

(** The decimal digits. *)
Definition is_digit (c : N) : bool := (48 <=? c) && (c <=? 57).

(** [cur] is [root] after some images inside paragraphs were cleaned and
    turned into placeholders: the two trees have the same shape, and a node
    either kept its tag, attributes and tail, or was an image below a
    paragraph that [clean_img_html] accepted and is now a bare [span]. *)
Definition replaced (L : libs) (root cur : element) : Prop :=
  forall s,
    match get_at root s, get_at cur s with
    | Some x, Some y =>
      same_node y x
      \/ (tag x = utf8 "img" /\ tag y = utf8 "span" /\ attrib y = []
          /\ has_ancestor (utf8 "p") root s = true
          /\ exists ih, clean_img_html L x = OK ih)
    | None, None => True
    | _, _ => False
    end.

(** The two trees have the same shape and the same paragraphs. *)
Definition same_paragraphs (a b : element) : Prop :=
  forall s,
    match get_at a s, get_at b s with
    | Some x, Some y => tag x = utf8 "p" <-> tag y = utf8 "p"
    | None, None => True
    | _, _ => False
    end.

(** The [src] of the node at [q]. *)
Definition src_at (root : element) (q : path) : option pystr :=
  match get_at root q with
  | Some img => get img (utf8 "src")
  | None => None
  end.

(** The first value of a list that counts as true. *)
Definition first_truthy (l : list (option pystr)) : option (option pystr) :=
  List.find py_truthy l.

(** Whether the node at [pp] is a paragraph that is a link around an
    image. *)
Definition thumbnail_at (root : element) (pp : path) : bool :=
  match get_at root pp with
  | Some p => is_linked_thumbnail p
  | None => false
  end.

(** The paragraphs that get a block: all but the links around an image. *)
Definition kept_paragraphs (root : element) : list path :=
  filter (fun pp => thumbnail_at root pp = false) (xpath_descendants (utf8 "p") root).

(** [s] lies below a paragraph of [root] that gets a block. *)
Definition below_kept (root : element) (s : path) : Prop :=
  exists pp r p,
    s = pp ++ r /\ r <> [] /\ get_at root pp = Some p /\ tag p = utf8 "p"
    /\ is_linked_thumbnail p = false.

(** The nodes of [cur] whose tag is not the one they have in [root] lie
    below such paragraphs. *)
Definition kept_changes (root cur : element) : Prop :=
  forall s x y,
    get_at root s = Some x -> get_at cur s = Some y -> tag y <> tag x -> below_kept root s.

(** The fixed fields of a submitted form and its signature: the hash of
    its own title and signing time followed by the API key. *)
Definition signed_form (L : libs) (W : world) (d : payload) : Prop :=
  sign d = md5 L (title d ++ sign_time d ++ API_KEY W)
  /\ description d = []
  /\ type_ d = utf8 "2"
  /\ ac_type d = utf8 "5".

(** A submission goes to the configured address with a signed form and at
    most the one file entry [pic]; other events are not constrained. *)
Definition regular_event (L : libs) (W : world) (ev : event) : Prop :=
  match ev with
  | EvPost u d f _ =>
    u = API_URL W /\ signed_form L W d /\ (f = [] \/ exists p, f = [(utf8 "pic", p)])
  | _ => True
  end.

(** * Properties *)

#[local] Set Warnings "-clear-no-such-hyp".

(** ** Image cleaning *)

(** C9.  For an image element with a [src] attribute, [clean_img_html]
    returns the serialisation of the element with exactly the attributes
    [src], [style] (set to full width) and [alt], the last one only when it
    was present and not empty, in this order; every other attribute is gone.
    The only way not to return is the XML round trip refusing a tail that is
    not blank.  For an [img] the output is the tag with these attributes. *)
Theorem clean_img_keeps_src_style_alt (L : libs) (img : element) (s : pystr) :
  get img (utf8 "src") = Some s ->
  let alt :=
    match get img (utf8 "alt") with
    | Some a => if truthy a then [(utf8 "alt", a)] else []
    | None => []
    end in
  let kept := [(utf8 "src", s); (utf8 "style", utf8 "width:100%;")] ++ alt in
  clean_img_html L img =
    (if forallb xml_blank (tail img)
     then OK (tostring_html L (Element (tag img) kept (text img) (children img) []))
     else Raise XMLSyntaxError)
  /\ (tag img = utf8 "img" ->
      tostring_html L (Element (tag img) kept (text img) (children img) [])
      = utf8 "<img" ++ concat_str (map (attr_html L) kept) ++ utf8 ">" ++ escape_text L []).
Proof.
  intros Hsrc alt kept. split.
  - unfold clean_img_html, cleaned_img, xml_roundtrip.
    destruct (forallb xml_blank (tail img)); [|reflexivity].
    cbn [rbind]. unfold get in *. cbn [attrib tag text children tail attrib_clear].
    rewrite Hsrc. cbn [set rbind attrib tag text children tail].
    subst kept alt. destruct (assoc (utf8 "alt") (attrib img)) as [a|]; cbn [default id].
    + destruct (truthy a) eqn:Ha; reflexivity.
    + reflexivity.
  - intros ->. reflexivity.
Qed.

(** The image of the specification, with [src], [class], [width], [height]
    and [alt]. *)
Lemma clean_img_keeps_src_style_alt_witness :
  get Sample.decorated_img (utf8 "src") = Some (utf8 "a.jpg")
  /\ clean_img_html (Sample.libs_for Sample.text_article)
       Sample.decorated_img
     = OK (utf8 "<img src=" ++ dq ++ utf8 "a.jpg" ++ dq ++ utf8 " style=" ++ dq
           ++ utf8 "width:100%;" ++ dq ++ utf8 " alt=" ++ dq ++ utf8 "A cat" ++ dq
           ++ utf8 ">").
Proof.
  split; [reflexivity|].
  exact (proj1 (clean_img_keeps_src_style_alt
                  (Sample.libs_for Sample.text_article)
                  Sample.decorated_img (utf8 "a.jpg") eq_refl)).
Defined.

(** ** Keywords *)

Lemma drop_while_blank_prefix (ws x : pystr) :
  forallb is_space ws = true -> drop_while is_space (ws ++ x) = drop_while is_space x.
Proof.
  induction ws as [|c ws IH]; cbn; [reflexivity|].
  intros H. apply andb_prop in H as [Hc Hws]. rewrite Hc. auto.
Qed.

Lemma strip_blank_prefix (ws x : pystr) :
  forallb is_space ws = true -> strip (ws ++ x) = strip x.
Proof. intros H. unfold strip, lstrip. now rewrite drop_while_blank_prefix. Qed.

Lemma sep_rx_split_pieces (s cur ws : pystr) (after_sep : bool) :
  forallb is_space ws = true ->
  (after_sep = true -> cur = []) ->
  map strip (sep_rx_split s cur after_sep)
  = map strip (pieces_between s (cur ++ rev ws)).
Proof.
  revert cur ws after_sep.
  induction s as [|c s IH]; intros cur ws b Hws Hb; cbn [sep_rx_split pieces_between map].
  - rewrite rev_app_distr, rev_involutive, strip_blank_prefix by assumption. reflexivity.
  - destruct (is_sep c) eqn:Hsep.
    + cbn [map]. rewrite rev_app_distr, rev_involutive, strip_blank_prefix by assumption.
      f_equal. apply (IH [] [] true); [reflexivity|reflexivity].
    + destruct (b && is_space c) eqn:Hskip.
      * apply andb_prop in Hskip as [-> Hc]. rewrite (Hb eq_refl). cbn [app].
        rewrite (IH [] (ws ++ [c]) true); [|rewrite forallb_app; cbn; now rewrite Hws, Hc|reflexivity].
        cbn [app]. rewrite rev_app_distr. reflexivity.
      * rewrite (IH (c :: cur) ws false); [reflexivity|assumption|discriminate].
Qed.

Lemma filter_strip_commute (l : list pystr) :
  map strip (filter (fun k => truthy (strip k) = true) l)
  = filter (fun k => truthy k = true) (map strip l).
Proof.
  induction l as [|x l IH]; [reflexivity|].
  cbn [map]. rewrite !filter_cons. destruct (decide (truthy (strip x) = true)); cbn [map]; now rewrite IH.
Qed.

Lemma split_kw_comma_separated (s : pystr) : split_kw s = comma_separated s.
Proof.
  unfold split_kw, comma_separated. rewrite filter_strip_commute. f_equal.
  apply (sep_rx_split_pieces s [] [] false); [reflexivity|discriminate].
Qed.

Lemma dedup_kw_first_occurrences (kw before : list pystr) (seen_kw : gset pystr) :
  (forall k, k ∈ seen_kw <-> k ∈ before) ->
  dedup_kw kw seen_kw = first_occurrences before kw.
Proof.
  revert before seen_kw.
  induction kw as [|k kw IH]; intros before seen Hs; cbn [dedup_kw first_occurrences]; [reflexivity|].
  destruct (decide (k ∈ seen)) as [Hin|Hout]; destruct (decide (k ∈ before)) as [Hb|Hb];
    try (exfalso; apply Hs in Hin || apply Hs in Hb; contradiction).
  - cbn [app]. apply IH. set_solver.
  - cbn [app]. f_equal. apply IH. set_solver.
Qed.

Lemma elem_of_first_occurrences (before l : list pystr) (k : pystr) :
  k ∈ first_occurrences before l <-> k ∈ l /\ k ∉ before.
Proof.
  revert before. induction l as [|x l IH]; intros before; cbn [first_occurrences].
  - set_solver.
  - rewrite elem_of_app, IH.
    destruct (decide (x ∈ before)); destruct (decide (k = x)) as [->|]; set_solver.
Qed.

Lemma NoDup_first_occurrences (before l : list pystr) : NoDup (first_occurrences before l).
Proof.
  revert before. induction l as [|x l IH]; intros before; cbn [first_occurrences].
  - constructor.
  - destruct (decide (x ∈ before)); cbn [app]; [apply IH|].
    constructor; [|apply IH].
    rewrite elem_of_first_occurrences. set_solver.
Qed.

Lemma sublist_first_occurrences (before l : list pystr) : sublist (first_occurrences before l) l.
Proof.
  revert before. induction l as [|x l IH]; intros before; cbn [first_occurrences].
  - constructor.
  - destruct (decide (x ∈ before)); cbn [app]; [apply sublist_cons|apply sublist_skip]; apply IH.
Qed.

(** C7.  The keyword string of a page is the fixed leading tag, then the
    keywords-meta content split at the three commas, then the tag-link
    texts, each kept at its first occurrence only, joined with commas; the
    list has no repeats, the same members and the same order as the sources.
    The sources of the specification give [DecoTV,A,B,C]. *)
Theorem keywords_deduplicated_in_first_occurrence_order :
  (forall meta tags : list pystr,
     let kw := [utf8 "DecoTV"] ++ comma_separated (concat_str meta) ++ tags in
     keywords_of meta tags = join (utf8 ",") (first_occurrences [] kw)
     /\ NoDup (first_occurrences [] kw)
     /\ (forall k, k ∈ first_occurrences [] kw <-> k ∈ kw)
     /\ sublist (first_occurrences [] kw) kw)
  /\ keywords_of [utf8 "A,B,A"] [utf8 "B"; utf8 "C"] = utf8 "DecoTV,A,B,C".
Proof.
  split; [|vm_compute; reflexivity].
  intros meta tags kw. repeat split.
  - unfold keywords_of. rewrite split_kw_comma_separated. fold kw. f_equal.
    apply dedup_kw_first_occurrences. set_solver.
  - apply NoDup_first_occurrences.
  - rewrite elem_of_first_occurrences. naive_solver.
  - rewrite elem_of_first_occurrences. set_solver.
  - apply sublist_first_occurrences.
Qed.

(** ** Runs of monadic code *)

Lemma bind_run {A B} (m : M A) (k : A -> M B) (st st' : state) (r : result B) :
  bind m k st = (r, st') ->
  (exists a st1, m st = (OK a, st1) /\ k a st1 = (r, st'))
  \/ (exists e, m st = (Raise e, st') /\ r = Raise e).
Proof.
  unfold bind. destruct (m st) as [[a|e] st1]; intros H.
  - left. eauto.
  - right. inversion H; subst. eauto.
Qed.

Lemma quiet_ret {A} (a : A) : quiet (ret a).
Proof. intros st r st' [= <- <-]. split; [reflexivity|]. exists []. now rewrite app_nil_r. Qed.

Lemma quiet_raise {A} (e : exn) : quiet (@raise A e).
Proof. intros st r st' [= <- <-]. split; [reflexivity|]. exists []. now rewrite app_nil_r. Qed.

Lemma quiet_lift {A} (x : result A) : quiet (lift x).
Proof. intros st r st' [= <- <-]. split; [reflexivity|]. exists []. now rewrite app_nil_r. Qed.

Lemma quiet_bind {A B} (m : M A) (k : A -> M B) :
  quiet m -> (forall a, quiet (k a)) -> quiet (bind m k).
Proof.
  intros Hm Hk st r st' H. apply bind_run in H as [(a & st1 & H1 & H2)|(e & H1 & _)].
  - apply Hm in H1 as (Hf1 & n1 & He1 & Hq1). apply Hk in H2 as (Hf2 & n2 & He2 & Hq2).
    split; [congruence|]. exists (n1 ++ n2). rewrite He2, He1, <- app_assoc.
    split; [reflexivity|]. rewrite forallb_app, Hq1, Hq2. reflexivity.
  - now apply Hm in H1.
Qed.

Lemma quiet_try_except {A} (m : M A) (h : exn -> M A) :
  quiet m -> (forall e, quiet (h e)) -> quiet (try_except m h).
Proof.
  intros Hm Hh st r st' H. unfold try_except in H.
  destruct (m st) as [[a|e] st1] eqn:E.
  - inversion H; subst. now apply Hm in E.
  - apply Hm in E as (Hf1 & n1 & He1 & Hq1). apply Hh in H as (Hf2 & n2 & He2 & Hq2).
    split; [congruence|]. exists (n1 ++ n2). rewrite He2, He1, <- app_assoc.
    split; [reflexivity|]. rewrite forallb_app, Hq1, Hq2. reflexivity.
Qed.

Lemma quiet_log (lvl : level) (msg : pystr) : quiet (log lvl msg).
Proof. intros st r st' [= <- <-]. split; [reflexivity|]. now exists [EvLog lvl msg]. Qed.

Lemma quiet_requests_get (W : world) (url : pystr) : quiet (requests_get W url).
Proof.
  intros st r st' [= <- <-]. split; [reflexivity|].
  now exists [EvGet url (http_get W (ticks st) url)].
Qed.

Lemma quiet_now (W : world) : quiet (now W).
Proof. intros st r st' [= <- <-]. split; [reflexivity|]. exists []. split; [reflexivity|reflexivity]. Qed.

Lemma quiet_raise_for_status (r : response) : quiet (raise_for_status r).
Proof.
  unfold raise_for_status.
  destruct ((400 <=? status_code r)%Z && (status_code r <? 600)%Z);
    [apply quiet_raise|apply quiet_ret].
Qed.

Create HintDb quiet.

#[local] Hint Resolve quiet_ret quiet_raise quiet_lift quiet_log quiet_requests_get
  quiet_now quiet_raise_for_status : quiet.

Ltac quiet_steps :=
  repeat first
    [ apply quiet_bind; [|intros ?]
    | apply quiet_try_except; [|intros ?]
    | progress auto with quiet
    | match goal with
      | |- quiet (if ?b then _ else _) => destruct b
      | |- quiet (match ?x with _ => _ end) => destruct x
      end ].

Lemma quiet_fetch_pic (L : libs) (W : world) (url : pystr) : quiet (fetch_pic L W url).
Proof. unfold fetch_pic. quiet_steps. Qed.

Lemma quiet_cover_files (L : libs) (W : world) (cover : option pystr) :
  quiet (cover_files L W cover).
Proof. unfold cover_files. pose proof quiet_fetch_pic. quiet_steps. Qed.

Lemma quiet_read_article (L : libs) (W : world) (url : pystr) : quiet (read_article L W url).
Proof. unfold read_article. quiet_steps. Qed.

(** ** The submission *)

Lemma publish_run (W : world) (uid ttl : pystr) (data : payload) (files : files_arg)
    (st : state) :
  let answer := http_post W (ticks st) (API_URL W) data files in
  let sent := EvPost (API_URL W) data files answer in
  let appended := Some (default [] (posted_file st) ++ uid ++ nl) in
  publish W uid ttl data files st =
  match answer with
  | OK rsp =>
    if (status_code rsp =? 409)%Z then
      (OK None,
       after_events st appended [sent; EvLog INFO (utf8 "API duplicate"); EvSave uid] 1)
    else if ((400 <=? status_code rsp) && (status_code rsp <? 600))%Z then
      (Raise (HTTPError (status_code rsp)), after_events st (posted_file st) [sent] 1)
    else
      (OK (Some (utf8 "ok")),
       after_events st appended [sent; EvSave uid; EvLog INFO (utf8 "Pushed: " ++ ttl)] 1)
  | Raise e => (Raise e, after_events st (posted_file st) [sent] 1)
  end.
Proof.
  intros answer sent appended. subst sent appended.
  unfold publish, bind, requests_post, tick, after_events. fold answer.
  destruct answer as [rsp|e]; cbn [fst snd]; [|reflexivity].
  destruct (status_code rsp =? 409)%Z.
  - cbn. rewrite <- !app_assoc. reflexivity.
  - unfold raise_for_status.
    destruct ((400 <=? status_code rsp)%Z && (status_code rsp <? 600)%Z).
    + reflexivity.
    + cbn. rewrite <- !app_assoc. reflexivity.
Qed.

Lemma push_article_skip (L : libs) (W : world) (url : pystr) (seen : gset pystr) (st : state) :
  md5 L url ∈ seen ->
  push_article L W url seen st =
  (OK None, after_events st (posted_file st) [EvLog INFO (utf8 "Skipping duplicate: " ++ url)] 0).
Proof. intros H. unfold push_article. rewrite decide_True by assumption. reflexivity. Qed.

Lemma quiet_before_submission (L : libs) (W : world) (url : pystr) :
  quiet (before_submission L W url).
Proof.
  unfold before_submission.
  pose proof quiet_read_article. pose proof quiet_cover_files. quiet_steps.
Qed.

Lemma push_article_fresh (L : libs) (W : world) (url : pystr) (seen : gset pystr) (st : state) :
  md5 L url ∉ seen ->
  push_article L W url seen st =
  match before_submission L W url st with
  | (OK (art, files, sign_time), st1) =>
    publish W (md5 L url) (art_title art) (form_data L W art sign_time) files st1
  | (Raise e, st1) => (Raise e, st1)
  end.
Proof.
  intros H. unfold push_article, before_submission. rewrite decide_False by assumption.
  unfold bind.
  destruct (log INFO (utf8 "Fetching: " ++ url) st) as [[[]|e] s0]; [|reflexivity].
  destruct (read_article L W url s0) as [[art|e] s1]; [|reflexivity].
  destruct (cover_files L W (art_cover art) s1) as [[files|e] s2]; [|reflexivity].
  destruct (now W s2) as [[t|e] s3]; [|reflexivity].
  reflexivity.
Qed.

(** C1, as amended.  A run of [push_article] on a URL that is not in the seen
    set either fails before any submission, with the posted file untouched,
    or submits once after quiet steps only.  When the API answers 409 the
    identifier is appended to the posted file and the result is [None]; when
    it answers another status from 400 to 599 an [HTTPError] is raised and
    nothing is recorded; for every other status (all of 2xx among them) the
    identifier is appended and the result is ['ok'].  The posted file is
    written after the answer, never before. *)
Theorem store_written_only_after_the_answer (L : libs) (W : world) (url : pystr)
    (seen : gset pystr) (st : state) :
  md5 L url ∉ seen ->
  let run := push_article L W url seen st in
  let uid := md5 L url in
  let appended := Some (default [] (posted_file st) ++ uid ++ nl) in
  (exists e pre,
      run.1 = Raise e
      /\ events run.2 = events st ++ pre /\ forallb is_quiet pre = true
      /\ posted_file run.2 = posted_file st)
  \/ (exists pre data files answer after,
      events run.2 = events st ++ pre ++ EvPost (API_URL W) data files answer :: after
      /\ forallb is_quiet pre = true
      /\ match answer with
         | OK rsp =>
           (status_code rsp = 409%Z ->
              run.1 = OK None /\ posted_file run.2 = appended
              /\ after = [EvLog INFO (utf8 "API duplicate"); EvSave uid])
           /\ ((400 <= status_code rsp < 600)%Z -> status_code rsp <> 409%Z ->
              run.1 = Raise (HTTPError (status_code rsp))
              /\ posted_file run.2 = posted_file st /\ after = [])
           /\ (~ (400 <= status_code rsp < 600)%Z ->
              run.1 = OK (Some (utf8 "ok")) /\ posted_file run.2 = appended
              /\ after = [EvSave uid; EvLog INFO (utf8 "Pushed: " ++ title data)])
         | Raise e =>
           run.1 = Raise e /\ posted_file run.2 = posted_file st /\ after = []
         end).
Proof.
  intros Hfresh run uid appended. subst run.
  rewrite push_article_fresh by assumption.
  destruct (before_submission L W url st) as [[[[art files] t]|e] st1] eqn:E;
    apply quiet_before_submission in E as (Hfile & pre & Hev & Hq).
  2:{ left. exists e, pre. auto. }
  right. rewrite publish_run.
  set (answer := http_post W (ticks st1) (API_URL W) (form_data L W art t) files).
  exists pre, (form_data L W art t), files, answer.
  subst appended uid. rewrite <- Hfile.
  destruct answer as [rsp|e].
  - destruct (status_code rsp =? 409)%Z eqn:E409.
    + eexists. cbn [fst snd after_events events posted_file]. rewrite Hev, <- app_assoc.
      split; [reflexivity|]. split; [assumption|].
      apply Z.eqb_eq in E409. repeat split; try reflexivity; intros; exfalso; lia.
    + apply Z.eqb_neq in E409.
      destruct ((400 <=? status_code rsp)%Z && (status_code rsp <? 600)%Z) eqn:Erange.
      * eexists. cbn [fst snd after_events events posted_file]. rewrite Hev, <- app_assoc.
        split; [reflexivity|]. split; [assumption|].
        apply andb_prop in Erange as [?%Z.leb_le ?%Z.ltb_lt].
        repeat split; try reflexivity; intros; exfalso; lia.
      * eexists. cbn [fst snd after_events events posted_file]. rewrite Hev, <- app_assoc.
        split; [reflexivity|]. split; [assumption|].
        apply andb_false_iff in Erange as [?%Z.leb_gt| ?%Z.ltb_ge];
        repeat split; try reflexivity; intros; exfalso; lia.
  - eexists. cbn [fst snd after_events events posted_file]. rewrite Hev, <- app_assoc.
    split; [reflexivity|]. split; [assumption|]. repeat split; reflexivity.
Qed.

(** A run against an API that answers 409. *)
Lemma store_written_only_after_the_answer_witness :
  let L := Sample.libs_for Sample.text_article in
  let W := Sample.site Sample.text_article 200 200 200 409 [] in
  let run := push_article L W Sample.article_url ∅ Sample.fresh in
  (md5 L Sample.article_url ∉ (∅ : gset pystr))
  /\ exists pre data files answer after,
       events run.2 = pre ++ EvPost (API_URL W) data files answer :: after
       /\ forallb is_quiet pre = true.
Proof.
  intros L W run.
  assert (Hfresh : md5 L Sample.article_url ∉ (∅ : gset pystr)) by set_solver.
  split; [exact Hfresh|].
  destruct (store_written_only_after_the_answer L W Sample.article_url ∅ Sample.fresh Hfresh)
    as [(e & pre & He & _)|(pre & data & files & answer & after & Hev & Hq & _)].
  - vm_compute in He. discriminate He.
  - exists pre, data, files, answer, after. split; [exact Hev|exact Hq].
Defined.

(** C1 as stated fails: an answer 304 is neither 2xx nor 409, and the
    identifier is recorded and the article reported as published. *)
Lemma status_304_is_recorded_as_published :
  let L := Sample.libs_for Sample.text_article in
  let W := Sample.site Sample.text_article 200 200 200 304 [] in
  let run := push_article L W Sample.article_url ∅ Sample.fresh in
  submissions (events run.2) = [([], OK 304%Z)]
  /\ run.1 = OK (Some (utf8 "ok"))
  /\ posted_file run.2 = Some (md5 L Sample.article_url ++ nl)
  /\ saved_ids (events run.2) = [md5 L Sample.article_url].
Proof. vm_compute. repeat split; reflexivity. Qed.

Lemma bind_ok {A B} (m : M A) (k : A -> M B) (st st' : state) (b : B) :
  bind m k st = (OK b, st') ->
  exists a st1, m st = (OK a, st1) /\ k a st1 = (OK b, st').
Proof.
  intros H. apply bind_run in H as [H|(e & _ & H)]; [assumption|discriminate].
Qed.

Lemma lift_ok {A} (x : result A) (st st' : state) (a : A) :
  lift x st = (OK a, st') -> x = OK a /\ st' = st.
Proof. unfold lift. intros [= -> ->]. auto. Qed.

Lemma read_article_body (L : libs) (W : world) (url : pystr) (st st' : state) (art : article) :
  read_article L W url st = (OK art, st') ->
  exists raw root segs first_img,
    html_fromstring L raw = OK root
    /\ normalize L root = OK (segs, first_img)
    /\ art_body art = assemble_body segs url (art_title art)
    /\ exists cover, art_cover art = py_or (Some cover) first_img.
Proof.
  unfold read_article. intros H.
  apply bind_ok in H as (resp & s1 & _ & H).
  apply bind_ok in H as (? & s2 & _ & H).
  apply bind_ok in H as (doc & s3 & _ & H).
  apply bind_ok in H as (created & s4 & _ & H).
  apply bind_ok in H as (rj & s5 & _ & H).
  apply bind_ok in H as (raw & s6 & _ & H).
  apply bind_ok in H as (root & s7 & [Hroot _]%lift_ok & H).
  apply bind_ok in H as ([segs fi] & s8 & [Hnorm _]%lift_ok & H).
  inversion H; subst. cbn. eauto 10.
Qed.

Lemma assemble_body_suffix (segs : list pystr) (url ttl : pystr) :
  exists blocks, assemble_body segs url ttl = blocks ++ attribution url ttl
                 /\ (blocks = join nl segs \/ blocks = no_content).
Proof.
  unfold assemble_body. destruct (truthy (join nl segs)); eauto.
Qed.

(** C8.  Without content blocks the body is the placeholder paragraph
    followed by the attribution paragraph; every body ends with the
    attribution paragraph, a link to the source URL labelled with the
    title; and the body that [read_article] hands to the submission is
    assembled in this way from the blocks of the normaliser. *)
Theorem normalized_body_ends_with_attribution :
  (forall url ttl, assemble_body [] url ttl = no_content ++ attribution url ttl)
  /\ (forall segs url ttl,
        exists blocks, assemble_body segs url ttl = blocks ++ attribution url ttl)
  /\ (forall L W url st art st',
        read_article L W url st = (OK art, st') ->
        exists raw root segs first_img,
          html_fromstring L raw = OK root
          /\ normalize L root = OK (segs, first_img)
          /\ art_body art = assemble_body segs url (art_title art)
          /\ (segs = [] -> art_body art = no_content ++ attribution url (art_title art))
          /\ (exists blocks, art_body art = blocks ++ attribution url (art_title art))
          /\ (forall sign_time, content (form_data L W art sign_time) = art_body art)).
Proof.
  split; [reflexivity|]. split.
  - intros segs url ttl. destruct (assemble_body_suffix segs url ttl) as (b & H & _). eauto.
  - intros L W url st art st' H.
    apply read_article_body in H as (raw & root & segs & fi & Hroot & Hnorm & Hbody & _).
    exists raw, root, segs, fi. repeat split; try assumption.
    + intros ->. rewrite Hbody. reflexivity.
    + rewrite Hbody. destruct (assemble_body_suffix segs url (art_title art)) as (b & H & _). eauto.
Qed.

(** A body without paragraph and without image. *)
Lemma normalized_body_ends_with_attribution_witness :
  let L := Sample.libs_for Sample.blockless_article in
  let W := Sample.site Sample.blockless_article 200 200 200 200 [] in
  exists art st',
    read_article L W Sample.article_url Sample.fresh = (OK art, st')
    /\ art_body art = no_content ++ attribution Sample.article_url (art_title art).
Proof.
  intros L W.
  destruct (read_article L W Sample.article_url Sample.fresh) as [[art|e] st'] eqn:E;
    [|vm_compute in E; discriminate E].
  exists art, st'. split; [reflexivity|].
  destruct (proj2 (proj2 normalized_body_ends_with_attribution) L W _ _ _ _ E)
    as (raw & root & segs & fi & Hroot & Hnorm & Hbody & Hempty & _).
  apply Hempty.
  cbv [L Sample.libs_for html_fromstring] in Hroot.
  destruct (decide (raw = Sample.body_html Sample.blockless_article)); [|discriminate Hroot].
  injection Hroot as <-. vm_compute in Hnorm. injection Hnorm as <- _. reflexivity.
Defined.

(** ** The cover *)

Lemma fetch_pic_failure (L : libs) (W : world) (c : pystr) (st : state) (e : exn) :
  fetch_failure (http_get W (ticks st) c) = Some e ->
  fetch_pic L W c st =
  (OK None,
   after_events st (posted_file st)
     [EvGet c (http_get W (ticks st) c);
      EvLog WARNING (utf8 "Failed to fetch image " ++ c ++ utf8 ": " ++ str_exn L e)] 1).
Proof.
  unfold fetch_failure, fetch_pic, try_except, bind, requests_get, tick, after_events.
  destruct (http_get W (ticks st) c) as [r|e'] eqn:E; cbn [fst snd].
  - unfold raise_for_status.
    destruct ((400 <=? status_code r)%Z && (status_code r <? 600)%Z); [|discriminate].
    intros [= <-]. unfold raise, log, emit, ret. cbn [posted_file events ticks Nat.add].
    rewrite <- app_assoc. reflexivity.
  - intros [= <-]. unfold raise, log, emit, ret. cbn [posted_file events ticks Nat.add].
    rewrite <- app_assoc. reflexivity.
Qed.

(** C5, as amended.  When the article has a cover URL and its fetch raises
    or is answered with a status from 400 to 599, [push_article] logs a
    warning and goes on to the submission, whose [files] hold [None] for
    ['pic']: no file part is written. *)
Theorem failed_cover_fetch_posts_without_attachment (L : libs) (W : world) (url : pystr)
    (seen : gset pystr) (st st1 : state) (art : article) (c : pystr) (e : exn) :
  md5 L url ∉ seen ->
  read_article L W url (log INFO (utf8 "Fetching: " ++ url) st).2 = (OK art, st1) ->
  art_cover art = Some c ->
  truthy c = true ->
  fetch_failure (http_get W (ticks st1) c) = Some e ->
  let run := push_article L W url seen st in
  exists data sent after,
    events run.2 =
      events st1
      ++ [EvGet c (http_get W (ticks st1) c);
          EvLog WARNING (utf8 "Failed to fetch image " ++ c ++ utf8 ": " ++ str_exn L e);
          EvPost (API_URL W) data [(utf8 "pic", None)] sent]
      ++ after
    /\ file_parts [(utf8 "pic", None)] = []
    /\ content data = art_body art.
Proof.
  intros Hfresh Hread Hcover Htruthy Hfail run. subst run.
  rewrite push_article_fresh by assumption.
  unfold before_submission, bind.
  destruct (log INFO (utf8 "Fetching: " ++ url) st) as [[[]|e0] s0] eqn:Elog;
    [|discriminate Elog].
  cbn [snd] in Hread. rewrite Hread. unfold cover_files. rewrite Hcover, Htruthy.
  unfold bind. rewrite (fetch_pic_failure L W c st1 e Hfail).
  unfold now, tick, ret. cbn [after_events ticks events posted_file fst snd].
  rewrite publish_run.
  match goal with
  | |- context [http_post W ?n ?u ?d ?f] => set (sent := http_post W n u d f); exists d, sent
  end.
  destruct sent as [rsp|e1]; [destruct (status_code rsp =? 409)%Z;
    [|destruct ((400 <=? status_code rsp)%Z && (status_code rsp <? 600)%Z)]|];
    eexists; cbn [fst snd after_events events]; rewrite <- !app_assoc;
    cbn [app]; (split; [reflexivity|split; reflexivity]).
Qed.

(** A cover that is answered with 404. *)
Lemma failed_cover_fetch_posts_without_attachment_witness :
  let L := Sample.libs_for Sample.covered_article in
  let W := Sample.site Sample.covered_article 200 200 404 200 [] in
  let run := push_article L W Sample.article_url ∅ Sample.fresh in
  exists art st1,
    read_article L W Sample.article_url
      (log INFO (utf8 "Fetching: " ++ Sample.article_url) Sample.fresh).2 = (OK art, st1)
    /\ art_cover art = Some Sample.image_url
    /\ fetch_failure (http_get W (ticks st1) Sample.image_url) = Some (HTTPError 404)
    /\ exists data sent after,
        events run.2 =
          events st1
          ++ [EvGet Sample.image_url (http_get W (ticks st1) Sample.image_url);
              EvLog WARNING (utf8 "Failed to fetch image " ++ Sample.image_url ++ utf8 ": "
                             ++ str_exn L (HTTPError 404));
              EvPost (API_URL W) data [(utf8 "pic", None)] sent]
          ++ after
        /\ file_parts [(utf8 "pic", None)] = []
        /\ content data = art_body art.
Proof.
  intros L W run.
  destruct (read_article L W Sample.article_url
              (log INFO (utf8 "Fetching: " ++ Sample.article_url) Sample.fresh).2)
    as [[art|e] st1] eqn:E; [|vm_compute in E; discriminate E].
  assert (Hcover : art_cover art = Some Sample.image_url).
  { vm_compute in E. injection E as <- _. reflexivity. }
  assert (Hfail : fetch_failure (http_get W (ticks st1) Sample.image_url)
                  = Some (HTTPError 404)).
  { vm_compute in E. injection E as _ <-. reflexivity. }
  exists art, st1. split; [reflexivity|]. split; [exact Hcover|]. split; [exact Hfail|].
  apply (failed_cover_fetch_posts_without_attachment L W Sample.article_url ∅ Sample.fresh
           st1 art Sample.image_url (HTTPError 404)).
  - set_solver.
  - exact E.
  - exact Hcover.
  - reflexivity.
  - exact Hfail.
Defined.

(** C5 as stated fails: a cover answered with 304, which is not 2xx, is
    attached to the submission. *)
Lemma cover_answered_304_is_attached :
  let L := Sample.libs_for Sample.covered_article in
  let W := Sample.site Sample.covered_article 200 200 304 200 [] in
  let run := push_article L W Sample.article_url ∅ Sample.fresh in
  fetches (events run.2)
    = [(Sample.article_url, OK 200%Z); (Sample.json_url, OK 200%Z);
       (Sample.image_url, OK 304%Z)]
  /\ submissions (events run.2)
     = [([(utf8 "pic", (utf8 "image.png", [], Some (utf8 "image/png")))], OK 200%Z)].
Proof. vm_compute. split; reflexivity. Qed.

(** C3 *)
(** ** Evaluations of the pipeline *)

(** C3.  The JSON endpoint answers 500 and the pipeline goes on: the body
    of the answer is parsed, the article is submitted and recorded. *)
Theorem json_endpoint_status_is_not_checked :
  let L := Sample.libs_for Sample.text_article in
  let W := Sample.site Sample.text_article 200 500 200 200 [] in
  let run := push_article L W Sample.article_url ∅ Sample.fresh in
  fetches (events run.2) = [(Sample.article_url, OK 200%Z); (Sample.json_url, OK 500%Z)]
  /\ submissions (events run.2) = [([], OK 200%Z)]
  /\ run.1 = OK (Some (utf8 "ok"))
  /\ saved_ids (events run.2) = [md5 L Sample.article_url].
Proof. vm_compute. repeat split; reflexivity. Qed.

(** C2 *)
(** C2.  The page has no Open Graph image and the only image of the body
    stands in a paragraph: the first image comes out as [None], no cover is
    fetched and the submission carries no file. *)
Theorem paragraph_image_is_not_used_as_cover :
  let L := Sample.libs_for Sample.paragraph_image_article in
  let W := Sample.site Sample.paragraph_image_article 200 200 200 200 [] in
  let run := push_article L W Sample.article_url ∅ Sample.fresh in
  get_at Sample.body_with_paragraph_image [0; 0]%nat
    = Some (Sample.elem "img" [("src", "https://site.example/a.jpg")]%string "" [] "")
  /\ (exists segs, normalize L Sample.body_with_paragraph_image = OK (segs, None))
  /\ fetches (events run.2) = [(Sample.article_url, OK 200%Z); (Sample.json_url, OK 200%Z)]
  /\ map snd (posted_forms (events run.2)) = [[]]
  /\ run.1 = OK (Some (utf8 "ok")).
Proof.
  vm_compute. repeat split; try reflexivity. eexists. reflexivity.
Qed.

(** ** The feed loop *)

Lemma process_entry_run (L : libs) (W : world) (seen : gset pystr) (res : results)
    (link : pystr) (st : state) :
  process_entry L W seen res link st =
  match push_article L W link seen st with
  | (OK (Some _), st1) =>
    (OK {| success := success res ++ [link]; failed := failed res |}, st1)
  | (OK None, st1) => (OK res, st1)
  | (Raise e, st1) =>
    (OK {| success := success res; failed := failed res ++ [(link, str_exn L e)] |},
     (log ERROR (utf8 "Err " ++ link ++ utf8 ": " ++ str_exn L e) st1).2)
  end.
Proof.
  unfold process_entry, try_except, bind.
  destruct (push_article L W link seen st) as [[[ok|]|e] st1]; reflexivity.
Qed.

Lemma process_entries_outcomes (L : libs) (W : world) (seen : gset pystr)
    (entries : list pystr) (res : results) (st : state) :
  let outs := entry_outcomes L W seen entries st in
  (process_entries L W seen res entries st).1 =
    OK {| success := success res ++ published_links outs;
          failed := failed res ++ failure_records L outs |}
  /\ map fst outs = entries.
Proof.
  revert res st. induction entries as [|link entries IH]; intros res st; cbn zeta.
  - cbn. rewrite !app_nil_r. destruct res; auto.
  - cbn [process_entries entry_outcomes map fst]. unfold bind at 1.
    rewrite process_entry_run.
    destruct (push_article L W link seen st) as [[[ok|]|e] st1]; cbn [fst snd];
      match goal with
      | |- (process_entries _ _ _ ?r _ ?s).1 = _ /\ _ =>
        destruct (IH r s) as [-> ->]
      end;
      cbn [success failed published_links failure_records omap fst snd list_omap];
      rewrite <- ?app_assoc; auto.
Qed.

(** C6.  [process_rss] never raises.  Every entry of the feed is run, in
    order, each from the state its predecessor left; the links whose
    pipeline returned ['ok'] make the success list, the links whose pipeline
    raised make the failure list together with the message of the
    exception, and the entries that returned [None] are in neither. *)
Theorem process_rss_isolates_failures (L : libs) (W : world) (feed_url : pystr) (st : state) :
  let s1 := (log INFO (utf8 "RSS: " ++ feed_url) st).2 in
  let entries := feed_entries W (ticks s1) feed_url in
  let s2 := (feedparser_parse W feed_url s1).2 in
  let seen := match (load_posted s2).1 with OK s => s | Raise _ => ∅ end in
  let s3 := (load_posted s2).2 in
  let outs := entry_outcomes L W seen entries s3 in
  (process_rss L W feed_url st).1 =
    OK ({| success := published_links outs; failed := failure_records L outs |}, 200%Z)
  /\ map fst outs = entries
  /\ (length (published_links outs) + length (failure_records L outs)
      + length (unreported_links outs) = length entries)%nat.
Proof.
  intros s1 entries s2 seen s3 outs.
  destruct (process_entries_outcomes L W seen entries {| success := []; failed := [] |} s3)
    as [Hres Hmap].
  fold outs in Hres, Hmap. cbn [success failed app] in Hres.
  split; [|split; [assumption|]].
  - unfold process_rss, bind.
    change (log INFO (utf8 "RSS: " ++ feed_url) st) with (OK tt, s1). cbv beta iota.
    change (feedparser_parse W feed_url s1) with (OK entries, s2).
    assert (Hload : load_posted s2 = (OK seen, s3)).
    { subst seen s3. unfold load_posted. destruct (posted_file s2); reflexivity. }
    cbv beta iota. rewrite Hload.
    destruct (process_entries L W seen {| success := []; failed := [] |} entries s3)
      as [[r|e] s4]; cbn [fst] in Hres; [|discriminate].
    injection Hres as ->. reflexivity.
  - rewrite <- Hmap, length_map. clear.
    unfold published_links, failure_records, unreported_links.
    induction outs as [|[link [[ok|]|e]] outs IH]; cbn [omap list_omap fst snd length];
      [reflexivity|lia..].
Qed.

(** ** The seen set *)

Lemma bind_assoc {A B C} (m : M A) (k : A -> M B) (k' : B -> M C) (st : state) :
  bind (bind m k) k' st = bind m (fun a => bind (k a) k') st.
Proof. unfold bind. destruct (m st) as [[a|e] s]; reflexivity. Qed.

Lemma saved_ids_app (a b : list event) : saved_ids (a ++ b) = saved_ids a ++ saved_ids b.
Proof. apply omap_app. Qed.

Lemma saved_ids_quiet (evs : list event) : forallb is_quiet evs = true -> saved_ids evs = [].
Proof.
  induction evs as [|[] evs IH]; cbn; intros H; try discriminate; auto.
Qed.

Lemma bind_starts {A B} (m : M A) (k : A -> M B) (st s1 st' : state) (x : result A)
    (r : result B) (first : list event) :
  m st = (x, s1) -> events s1 = events st ++ first -> (forall a, quiet (k a)) ->
  bind m k st = (r, st') ->
  exists rest, events st' = events st ++ first ++ rest
               /\ forallb is_quiet rest = true /\ posted_file st' = posted_file s1.
Proof.
  intros Hm Hev Hk H. unfold bind in H. rewrite Hm in H. destruct x as [a|e].
  - apply Hk in H as (Hf & new & Hnew & Hq). exists new.
    rewrite Hnew, Hev, <- app_assoc. auto.
  - injection H as _ <-. exists []. rewrite app_nil_r. auto.
Qed.

Lemma before_submission_starts (L : libs) (W : world) (url : pystr) (st st1 : state)
    (r : result (article * files_arg * pystr)) :
  before_submission L W url st = (r, st1) ->
  exists rest,
    events st1 = events st ++ EvLog INFO (utf8 "Fetching: " ++ url)
                 :: EvGet url (http_get W (ticks st) url) :: rest
    /\ forallb is_quiet rest = true.
Proof.
  unfold before_submission. intros H.
  unfold bind at 1 in H. unfold log, emit in H.
  unfold read_article in H. rewrite !bind_assoc in H.
  eapply (bind_starts _ _ _ _ _ _ _ [EvGet url (http_get W (ticks st) url)]) in H.
  - destruct H as (rest & Hev & Hq & _). exists rest. cbn [events] in Hev.
    rewrite <- app_assoc in Hev. split; [exact Hev|exact Hq].
  - reflexivity.
  - reflexivity.
  - intros resp. pose proof quiet_cover_files. quiet_steps.
Qed.

Lemma push_article_trace (L : libs) (W : world) (url : pystr) (seen : gset pystr) (st : state) :
  md5 L url ∉ seen ->
  let run := push_article L W url seen st in
  exists rest,
    events run.2 = events st ++ EvLog INFO (utf8 "Fetching: " ++ url)
                   :: EvGet url (http_get W (ticks st) url) :: rest
    /\ posted_file run.2 = file_after (posted_file st) (saved_ids rest)
    /\ (forall u, u ∈ saved_ids rest -> u = md5 L url).
Proof.
  intros Hfresh run. subst run. rewrite push_article_fresh by assumption.
  destruct (before_submission L W url st) as [[[[art files] t]|e] st1] eqn:E.
  2:{ pose proof E as E'. apply before_submission_starts in E as (rest & Hev & Hq).
      apply quiet_before_submission in E' as (Hf & _).
      exists rest. cbn [fst snd]. rewrite (saved_ids_quiet _ Hq).
      split; [exact Hev|]. split; [exact Hf|]. intros u Hu. inversion Hu. }
  pose proof E as E'. apply before_submission_starts in E as (rest & Hev & Hq).
  apply quiet_before_submission in E' as (Hf & _).
  rewrite publish_run.
  set (answer := http_post W (ticks st1) (API_URL W) (form_data L W art t) files).
  assert (Hsaved : forall tl, saved_ids (rest ++ tl) = saved_ids tl).
  { intros tl. now rewrite saved_ids_app, (saved_ids_quiet _ Hq). }
  destruct answer as [rsp|e];
    [destruct (status_code rsp =? 409)%Z;
      [|destruct ((400 <=? status_code rsp)%Z && (status_code rsp <? 600)%Z)]|];
    cbn [fst snd after_events events posted_file];
    (eexists; split;
      [rewrite Hev, <- app_assoc; cbn [app]; reflexivity|]);
    rewrite Hsaved, Hf; cbn; (split; [reflexivity|]);
    intros u Hu; repeat (apply elem_of_cons in Hu as [Hu|Hu]; [assumption|]);
    inversion Hu.
Qed.

Lemma file_after_app (file : option pystr) (a b : list pystr) :
  file_after file (a ++ b) = file_after (file_after file a) b.
Proof. apply fold_left_app. Qed.

Lemma process_entry_trace (L : libs) (W : world) (seen : gset pystr) (res : results)
    (url : pystr) (st : state) :
  let run := process_entry L W seen res url st in
  exists new,
    events run.2 = events st ++ new
    /\ posted_file run.2 = file_after (posted_file st) (saved_ids new)
    /\ (forall u, u ∈ saved_ids new -> u = md5 L url /\ u ∉ seen)
    /\ exists res', run.1 = OK res'.
Proof.
  intros run. subst run. rewrite process_entry_run.
  destruct (decide (md5 L url ∈ seen)) as [Hin|Hout].
  - rewrite push_article_skip by assumption. eexists. cbn [fst snd after_events events posted_file].
    split; [reflexivity|]. split; [reflexivity|]. split; [|eauto].
    intros u Hu. inversion Hu.
  - destruct (push_article_trace L W url seen st Hout) as (rest & Hev & Hf & Hu).
    destruct (push_article L W url seen st) as [[[ok|]|e] st1]; cbn [fst snd] in *.
    + eexists. split; [exact Hev|]. split; [exact Hf|]. split; [|eauto].
      intros u H. split; [auto|]. now rewrite (Hu u H).
    + eexists. split; [exact Hev|]. split; [exact Hf|]. split; [|eauto].
      intros u H. split; [auto|]. now rewrite (Hu u H).
    + unfold log, emit. cbn [fst snd events posted_file].
      exists (EvLog INFO (utf8 "Fetching: " ++ url)
              :: EvGet url (http_get W (ticks st) url) :: rest
              ++ [EvLog ERROR (utf8 "Err " ++ url ++ utf8 ": " ++ str_exn L e)]).
      split; [rewrite Hev, <- app_assoc; reflexivity|].
      assert (Hs : forall l, saved_ids (EvLog INFO (utf8 "Fetching: " ++ url)
                      :: EvGet url (http_get W (ticks st) url) :: l) = saved_ids l)
        by reflexivity.
      rewrite Hs, saved_ids_app, app_nil_r. split; [exact Hf|]. split; [|eauto].
      intros u H. split; [auto|]. now rewrite (Hu u H).
Qed.

Lemma process_entries_app (L : libs) (W : world) (seen : gset pystr) (res : results)
    (before after : list pystr) (st : state) :
  process_entries L W seen res (before ++ after) st =
  match process_entries L W seen res before st with
  | (OK res', st') => process_entries L W seen res' after st'
  | (Raise e, st') => (Raise e, st')
  end.
Proof.
  revert res st. induction before as [|link before IH]; intros res st; [reflexivity|].
  cbn [app process_entries]. unfold bind.
  destruct (process_entry L W seen res link st) as [[res1|e] s1]; [apply IH|reflexivity].
Qed.

Lemma process_entries_trace (L : libs) (W : world) (seen : gset pystr) (res : results)
    (entries : list pystr) (st : state) :
  let run := process_entries L W seen res entries st in
  exists new,
    events run.2 = events st ++ new
    /\ posted_file run.2 = file_after (posted_file st) (saved_ids new)
    /\ (forall u, u ∈ saved_ids new ->
          exists url, url ∈ entries /\ u = md5 L url /\ u ∉ seen).
Proof.
  revert res st. induction entries as [|link entries IH]; intros res st run; subst run.
  - exists []. cbn. rewrite app_nil_r. repeat split. intros u Hu. inversion Hu.
  - cbn [process_entries]. unfold bind.
    destruct (process_entry_trace L W seen res link st) as (n1 & He1 & Hf1 & Hu1 & res1 & Hr).
    destruct (process_entry L W seen res link st) as [[r1|e] s1]; cbn [fst snd] in *;
      [|discriminate Hr].
    destruct (IH r1 s1) as (n2 & He2 & Hf2 & Hu2).
    exists (n1 ++ n2). rewrite He2, He1, <- app_assoc. split; [reflexivity|].
    rewrite Hf2, Hf1, saved_ids_app, file_after_app. split; [reflexivity|].
    intros u [Hu|Hu]%elem_of_app.
    + exists link. destruct (Hu1 u Hu). set_solver.
    + destruct (Hu2 u Hu) as (url & ? & ? & ?). exists url. set_solver.
Qed.

(** C4, as amended.  The seen set of a run is the one that was loaded and
    it does not change: an entry whose identifier is in it is skipped
    without a fetch; an entry whose identifier is not in it is fetched,
    whatever the posted file holds by then; identifiers are recorded by
    appending to the posted file only; and all entries of a run are handled
    with the same set. *)
Theorem seen_set_stays_as_loaded (L : libs) (W : world) (seen : gset pystr) :
  (forall res url st,
     md5 L url ∈ seen ->
     process_entry L W seen res url st
     = (OK res,
        after_events st (posted_file st)
          [EvLog INFO (utf8 "Skipping duplicate: " ++ url)] 0))
  /\ (forall res url st,
        md5 L url ∉ seen ->
        exists rest,
          events (process_entry L W seen res url st).2
          = events st ++ EvLog INFO (utf8 "Fetching: " ++ url)
            :: EvGet url (http_get W (ticks st) url) :: rest)
  /\ (forall res entries st,
        let run := process_entries L W seen res entries st in
        exists new,
          events run.2 = events st ++ new
          /\ posted_file run.2 = file_after (posted_file st) (saved_ids new)
          /\ (forall u, u ∈ saved_ids new ->
                exists url, url ∈ entries /\ u = md5 L url /\ u ∉ seen))
  /\ (forall res before after st,
        process_entries L W seen res (before ++ after) st =
        match process_entries L W seen res before st with
        | (OK res', st') => process_entries L W seen res' after st'
        | (Raise e, st') => (Raise e, st')
        end).
Proof.
  split; [|split; [|split]].
  - intros res url st Hin. rewrite process_entry_run, push_article_skip by assumption.
    reflexivity.
  - intros res url st Hout. rewrite process_entry_run.
    destruct (push_article_trace L W url seen st Hout) as (rest & Hev & _).
    destruct (push_article L W url seen st) as [[[ok|]|e] st1]; cbn [fst snd] in *;
      [eauto|eauto|].
    unfold log, emit. cbn [events]. rewrite Hev, <- app_assoc. cbn [app]. eauto.
  - apply process_entries_trace.
  - apply process_entries_app.
Qed.

(** The same link a second time, after it was recorded. *)
Lemma seen_set_stays_as_loaded_witness :
  let L := Sample.libs_for Sample.text_article in
  let W := Sample.site Sample.text_article 200 200 200 200 [] in
  let res := {| success := []; failed := [] |} in
  let first := process_entry L W ∅ res Sample.article_url Sample.fresh in
  (md5 L Sample.article_url ∉ (∅ : gset pystr))
  /\ posted_file first.2 = Some (md5 L Sample.article_url ++ nl)
  /\ exists rest,
       events (process_entry L W ∅ res Sample.article_url first.2).2
       = events first.2 ++ EvLog INFO (utf8 "Fetching: " ++ Sample.article_url)
         :: EvGet Sample.article_url (http_get W (ticks first.2) Sample.article_url) :: rest.
Proof.
  intros L W res first.
  assert (Hfresh : md5 L Sample.article_url ∉ (∅ : gset pystr)) by set_solver.
  split; [exact Hfresh|]. split; [vm_compute; reflexivity|].
  exact (proj1 (proj2 (seen_set_stays_as_loaded L W ∅)) res Sample.article_url first.2 Hfresh).
Defined.

(** C4 as stated fails: a feed with the same link twice has it fetched,
    submitted and recorded twice in one run. *)
Lemma repeated_link_is_fetched_again :
  let L := Sample.libs_for Sample.text_article in
  let W := Sample.site Sample.text_article 200 200 200 200 [Sample.article_url; Sample.article_url] in
  let run := process_rss L W (utf8 "https://site.example/feed") Sample.fresh in
  fetches (events run.2)
    = [(Sample.article_url, OK 200%Z); (Sample.json_url, OK 200%Z);
       (Sample.article_url, OK 200%Z); (Sample.json_url, OK 200%Z)]
  /\ saved_ids (events run.2) = [md5 L Sample.article_url; md5 L Sample.article_url]
  /\ submissions (events run.2) = [([], OK 200%Z); ([], OK 200%Z)]
  /\ run.1 = OK ({| success := [Sample.article_url; Sample.article_url]; failed := [] |},
                 200%Z).
Proof. vm_compute. repeat split; reflexivity. Qed.

(** ** The normaliser and images without source *)

(** *** Paths *)

Lemma get_at_app (e : element) (p q : path) :
  get_at e (p ++ q) = match get_at e p with Some x => get_at x q | None => None end.
Proof.
  revert e. induction p as [|i p IH]; intros e; cbn [app get_at]; [reflexivity|].
  destruct (children e !! i); [apply IH|reflexivity].
Qed.

Lemma child_paths_elem (ds : list (list path)) (k i : nat) (d : list path) (s : path) :
  ds !! i = Some d -> s = [] \/ s ∈ d -> (k + i)%nat :: s ∈ child_paths k ds.
Proof.
  revert k i. induction ds as [|d0 ds IH]; intros k i Hi Hs; [discriminate|].
  cbn [child_paths]. destruct i as [|i]; cbn in Hi.
  - injection Hi as ->. rewrite Nat.add_0_r. apply elem_of_app. left.
    destruct Hs as [->|Hs]; [left|right]. now apply list_elem_of_fmap_2.
  - apply elem_of_app. right. replace (k + S i)%nat with (S k + i)%nat by lia.
    now apply IH.
Qed.

Lemma descendants_elem (q : path) (e : element) :
  q <> [] -> is_Some (get_at e q) -> q ∈ descendants e.
Proof.
  revert e. induction q as [|i s IH]; intros e Hne Hsome; [contradiction|].
  destruct e as [t a x cs tl]. cbn [descendants]. cbn [get_at children] in Hsome.
  destruct (cs !! i) as [c|] eqn:Hc; [|destruct Hsome; discriminate].
  apply (child_paths_elem _ 0 i (descendants c)).
  - rewrite list_lookup_fmap, Hc. reflexivity.
  - destruct s as [|j s]; [left; reflexivity|right]. apply IH; [discriminate|assumption].
Qed.

Lemma xpath_descendants_elem (t : pystr) (e x : element) (q : path) :
  q <> [] -> get_at e q = Some x -> tag x = t -> q ∈ xpath_descendants t e.
Proof.
  intros Hne Hq Ht. unfold xpath_descendants. apply list_elem_of_filter. split.
  - unfold has_tag. rewrite Hq. now apply bool_decide_eq_true.
  - apply descendants_elem; [assumption|]. rewrite Hq. eauto.
Qed.

(** *** Placeholders in the tree *)

Lemma same_node_refl (x : element) : same_node x x.
Proof. repeat split. Qed.

Lemma same_node_trans (z y x : element) : same_node z y -> same_node y x -> same_node z x.
Proof. intros (? & ? & ?) (? & ? & ?). repeat split; congruence. Qed.

Lemma get_at_modify (f : element -> element) (e : element) (P s : path) :
  (forall x, children (f x) = children x) ->
  match get_at e s with
  | None => get_at (modify_at f e P) s = None
  | Some x =>
    if decide (s = P) then get_at (modify_at f e P) s = Some (f x)
    else exists y, get_at (modify_at f e P) s = Some y /\ same_node y x
  end.
Proof.
  intros Hf. revert e s. induction P as [|j P IH]; intros e s; cbn [modify_at].
  - destruct s as [|i s]; cbn [get_at].
    + rewrite decide_True by reflexivity. reflexivity.
    + rewrite Hf. destruct (children e !! i) as [c|]; [|reflexivity].
      destruct (get_at c s) as [x|]; [|reflexivity].
      rewrite decide_False by discriminate. eauto using same_node_refl.
  - destruct (children e !! j) as [c|] eqn:Hj.
    + destruct s as [|i s]; cbn [get_at children].
      * rewrite decide_False by discriminate. eexists. split; [reflexivity|].
        repeat split.
      * destruct (decide (i = j)) as [->|Hij].
        -- rewrite list_lookup_insert_eq by (apply lookup_lt_Some in Hj; assumption).
           rewrite Hj. specialize (IH c s). destruct (get_at c s) as [x|]; [|exact IH].
           destruct (decide (s = P)) as [->|Hs].
           ++ rewrite decide_True in IH by reflexivity.
              rewrite decide_True by reflexivity. exact IH.
           ++ rewrite decide_False in IH by assumption.
              rewrite decide_False by congruence. exact IH.
        -- rewrite list_lookup_insert_ne by congruence.
           destruct (children e !! i) as [c'|]; [|reflexivity].
           destruct (get_at c' s) as [x|]; [|reflexivity].
           rewrite decide_False by congruence. eauto using same_node_refl.
    + destruct (get_at e s) as [x|] eqn:Hs; [|reflexivity].
      destruct (decide (s = j :: P)) as [->|Hne]; [|eauto using same_node_refl].
      cbn [get_at] in Hs. rewrite Hj in Hs. discriminate.
Qed.

Lemma to_placeholder_children (ph : pystr) (x : element) :
  children (to_placeholder ph x) = children x.
Proof. reflexivity. Qed.

Lemma span_not_img : utf8 "span" <> utf8 "img".
Proof. discriminate. Qed.

Lemma span_not_a : utf8 "span" <> utf8 "a".
Proof. discriminate. Qed.

Lemma span_not_p : utf8 "span" <> utf8 "p".
Proof. discriminate. Qed.

Lemma tracks_refl (root : element) : tracks root root.
Proof. intros s. destruct (get_at root s); [left; apply same_node_refl|exact I]. Qed.

Lemma tracks_placeholder (root cur : element) (P : path) (y : element) (ph : pystr) :
  tracks root cur -> get_at cur P = Some y -> get y (utf8 "src") <> None ->
  tracks root (modify_at (to_placeholder ph) cur P).
Proof.
  intros Ht HP Hsrc s. specialize (Ht s).
  pose proof (get_at_modify (to_placeholder ph) cur P s (to_placeholder_children ph)) as Hm.
  destruct (get_at cur s) as [ys|] eqn:Hs.
  - destruct (get_at root s) as [x|]; [|contradiction].
    destruct (decide (s = P)) as [->|Hne].
    + rewrite Hm. right. rewrite HP in Hs. injection Hs as <-.
      destruct Ht as [(_ & Ha & _)|(Hx & _)].
      * unfold get in *. rewrite <- Ha. auto.
      * auto.
    + destruct Hm as (y' & -> & Hsame). destruct Ht as [Ht|(Hx & Htag & Hattr)].
      * left. eapply same_node_trans; eassumption.
      * right. destruct Hsame as (-> & -> & _). auto.
  - rewrite Hm. assumption.
Qed.

Lemma img_at_modify (cur : element) (P s : path) (ph : pystr) :
  img_at (modify_at (to_placeholder ph) cur P) s -> img_at cur s /\ s <> P.
Proof.
  unfold img_at, has_tag.
  pose proof (get_at_modify (to_placeholder ph) cur P s (to_placeholder_children ph)) as Hm.
  destruct (get_at cur s) as [y|]; [|rewrite Hm; discriminate].
  destruct (decide (s = P)) as [->|Hne].
  - rewrite Hm. intros H. apply bool_decide_eq_true in H. cbn in H.
    destruct (span_not_img H).
  - destruct Hm as (y' & -> & (-> & _)). auto.
Qed.

(** *** Images without source *)

Lemma clean_img_html_src (L : libs) (img : element) (ih : pystr) :
  clean_img_html L img = OK ih -> get img (utf8 "src") <> None.
Proof.
  unfold clean_img_html, cleaned_img, xml_roundtrip.
  destruct (forallb xml_blank (tail img)); [|discriminate].
  cbn [rbind]. unfold get. cbn [attrib].
  destruct (assoc (utf8 "src") (attrib img)); [discriminate|]. cbn [set rbind]. discriminate.
Qed.

Lemma clean_img_html_no_src (L : libs) (img : element) :
  get img (utf8 "src") = None -> exists e, clean_img_html L img = Raise e.
Proof.
  intros H. destruct (clean_img_html L img) as [ih|e] eqn:E; [|eauto].
  apply clean_img_html_src in E. contradiction.
Qed.

(** The two loops of the normaliser, seen from the tree they started
    with. *)
Section Loops.

Context (L : libs) (root : element).

Lemma paragraph_images_inv (pp : path) (n : nat) (imgs : list path) :
  forall cur i phs fi cur' phs' fi',
    paragraph_images L cur pp n i imgs phs fi = OK (cur', phs', fi') ->
    tracks root cur ->
    tracks root cur'
    /\ (forall s, img_at cur' s -> img_at cur s /\ forall ip, ip ∈ imgs -> s <> pp ++ ip)
    /\ (py_truthy fi = false -> py_truthy fi' = false).
Proof.
  induction imgs as [|ip imgs IH]; intros cur i phs fi cur' phs' fi' H Ht;
    cbn [paragraph_images] in H.
  - injection H as <- <- <-. repeat split; auto. intros ip Hip. inversion Hip.
  - destruct (get_at cur (pp ++ ip)) as [img|] eqn:Himg.
    + destruct (clean_img_html L img) as [ih|e] eqn:Hclean; cbn [rbind] in H; [|discriminate].
      apply IH in H as (Ht' & Himgs & Hfi).
      * split; [exact Ht'|]. split.
        -- intros s Hs. apply Himgs in Hs as (Hs & Hrest).
           apply img_at_modify in Hs as (Hs & Hne). split; [exact Hs|].
           intros ip' [->|Hip]%elem_of_cons; auto.
        -- intros Hf. apply Hfi. unfold py_or. rewrite Hf. reflexivity.
      * eapply tracks_placeholder; [exact Ht|exact Himg|].
        eapply clean_img_html_src. exact Hclean.
    + apply IH in H as (Ht' & Himgs & Hfi); [|exact Ht].
      split; [exact Ht'|]. split; [|exact Hfi].
      intros s Hs. apply Himgs in Hs as (Hs & Hrest). split; [exact Hs|].
      intros ip' [->|Hip]%elem_of_cons; [|auto].
      intros ->. unfold img_at, has_tag in Hs. rewrite Himg in Hs. discriminate.
Qed.

Lemma tracks_lookup (cur : element) (s : path) (y : element) :
  tracks root cur -> get_at cur s = Some y ->
  exists x, get_at root s = Some x
            /\ (same_node y x
                \/ (get x (utf8 "src") <> None /\ tag y = utf8 "span" /\ attrib y = [])).
Proof.
  intros Ht Hs. specialize (Ht s). rewrite Hs in Ht.
  destruct (get_at root s) as [x|]; [eauto|contradiction].
Qed.

Lemma tracks_lookup_none (cur : element) (s : path) :
  tracks root cur -> get_at cur s = None -> get_at root s = None.
Proof.
  intros Ht Hs. specialize (Ht s). rewrite Hs in Ht.
  destruct (get_at root s); [contradiction|reflexivity].
Qed.

Lemma get_at_child (e c : element) (pp : path) (i : nat) :
  get_at e pp = Some c -> get_at e (pp ++ [i]) = children c !! i.
Proof.
  intros H. rewrite get_at_app, H. cbn [get_at]. destruct (children c !! i); reflexivity.
Qed.

Lemma thumbnail_tracks (cur : element) (pp : path) (p pc : element) :
  tracks root cur -> get_at root pp = Some p -> get_at cur pp = Some pc ->
  is_linked_thumbnail pc = true -> is_linked_thumbnail p = true.
Proof.
  intros Ht Hp Hpc Hthumb. unfold is_linked_thumbnail in *.
  destruct (children pc) as [|ac [|? ?]] eqn:Hcs; try discriminate.
  apply andb_prop in Hthumb as [Hta Hthumb]. apply bool_decide_eq_true in Hta.
  destruct (children ac) as [|cc ?] eqn:Hacs; [discriminate|].
  apply bool_decide_eq_true in Hthumb.
  (* the only child *)
  assert (H0 : get_at cur (pp ++ [0%nat]) = Some ac)
    by (rewrite (get_at_child _ _ _ _ Hpc), Hcs; reflexivity).
  assert (H1 : get_at cur (pp ++ [1%nat]) = None)
    by (rewrite (get_at_child _ _ _ _ Hpc), Hcs; reflexivity).
  assert (H00 : get_at cur ((pp ++ [0%nat]) ++ [0%nat]) = Some cc)
    by (rewrite (get_at_child _ _ _ _ H0), Hacs; reflexivity).
  destruct (tracks_lookup _ _ _ Ht H0) as (ar & Har & Hsa).
  apply (tracks_lookup_none _ _ Ht) in H1.
  destruct (tracks_lookup _ _ _ Ht H00) as (cr & Hcr & Hsc).
  rewrite (get_at_child _ _ _ _ Har) in Hcr.
  rewrite (get_at_child _ _ _ _ Hp) in Har. rewrite (get_at_child _ _ _ _ Hp) in H1.
  destruct (children p) as [|ar' [|? ?]]; try discriminate.
  injection Har as ->.
  destruct Hsa as [(Htag & _)|(_ & Htag & _)];
    [|rewrite Htag in Hta; destruct (span_not_a Hta)].
  rewrite <- Htag, bool_decide_eq_true_2 by assumption. cbn [andb].
  destruct (children ar) as [|cr' ?]; [discriminate|]. injection Hcr as ->.
  destruct Hsc as [(Htag' & _)|(_ & Htag' & _)];
    [|rewrite Htag' in Hthumb; destruct (span_not_img Hthumb)].
  apply bool_decide_eq_true. congruence.
Qed.

Lemma paragraphs_loop_inv (ps : list path) :
  forall cur segs fi cur' segs' fi',
    paragraphs_loop L cur ps segs fi = OK (cur', segs', fi') ->
    tracks root cur ->
    tracks root cur'
    /\ (forall s, img_at cur' s -> img_at cur s)
    /\ (forall pp p r,
          pp ∈ ps -> get_at root pp = Some p -> is_linked_thumbnail p = false ->
          r <> [] -> ~ img_at cur' (pp ++ r))
    /\ (py_truthy fi = false -> py_truthy fi' = false).
Proof.
  induction ps as [|pp ps IH]; intros cur segs fi cur' segs' fi' H Ht;
    cbn [paragraphs_loop] in H.
  - injection H as <- <- <-. repeat split; auto. intros pp p r Hpp. inversion Hpp.
  - destruct (get_at cur pp) as [pc|] eqn:Hpc.
    + destruct (is_linked_thumbnail pc) eqn:Hthumb.
      * apply IH in H as (Ht' & Himg & Hps & Hfi); [|exact Ht].
        repeat split; auto.
        intros pp' p r [->|Hin]%elem_of_cons Hp Hnt Hr; [|eauto].
        rewrite (thumbnail_tracks _ _ _ _ Ht Hp Hpc Hthumb) in Hnt. discriminate.
      * destruct (paragraph_images L cur pp (length segs) 0
                    (xpath_descendants (utf8 "img") pc) [] fi)
          as [[[cur1 phs] fi1]|e] eqn:Himgs; cbn [rbind] in H; [|discriminate].
        apply paragraph_images_inv in Himgs as (Ht1 & Hgone & Hfi1); [|exact Ht].
        apply IH in H as (Ht' & Himg & Hps & Hfi); [|exact Ht1].
        split; [exact Ht'|]. split; [intros s Hs; apply Himg, Hgone in Hs; tauto|].
        split; [|auto].
        intros pp' p r [->|Hin]%elem_of_cons Hp Hnt Hr; [|eauto].
        intros Hs. apply Himg, Hgone in Hs as (Hs & Hnot).
        apply (Hnot r); [|reflexivity].
        unfold img_at, has_tag in Hs. rewrite get_at_app, Hpc in Hs.
        destruct (get_at pc r) as [x|] eqn:Hx; [|discriminate].
        apply bool_decide_eq_true in Hs.
        eapply xpath_descendants_elem; eassumption.
    + apply IH in H as (Ht' & Himg & Hps & Hfi); [|exact Ht].
      repeat split; auto.
      intros pp' p r [->|Hin]%elem_of_cons Hp Hnt Hr; [|eauto].
      apply (tracks_lookup_none _ _ Ht) in Hpc. congruence.
Qed.

End Loops.

Lemma tracks_child (root cur cr cc : element) (i : nat) :
  tracks root cur -> children root !! i = Some cr -> children cur !! i = Some cc ->
  tracks cr cc.
Proof.
  intros Ht Hr Hc s. specialize (Ht (i :: s)). cbn [get_at] in Ht.
  rewrite Hr, Hc in Ht. exact Ht.
Qed.

Lemma has_ancestor_tracks (q : path) :
  forall root cur,
    tracks root cur -> has_ancestor (utf8 "p") cur q = true ->
    has_ancestor (utf8 "p") root q = true.
Proof.
  induction q as [|i q IH]; intros root cur Ht H; cbn [has_ancestor] in *; [discriminate|].
  apply orb_prop in H as [H|H]; apply orb_true_intro.
  - left. apply bool_decide_eq_true in H. apply bool_decide_eq_true.
    pose proof (Ht []) as H0. cbn [get_at] in H0.
    destruct H0 as [(Htag & _)|(_ & Htag & _)]; [congruence|].
    rewrite Htag in H. destruct (span_not_p H).
  - right. destruct (children cur !! i) as [cc|] eqn:Hc; [|discriminate].
    pose proof (Ht [i]) as Hi. cbn [get_at] in Hi. rewrite Hc in Hi.
    destruct (children root !! i) as [cr|] eqn:Hr; [|contradiction].
    eapply IH; [|exact H]. eapply tracks_child; eassumption.
Qed.

Lemma outside_images_raises (L : libs) (cur : element) (q : path) (y : element)
    (imgs : list path) :
  q ∈ imgs -> get_at cur q = Some y -> get y (utf8 "src") = None ->
  forall segs fi, exists e, outside_images L cur imgs segs fi = Raise e.
Proof.
  intros Hin Hq Hsrc. induction imgs as [|q0 imgs IH]; intros segs fi; [inversion Hin|].
  cbn [outside_images]. apply elem_of_cons in Hin as [<-|Hin].
  - rewrite Hq. destruct (clean_img_html_no_src L y Hsrc) as (e & ->). eauto.
  - destruct (get_at cur q0) as [img|]; [|auto].
    destruct (clean_img_html L img) as [ih|e]; cbn [rbind]; eauto.
Qed.

Lemma image_without_source_raises (L : libs) (root : element) (q : path) (img : element) :
  get_at root q = Some img ->
  tag img = utf8 "img" ->
  get img (utf8 "src") = None ->
  cleaned_at root q ->
  exists e, normalize L root = Raise e.
Proof.
  intros Hq Htag Hsrc Hcleaned. unfold normalize.
  destruct (paragraphs_loop L root (xpath_descendants (utf8 "p") root) [] (Some []))
    as [[[cur segs] fi]|e] eqn:Hloop; cbn [rbind]; [|eauto].
  apply (paragraphs_loop_inv L root) in Hloop as (Ht & _ & Hps & _); [|apply tracks_refl].
  (* the image is still an image without source in the tree that is left *)
  pose proof (Ht q) as Hcur. rewrite Hq in Hcur.
  destruct (get_at cur q) as [y|] eqn:Hy; [|contradiction].
  destruct Hcur as [(Hytag & Hyattr & _)|(Hx & _)]; [|contradiction].
  destruct Hcleaned as [(Hne & Hanc)|(q1 & r & p & -> & Hq1 & Hr & Hp & Hptag & Hnt)].
  - eapply outside_images_raises; [|exact Hy|unfold get in *; congruence].
    unfold xpath_imgs_outside_p. apply list_elem_of_filter. split.
    + apply andb_true_intro. split.
      * unfold has_tag. rewrite Hy. apply bool_decide_eq_true. congruence.
      * apply negb_true_iff. destruct (has_ancestor (utf8 "p") cur q) eqn:Hc; [|reflexivity].
        apply (has_ancestor_tracks _ _ _ Ht) in Hc. congruence.
    + apply descendants_elem; [exact Hne|]. rewrite Hy. eauto.
  - exfalso. apply (Hps q1 p r); try assumption.
    + eapply xpath_descendants_elem; eassumption.
    + unfold img_at, has_tag. rewrite Hy. apply bool_decide_eq_true. congruence.
Qed.

(** The paragraph loop never records an image: what it leaves in
    [first_img] is empty or [None]. *)
Lemma paragraphs_never_record_an_image (L : libs) (root : element) (ps : list path)
    (segs segs' : list pystr) (fi' : option pystr) (cur' : element) :
  paragraphs_loop L root ps segs (Some []) = OK (cur', segs', fi') ->
  py_truthy fi' = false.
Proof.
  intros H. apply (paragraphs_loop_inv L root) in H as (_ & _ & _ & Hfi);
    [auto|apply tracks_refl].
Qed.

Lemma read_article_normalized (L : libs) (W : world) (url : pystr) (st st' : state)
    (art : article) :
  read_article L W url st = (OK art, st') ->
  exists raw root res,
    html_fromstring L raw = OK root /\ normalize L root = OK res.
Proof.
  intros H. apply read_article_body in H as (raw & root & segs & fi & ? & ? & _). eauto.
Qed.

(** C10, as amended.  An image without [src] that the normaliser cleans, one
    outside every paragraph or inside a paragraph below the root that is
    not a link around an image, makes [normalize] raise, whatever else the
    body holds; so [read_article] returns an article only when every image
    that is cleaned has a [src].  An image inside a paragraph that is a
    link around an image is not cleaned. *)
Theorem image_without_source_aborts (L : libs) :
  (forall root q img,
      get_at root q = Some img -> tag img = utf8 "img" ->
      get img (utf8 "src") = None -> cleaned_at root q ->
      exists e, normalize L root = Raise e)
  /\ (forall W url st art st',
        read_article L W url st = (OK art, st') ->
        exists raw root,
          html_fromstring L raw = OK root
          /\ forall q img,
               get_at root q = Some img -> tag img = utf8 "img" -> cleaned_at root q ->
               get img (utf8 "src") <> None).
Proof.
  split; [apply image_without_source_raises|].
  intros W url st art st' H.
  apply read_article_normalized in H as (raw & root & res & Hroot & Hnorm).
  exists raw, root. split; [exact Hroot|].
  intros q img Hq Htag Hcleaned Hsrc.
  destruct (image_without_source_raises L root q img Hq Htag Hsrc Hcleaned) as (e & He).
  congruence.
Qed.

(** An image without [src] in a paragraph of text. *)
Lemma image_without_source_aborts_witness :
  let L := Sample.libs_for Sample.sourceless_image_article in
  let img := Sample.elem "img" [("alt", "x")]%string "" [] "" in
  get_at Sample.body_with_sourceless_image [0; 0]%nat = Some img
  /\ get img (utf8 "src") = None
  /\ cleaned_at Sample.body_with_sourceless_image [0; 0]%nat
  /\ exists e, normalize L Sample.body_with_sourceless_image = Raise e.
Proof.
  intros L img.
  assert (Hc : cleaned_at Sample.body_with_sourceless_image [0; 0]%nat).
  { right. exists [0%nat], [0%nat], (Sample.elem "p" [] "Text " [img] "").
    repeat split; discriminate || reflexivity. }
  split; [reflexivity|]. split; [reflexivity|]. split; [exact Hc|].
  exact (proj1 (image_without_source_aborts L) Sample.body_with_sourceless_image
           [0; 0]%nat img eq_refl eq_refl eq_refl Hc).
Defined.

(** C10 as stated fails: the body holds an image without [src], in a
    paragraph that is a link around it; the normaliser returns no block and
    the article is submitted with the placeholder body. *)
Lemma sourceless_thumbnail_does_not_abort :
  let L := Sample.libs_for Sample.linked_thumbnail_article in
  let W := Sample.site Sample.linked_thumbnail_article 200 200 200 200 [] in
  let img := Sample.elem "img" [("alt", "x")]%string "" [] "" in
  let run := push_article L W Sample.article_url ∅ Sample.fresh in
  get_at Sample.body_with_linked_thumbnail [0; 0; 0]%nat = Some img
  /\ get img (utf8 "src") = None
  /\ normalize L Sample.body_with_linked_thumbnail = OK ([], Some [])
  /\ run.1 = OK (Some (utf8 "ok"))
  /\ map (fun df => content df.1) (posted_forms (events run.2))
     = [no_content ++ attribution Sample.article_url (utf8 "Title")].
Proof. vm_compute. repeat split; reflexivity. Qed.

(** * Further properties *)

(** ** The store *)

Lemma load_posted_ids (st : state) : (load_posted st).1 = OK (ids_of_file (posted_file st)).
Proof. unfold load_posted. destruct (posted_file st); reflexivity. Qed.

Lemma splitlines_from_after_newline (a : pystr) :
  forall cur b,
    splitlines_from (a ++ 10 :: b) cur
    = splitlines_from (a ++ [10]) cur ++ splitlines_from b [].
Proof.
  remember (length a) as n eqn:Hn. revert a Hn.
  induction n as [n IH] using lt_wf_ind. intros a Hn cur b.
  destruct a as [|c [|d a]]; cbn [app splitlines_from].
  - change (is_linebreak 10) with true. cbn match.
    destruct b as [|d b]; [reflexivity|].
    change ((10 =? 13) && (d =? 10)) with false. reflexivity.
  - change (is_linebreak 10) with true.
    destruct (is_linebreak c); cbn match.
    + destruct ((c =? 13) && (10 =? 10)); [reflexivity|]. cbn [app]. f_equal.
      destruct b as [|d b]; [reflexivity|].
      change ((10 =? 13) && (d =? 10)) with false. reflexivity.
    + destruct b as [|d b]; [reflexivity|].
      change ((10 =? 13) && (d =? 10)) with false. reflexivity.
  - destruct (is_linebreak c).
    + destruct ((c =? 13) && (d =? 10)); cbn [app]; f_equal.
      * apply (IH (length a)); [cbn in Hn; lia|reflexivity].
      * apply (IH (length (d :: a)) ltac:(cbn in Hn |- *; lia) (d :: a) eq_refl).
    + apply (IH (length (d :: a)) ltac:(cbn in Hn |- *; lia) (d :: a) eq_refl).
Qed.

Lemma linebreak_is_space (c : N) : is_linebreak c = true -> is_space c = true.
Proof.
  unfold is_linebreak, is_space.
  rewrite !orb_true_iff, !andb_true_iff, !N.leb_le, !N.eqb_eq. lia.
Qed.

Lemma token_line (u : pystr) :
  forallb (fun c => negb (is_space c)) u = true ->
  forall cur, splitlines_from (u ++ [10]) cur = [rev cur ++ u].
Proof.
  induction u as [|c u IH]; intros Hu cur; cbn [app splitlines_from].
  - change (is_linebreak 10) with true. cbn match. now rewrite app_nil_r.
  - cbn [forallb] in Hu. apply andb_prop in Hu as [Hc Hu].
    assert (Hlb : is_linebreak c = false).
    { apply negb_true_iff in Hc. destruct (is_linebreak c) eqn:E; [|reflexivity].
      apply linebreak_is_space in E. congruence. }
    rewrite Hlb, IH by assumption. cbn [rev]. now rewrite <- app_assoc.
Qed.

Lemma strip_token (u : pystr) :
  forallb (fun c => negb (is_space c)) u = true -> strip u = u.
Proof.
  intros Hu. unfold strip, lstrip, rstrip.
  assert (Hd : forall v, forallb (fun c => negb (is_space c)) v = true ->
                         drop_while is_space v = v).
  { intros [|c v] Hv; [reflexivity|]. cbn in *. apply andb_prop in Hv as [Hc _].
    apply negb_true_iff in Hc. now rewrite Hc. }
  rewrite (Hd u Hu), Hd, rev_involutive; [reflexivity|].
  rewrite forallb_forall in Hu |- *. intros x Hx. apply Hu. now apply in_rev.
Qed.

Lemma stored_ids_append (txt u : pystr) :
  newline_terminated (Some txt) -> is_token u ->
  stored_ids (txt ++ u ++ nl) = {[u]} ∪ stored_ids txt.
Proof.
  intros Hnl [Hne Hu]. unfold stored_ids, splitlines.
  assert (Hline : map strip (filter (fun l => truthy (strip l) = true)
                               (splitlines_from (u ++ nl) [])) = [u]).
  { unfold nl. rewrite token_line by assumption. cbn [rev app].
    rewrite filter_cons, filter_nil, strip_token by assumption.
    rewrite decide_True by (destruct u; [contradiction|reflexivity]).
    cbn [map]. now rewrite strip_token. }
  destruct Hnl as [->|(a & ->)].
  - cbn [app]. rewrite Hline. cbn. set_solver.
  - unfold nl at 1. rewrite <- app_assoc. cbn [app].
    rewrite splitlines_from_after_newline, filter_app, map_app, list_to_set_app_L, Hline.
    cbn. set_solver.
Qed.

Lemma stored_ids_nil : stored_ids [] = ∅.
Proof. reflexivity. Qed.

Lemma ids_of_file_save (file : option pystr) (u : pystr) :
  newline_terminated file -> is_token u ->
  ids_of_file (Some (default [] file ++ u ++ nl)) = {[u]} ∪ ids_of_file file
  /\ newline_terminated (Some (default [] file ++ u ++ nl)).
Proof.
  intros Hnl Hu. split.
  - destruct file as [txt|]; cbn [default ids_of_file].
    + now apply stored_ids_append.
    + rewrite (stored_ids_append [] u); [now rewrite stored_ids_nil|now left|assumption].
  - right. exists (default [] file ++ u). now rewrite <- app_assoc.
Qed.

(** X1.  The store round trip.  On a posted file that is absent, empty or
    ends with a line feed, after [save_posted uid] for an identifier that is
    not empty and holds no blank character (a hexadecimal digest is one),
    [load_posted] returns the identifiers that the file held before together
    with [uid], and the file ends with a line feed again. *)
Theorem saved_identifier_is_loaded (uid : pystr) (st : state) :
  newline_terminated (posted_file st) ->
  is_token uid ->
  let st' := (save_posted uid st).2 in
  (load_posted st').1 = OK ({[uid]} ∪ ids_of_file (posted_file st))
  /\ newline_terminated (posted_file st').
Proof.
  intros Hnl Hu st'. subst st'. rewrite load_posted_ids. cbn [save_posted snd posted_file].
  destruct (ids_of_file_save _ _ Hnl Hu) as [-> H]. auto.
Qed.

Lemma saved_identifier_is_loaded_witness :
  let st := {| posted_file := Some (utf8 "0cc175b9c0f1b6a831c399e269772661" ++ nl);
               events := []; ticks := O |} in
  let uid := utf8 "92eb5ffee6ae2fec3ad71c777531578f" in
  newline_terminated (posted_file st)
  /\ is_token uid
  /\ (load_posted (save_posted uid st).2).1
     = OK ({[uid]} ∪ ids_of_file (posted_file st)).
Proof.
  intros st uid.
  assert (Hnl : newline_terminated (posted_file st))
    by (right; exists (utf8 "0cc175b9c0f1b6a831c399e269772661"); reflexivity).
  assert (Hu : is_token uid) by (split; [discriminate|reflexivity]).
  split; [exact Hnl|]. split; [exact Hu|].
  exact (proj1 (saved_identifier_is_loaded uid st Hnl Hu)).
Defined.

Lemma ids_of_file_after (ids : list pystr) :
  forall file,
    newline_terminated file -> Forall is_token ids ->
    ids_of_file (file_after file ids) = list_to_set ids ∪ ids_of_file file
    /\ newline_terminated (file_after file ids).
Proof.
  induction ids as [|u ids IH]; intros file Hnl Hids; cbn [file_after fold_left].
  - split; [set_solver|assumption].
  - apply Forall_cons in Hids as [Hu Hids].
    destruct (ids_of_file_save file u Hnl Hu) as [Hsave Hnl'].
    destruct (IH _ Hnl' Hids) as [Hafter Hnl''].
    unfold file_after in Hafter, Hnl''. rewrite Hafter, Hsave.
    split; [set_solver|assumption].
Qed.

Lemma push_article_ok_saves (L : libs) (W : world) (url : pystr) (seen : gset pystr)
    (st : state) (r : option pystr) :
  md5 L url ∉ seen ->
  (push_article L W url seen st).1 = OK r ->
  posted_file (push_article L W url seen st).2
  = Some (default [] (posted_file st) ++ md5 L url ++ nl).
Proof.
  intros Hfresh. rewrite push_article_fresh by assumption.
  destruct (before_submission L W url st) as [[[[art files] t]|e] st1] eqn:E;
    [|discriminate].
  apply quiet_before_submission in E as (Hfile & _).
  rewrite publish_run.
  destruct (http_post W (ticks st1) (API_URL W) (form_data L W art t) files) as [rsp|e];
    [|discriminate].
  destruct (status_code rsp =? 409)%Z;
    [|destruct ((400 <=? status_code rsp)%Z && (status_code rsp <? 600)%Z)];
    cbn [fst snd after_events posted_file]; intros H; try discriminate;
    now rewrite Hfile.
Qed.

(** ** Runs of the feed over the store *)

Lemma push_article_raise_keeps_file (L : libs) (W : world) (url : pystr) (seen : gset pystr)
    (st : state) (e : exn) :
  (push_article L W url seen st).1 = Raise e ->
  posted_file (push_article L W url seen st).2 = posted_file st.
Proof.
  destruct (decide (md5 L url ∈ seen)) as [Hin|Hout].
  - rewrite push_article_skip by assumption. discriminate.
  - rewrite push_article_fresh by assumption.
    destruct (before_submission L W url st) as [[[[art files] t]|e0] st1] eqn:E;
      apply quiet_before_submission in E as (Hfile & _); [|intros _; exact Hfile].
    rewrite publish_run.
    destruct (http_post W (ticks st1) (API_URL W) (form_data L W art t) files) as [rsp|e1];
      [destruct (status_code rsp =? 409)%Z;
        [|destruct ((400 <=? status_code rsp)%Z && (status_code rsp <? 600)%Z)]|];
      cbn [fst snd after_events posted_file]; intros H; try discriminate; exact Hfile.
Qed.

Lemma process_entries_recorded (L : libs) (W : world) (seen : gset pystr)
    (entries : list pystr) :
  forall (res : results) (st : state),
    let run := process_entries L W seen res entries st in
    exists res' saved extra,
      run.1 = OK res'
      /\ posted_file run.2 = file_after (posted_file st) saved
      /\ failed res' = failed res ++ extra
      /\ (forall u, u ∈ saved -> exists url, url ∈ entries /\ u = md5 L url)
      /\ (forall url, url ∈ entries ->
            md5 L url ∈ seen \/ md5 L url ∈ saved \/ url ∈ map fst extra).
Proof.
  induction entries as [|link entries IH]; intros res st run; subst run.
  - exists res, [], []. cbn. rewrite app_nil_r. repeat split; intros ? H; inversion H.
  - cbn [process_entries]. unfold bind. rewrite process_entry_run.
    destruct (decide (md5 L link ∈ seen)) as [Hin|Hout].
    + rewrite push_article_skip by assumption.
      match goal with |- context [process_entries _ _ _ ?r _ ?s] =>
        destruct (IH r s) as (res' & saved & extra & Hr & Hf & Hfail & Hs & Hall) end.
      exists res', saved, extra. cbn [after_events posted_file] in Hf.
      split; [exact Hr|]. split; [exact Hf|]. split; [exact Hfail|].
      split; [intros u Hu; destruct (Hs u Hu) as (url & ? & ?); exists url; set_solver|].
      intros url [->|Hurl]%elem_of_cons; [now left|auto].
    + pose proof (push_article_ok_saves L W link seen st) as Hok.
      pose proof (push_article_raise_keeps_file L W link seen st) as Hraise.
      destruct (push_article L W link seen st) as [[r|e] s1]; cbn [fst snd] in *.
      * specialize (Hok r Hout eq_refl).
        assert (exists res1, (match r with
                   | Some _ => (OK {| success := success res ++ [link]; failed := failed res |}, s1)
                   | None => (OK res, s1) end) = (OK res1, s1) /\ failed res1 = failed res)
          as (res1 & -> & Hres1) by (destruct r; eauto).
        destruct (IH res1 s1) as (res' & saved & extra & Hr & Hf & Hfail & Hs & Hall).
        exists res', (md5 L link :: saved), extra.
        split; [exact Hr|]. split; [rewrite Hf, Hok; reflexivity|].
        split; [now rewrite Hfail, Hres1|].
        split.
        { intros u [->|Hu]%elem_of_cons; [exists link; set_solver|].
          destruct (Hs u Hu) as (url & ? & ?). exists url. set_solver. }
        intros url [->|Hurl]%elem_of_cons; [right; left; set_solver|].
        destruct (Hall url Hurl) as [?|[?|?]]; [now left|right; left; set_solver|now right; right].
      * specialize (Hraise e eq_refl).
        match goal with |- context [process_entries _ _ _ ?r _ ?s] =>
          destruct (IH r s) as (res' & saved & extra & Hr & Hf & Hfail & Hs & Hall) end.
        exists res', saved, ((link, str_exn L e) :: extra).
        split; [exact Hr|]. split; [rewrite Hf; cbn [log emit snd posted_file]; now rewrite Hraise|].
        split; [rewrite Hfail; cbn [failed]; now rewrite <- app_assoc|].
        split; [intros u Hu; destruct (Hs u Hu) as (url & ? & ?); exists url; set_solver|].
        intros url [->|Hurl]%elem_of_cons; [right; right; cbn; set_solver|].
        destruct (Hall url Hurl) as [?|[?|?]]; [now left|now right; left|right; right; cbn; set_solver].
Qed.

Lemma process_entries_all_seen (L : libs) (W : world) (seen : gset pystr)
    (entries : list pystr) :
  forall (res : results) (st : state),
    (forall url, url ∈ entries -> md5 L url ∈ seen) ->
    process_entries L W seen res entries st
    = (OK res, after_events st (posted_file st) (map skip_line entries) 0).
Proof.
  induction entries as [|link entries IH]; intros res st Hall.
  - cbn. unfold after_events. rewrite app_nil_r. now destruct st.
  - cbn [process_entries]. unfold bind. rewrite process_entry_run.
    rewrite push_article_skip by (apply Hall; set_solver).
    rewrite IH by (intros; apply Hall; set_solver).
    unfold after_events. cbn [events posted_file ticks map]. rewrite <- app_assoc. reflexivity.
Qed.

Lemma process_rss_run (L : libs) (W : world) (feed_url : pystr) (st : state) :
  let s3 := {| posted_file := Some (default [] (posted_file st));
               events := events st ++ [EvLog INFO (utf8 "RSS: " ++ feed_url)];
               ticks := S (ticks st) |} in
  process_rss L W feed_url st =
  match process_entries L W (ids_of_file (posted_file st))
          {| success := []; failed := [] |} (feed_entries W (ticks st) feed_url) s3 with
  | (OK res, st') => (OK (res, 200%Z), st')
  | (Raise e, st') => (Raise e, st')
  end.
Proof.
  intros s3. subst s3. unfold process_rss, bind, log, emit, feedparser_parse, tick, load_posted.
  cbn [posted_file events ticks]. rewrite app_nil_r.
  destruct (posted_file st) as [txt|]; cbn [default from_option id ids_of_file];
    reflexivity.
Qed.

Lemma process_rss_recorded (L : libs) (W : world) (feed_url : pystr) (st : state) :
  let entries := feed_entries W (ticks st) feed_url in
  let run := process_rss L W feed_url st in
  exists res saved,
    run.1 = OK (res, 200%Z)
    /\ posted_file run.2 = file_after (Some (default [] (posted_file st))) saved
    /\ (forall u, u ∈ saved -> exists url, url ∈ entries /\ u = md5 L url)
    /\ (forall url, url ∈ entries ->
          md5 L url ∈ ids_of_file (posted_file st) \/ md5 L url ∈ saved
          \/ url ∈ map fst (failed res)).
Proof.
  intros entries run. subst run. rewrite process_rss_run. fold entries.
  match goal with |- context [process_entries ?a ?b ?c ?d ?e ?s] =>
    destruct (process_entries_recorded a b c e d s)
      as (res & saved & extra & Hr & Hf & Hfail & Hs & Hall);
    destruct (process_entries a b c d e s) as [[r|e0] s4] end;
    cbn [fst snd] in *; [|discriminate].
  injection Hr as ->. exists res, saved. cbn [failed app] in Hfail. rewrite Hfail.
  cbn [posted_file] in Hf. auto.
Qed.

Lemma ids_of_file_default (file : option pystr) :
  ids_of_file (Some (default [] file)) = ids_of_file file
  /\ (newline_terminated file -> newline_terminated (Some (default [] file))).
Proof. destruct file; cbn; auto. Qed.

Lemma file_after_some (txt : pystr) (ids : list pystr) :
  exists txt', file_after (Some txt) ids = Some txt'.
Proof.
  revert txt. induction ids as [|u ids IH]; intros txt; cbn; [eauto|apply IH].
Qed.

Lemma handled_entries_recorded_aux (L : libs) (W : world) (feed_url : pystr) (st : state) :
  let entries := feed_entries W (ticks st) feed_url in
  let run := process_rss L W feed_url st in
  newline_terminated (posted_file st) ->
  (forall url, url ∈ entries -> is_token (md5 L url)) ->
  exists res,
    run.1 = OK (res, 200%Z)
    /\ (forall url, url ∈ entries -> url ∉ map fst (failed res) ->
          md5 L url ∈ ids_of_file (posted_file run.2))
    /\ exists txt, posted_file run.2 = Some txt.
Proof.
  intros entries run Hnl Htok.
  destruct (process_rss_recorded L W feed_url st) as (res & saved & Hr & Hf & Hs & Hall).
  fold run entries in Hr, Hf, Hs, Hall.
  destruct (ids_of_file_default (posted_file st)) as [Hids Hnl'].
  destruct (ids_of_file_after saved (Some (default [] (posted_file st)))) as [Hafter Hnl''].
  { auto. }
  { apply Forall_forall. intros u Hu. destruct (Hs u Hu) as (url & Hin & ->). auto. }
  exists res. split; [exact Hr|]. split.
  - intros url Hin Hnot. rewrite Hf, Hafter, Hids.
    destruct (Hall url Hin) as [?|[?|?]]; [set_solver..|contradiction].
  - rewrite Hf. apply file_after_some.
Qed.

(** X2.  What a run leaves in the store.  [process_rss] on such a file, for
    a feed whose identifiers hold no blank character, returns with 200; the
    identifiers that the file holds afterwards are the ones it held before
    and identifiers of entries of the feed, nothing that was recorded is
    lost, every entry that is not in the failure list has its identifier in
    the file, and the file ends with a line feed again. *)
Theorem handled_entries_are_recorded (L : libs) (W : world) (feed_url : pystr) (st : state) :
  let entries := feed_entries W (ticks st) feed_url in
  let run := process_rss L W feed_url st in
  let before := ids_of_file (posted_file st) in
  let reloaded := ids_of_file (posted_file run.2) in
  newline_terminated (posted_file st) ->
  (forall url, url ∈ entries -> is_token (md5 L url)) ->
  exists res,
    run.1 = OK (res, 200%Z)
    /\ before ⊆ reloaded
    /\ (forall url, url ∈ entries -> url ∉ map fst (failed res) -> md5 L url ∈ reloaded)
    /\ (forall u, u ∈ reloaded ->
          u ∈ before \/ exists url, url ∈ entries /\ u = md5 L url)
    /\ newline_terminated (posted_file run.2).
Proof.
  intros entries run before reloaded Hnl Htok. subst reloaded before.
  destruct (process_rss_recorded L W feed_url st) as (res & saved & Hr & Hf & Hs & Hall).
  fold run entries in Hr, Hf, Hs, Hall. rewrite Hf.
  destruct (ids_of_file_default (posted_file st)) as [Hids Hnl'].
  destruct (ids_of_file_after saved (Some (default [] (posted_file st)))) as [-> Hnl''].
  { auto. }
  { apply Forall_forall. intros u Hu. destruct (Hs u Hu) as (url & Hin & ->). auto. }
  rewrite Hids. exists res. split; [exact Hr|]. split; [set_solver|].
  split; [|split; [|exact Hnl'']].
  - intros url Hin Hnot. destruct (Hall url Hin) as [?|[?|?]]; [set_solver..|contradiction].
  - intros u [Hu|Hu]%elem_of_union; [|now left].
    right. apply Hs. now apply elem_of_list_to_set in Hu.
Qed.

(** X3.  Runs are idempotent.  A run of [process_rss] that starts from the
    posted file left by a run without failure, over the same entries,
    fetches nothing, submits nothing and records nothing: it returns two
    empty lists with 200 and adds only the feed line and one skip line per
    entry to the log. *)
Theorem run_after_a_clean_run_only_logs (L : libs) (W1 W2 : world) (feed_url : pystr)
    (st1 st2 : state) :
  let entries := feed_entries W1 (ticks st1) feed_url in
  let run1 := process_rss L W1 feed_url st1 in
  newline_terminated (posted_file st1) ->
  (forall url, url ∈ entries -> is_token (md5 L url)) ->
  (forall res code, run1.1 = OK (res, code) -> failed res = []) ->
  posted_file st2 = posted_file run1.2 ->
  feed_entries W2 (ticks st2) feed_url = entries ->
  process_rss L W2 feed_url st2
  = (OK ({| success := []; failed := [] |}, 200%Z),
     after_events st2 (posted_file st2)
       (EvLog INFO (utf8 "RSS: " ++ feed_url) :: map skip_line entries) 1).
Proof.
  intros entries run1 Hnl Htok Hclean Hfile Hfeed.
  destruct (handled_entries_recorded_aux L W1 feed_url st1 Hnl Htok)
    as (res & Hr & Hin & Hsome).
  fold run1 entries in Hr, Hin, Hsome.
  specialize (Hclean _ _ Hr).
  rewrite process_rss_run, Hfeed.
  destruct Hsome as (txt & Htxt). rewrite Hfile, Htxt. cbn [default from_option id].
  rewrite process_entries_all_seen.
  - unfold after_events. cbn [events posted_file ticks]. rewrite <- app_assoc. reflexivity.
  - intros url Hurl. rewrite <- Htxt. apply Hin; [exact Hurl|]. rewrite Hclean. cbn. set_solver.
Qed.

Lemma sample_feed_tokens :
  let L := Sample.libs_for Sample.text_article in
  forall url, url ∈ [Sample.article_url] -> is_token (md5 L url).
Proof.
  intros L url Hurl. apply list_elem_of_singleton in Hurl as ->.
  split; [discriminate|vm_compute; reflexivity].
Qed.

Lemma handled_entries_are_recorded_witness :
  let L := Sample.libs_for Sample.text_article in
  let W := Sample.site Sample.text_article 200 200 200 200 [Sample.article_url] in
  let feed := utf8 "https://site.example/feed" in
  let run := process_rss L W feed Sample.fresh in
  newline_terminated (posted_file Sample.fresh)
  /\ exists res,
       run.1 = OK (res, 200%Z)
       /\ (forall url, url ∈ [Sample.article_url] -> url ∉ map fst (failed res) ->
             md5 L url ∈ ids_of_file (posted_file run.2)).
Proof.
  intros L W feed run.
  assert (Hnl : newline_terminated (posted_file Sample.fresh)) by (left; reflexivity).
  split; [exact Hnl|].
  destruct (handled_entries_are_recorded L W feed Sample.fresh Hnl sample_feed_tokens)
    as (res & Hr & _ & Hin & _).
  exists res. split; [exact Hr|exact Hin].
Defined.

Lemma run_after_a_clean_run_only_logs_witness :
  let L := Sample.libs_for Sample.text_article in
  let W := Sample.site Sample.text_article 200 200 200 200 [Sample.article_url] in
  let feed := utf8 "https://site.example/feed" in
  let run1 := process_rss L W feed Sample.fresh in
  (forall res code, run1.1 = OK (res, code) -> failed res = [])
  /\ process_rss L W feed run1.2
     = (OK ({| success := []; failed := [] |}, 200%Z),
        after_events run1.2 (posted_file run1.2)
          [EvLog INFO (utf8 "RSS: " ++ feed); skip_line Sample.article_url] 1).
Proof.
  intros L W feed run1.
  assert (Hnl : newline_terminated (posted_file Sample.fresh)) by (left; reflexivity).
  assert (Hclean : forall res code, run1.1 = OK (res, code) -> failed res = []).
  { intros res code H. vm_compute in H. injection H as <- _. reflexivity. }
  split; [exact Hclean|].
  exact (run_after_a_clean_run_only_logs L W W feed Sample.fresh run1.2
           Hnl sample_feed_tokens Hclean eq_refl eq_refl).
Defined.

(** ** The route *)

Lemma root_url_run (L : libs) (W : world) (RSS_URL url : pystr) (st : state) :
  truthy url = true ->
  root L W RSS_URL (Some url) st =
  match push_article L W url (ids_of_file (posted_file st))
          {| posted_file := Some (default [] (posted_file st)); events := events st;
             ticks := ticks st |} with
  | (OK r, st') => (OK (Result (py_or r (Some (utf8 "duplicate"))), 200%Z), st')
  | (Raise e, st') => (Raise e, st')
  end.
Proof.
  intros Hurl. unfold root, bind, load_posted. cbn [py_truthy default from_option id].
  rewrite Hurl. destruct st as [[txt|] evs n]; reflexivity.
Qed.

(** X4.  The route, with a URL.  Once [root] has answered a request for a
    URL without raising, a request for the same URL that is served from the
    posted file it left is answered with the result duplicate and 200 after
    nothing but the skip line in the log: no fetch, no submission, no
    write. *)
Theorem repeated_request_is_answered_duplicate (L : libs) (W W2 : world)
    (RSS_URL url : pystr) (st st2 : state) (answer : reply_body * Z) :
  newline_terminated (posted_file st) ->
  is_token (md5 L url) ->
  truthy url = true ->
  (root L W RSS_URL (Some url) st).1 = OK answer ->
  posted_file st2 = posted_file (root L W RSS_URL (Some url) st).2 ->
  root L W2 RSS_URL (Some url) st2
  = (OK (Result (Some (utf8 "duplicate")), 200%Z),
     after_events st2 (posted_file st2) [skip_line url] 0).
Proof.
  intros Hnl Htok Hurl Hok Hfile.
  rewrite root_url_run in Hok, Hfile by assumption.
  destruct (ids_of_file_default (posted_file st)) as [Hids Hnl'].
  set (s0 := {| posted_file := Some (default [] (posted_file st)); events := events st;
                ticks := ticks st |}) in *.
  assert (Hrec : exists txt, posted_file st2 = Some txt /\ md5 L url ∈ stored_ids txt).
  { destruct (decide (md5 L url ∈ ids_of_file (posted_file st))) as [Hin|Hout].
    - rewrite push_article_skip in Hfile by assumption.
      cbn [snd after_events posted_file s0] in Hfile.
      eexists. split; [exact Hfile|]. now rewrite <- Hids in Hin.
    - pose proof (push_article_ok_saves L W url (ids_of_file (posted_file st)) s0) as Hsave.
      destruct (push_article L W url (ids_of_file (posted_file st)) s0) as [[r|e] s1];
        cbn [fst snd] in *; [|discriminate].
      specialize (Hsave r Hout eq_refl). rewrite Hsave in Hfile.
      eexists. split; [exact Hfile|].
      destruct (ids_of_file_save (posted_file s0) (md5 L url) (Hnl' Hnl) Htok) as [Hs _].
      cbn [ids_of_file] in Hs. rewrite Hs. set_solver. }
  destruct Hrec as (txt & Htxt & Hin).
  rewrite root_url_run by assumption. rewrite Htxt. cbn [ids_of_file default from_option id].
  rewrite push_article_skip by assumption. reflexivity.
Qed.

Lemma repeated_request_is_answered_duplicate_witness :
  let L := Sample.libs_for Sample.text_article in
  let W := Sample.site Sample.text_article 200 200 200 200 [] in
  let feed := utf8 "https://site.example/feed" in
  let first := root L W feed (Some Sample.article_url) Sample.fresh in
  first.1 = OK (Result (Some (utf8 "ok")), 200%Z)
  /\ root L W feed (Some Sample.article_url) first.2
     = (OK (Result (Some (utf8 "duplicate")), 200%Z),
        after_events first.2 (posted_file first.2) [skip_line Sample.article_url] 0).
Proof.
  intros L W feed first.
  assert (Hfirst : first.1 = OK (Result (Some (utf8 "ok")), 200%Z))
    by (vm_compute; reflexivity).
  split; [exact Hfirst|].
  exact (repeated_request_is_answered_duplicate L W W feed Sample.article_url Sample.fresh
           first.2 _ (or_introl eq_refl) (sample_feed_tokens _ (list_elem_of_here _ _))
           eq_refl Hfirst eq_refl).
Defined.

(** X5.  The two modes of the route.  Without [url] parameter, or with an
    empty one, [root] is [process_rss] on [RSS_URL]: it answers with the
    summary and 200 and does not raise.  With a URL, an exception of
    [push_article] is not caught: [root] raises it.  Every answer of [root]
    has status 200, and with a URL its result is ok or duplicate. *)
Theorem root_isolates_failures_in_feed_mode_only (L : libs) (W : world) (RSS_URL : pystr)
    (st : state) :
  (forall url, py_truthy url = false ->
     exists data,
       (root L W RSS_URL url st).1 = OK (Summary data, 200%Z)
       /\ (process_rss L W RSS_URL st).1 = OK (data, 200%Z)
       /\ (root L W RSS_URL url st).2 = (process_rss L W RSS_URL st).2)
  /\ (forall url e,
        truthy url = true ->
        (push_article L W url (ids_of_file (posted_file st)) (load_posted st).2).1 = Raise e ->
        (root L W RSS_URL (Some url) st).1 = Raise e)
  /\ (forall url body code,
        (root L W RSS_URL url st).1 = OK (body, code) ->
        code = 200%Z
        /\ (py_truthy url = true ->
            body = Result (Some (utf8 "ok")) \/ body = Result (Some (utf8 "duplicate")))).
Proof.
  assert (Hfeed : forall url, py_truthy url = false ->
     exists data,
       (root L W RSS_URL url st).1 = OK (Summary data, 200%Z)
       /\ (process_rss L W RSS_URL st).1 = OK (data, 200%Z)
       /\ (root L W RSS_URL url st).2 = (process_rss L W RSS_URL st).2).
  { intros url Hurl. unfold root, bind. rewrite Hurl.
    destruct (process_rss_recorded L W RSS_URL st) as (res & _ & Hr & _).
    destruct (process_rss L W RSS_URL st) as [[[d c]|e] s1]; cbn [fst snd] in *;
      [|discriminate].
    injection Hr as -> ->. eauto. }
  assert (Hload : (load_posted st).2
                  = {| posted_file := Some (default [] (posted_file st)); events := events st;
                       ticks := ticks st |}).
  { unfold load_posted. destruct (posted_file st) as [txt|] eqn:E; cbn; [|reflexivity].
    destruct st; cbn in E; now subst. }
  split; [exact Hfeed|]. split.
  - intros url e Hurl Hraise. rewrite root_url_run by assumption. rewrite Hload in Hraise.
    destruct (push_article L W url _ _) as [[r|e'] s1]; cbn [fst] in *; congruence.
  - intros url body code Hok. destruct (py_truthy url) eqn:Hurl.
    + destruct url as [url|]; [|discriminate]. cbn in Hurl.
      rewrite root_url_run in Hok by assumption.
      destruct (decide (md5 L url ∈ ids_of_file (posted_file st))) as [Hin|Hout].
      * rewrite push_article_skip in Hok by assumption. injection Hok as <- <-. auto.
      * rewrite push_article_fresh in Hok by assumption.
        destruct (before_submission L W url _) as [[[[art files] t]|e0] s1];
          [|discriminate].
        rewrite publish_run in Hok.
        destruct (http_post W (ticks s1) (API_URL W) (form_data L W art t) files) as [rsp|e1];
          [destruct (status_code rsp =? 409)%Z;
            [|destruct ((400 <=? status_code rsp)%Z && (status_code rsp <? 600)%Z)]|];
          cbn [fst] in Hok; try discriminate; injection Hok as <- <-; auto.
    + destruct (Hfeed url Hurl) as (data & Hr & _). rewrite Hr in Hok.
      injection Hok as <- <-. split; [reflexivity|discriminate].
Qed.

Lemma root_isolates_failures_in_feed_mode_only_witness :
  let L := Sample.libs_for Sample.text_article in
  let W := Sample.site Sample.text_article 500 200 200 200 [] in
  let feed := utf8 "https://site.example/feed" in
  (push_article L W Sample.article_url (ids_of_file (posted_file Sample.fresh))
     (load_posted Sample.fresh).2).1 = Raise (HTTPError 500)
  /\ (root L W feed (Some Sample.article_url) Sample.fresh).1 = Raise (HTTPError 500).
Proof.
  intros L W feed.
  assert (H : (push_article L W Sample.article_url (ids_of_file (posted_file Sample.fresh))
                 (load_posted Sample.fresh).2).1 = Raise (HTTPError 500))
    by (vm_compute; reflexivity).
  split; [exact H|].
  exact (proj1 (proj2 (root_isolates_failures_in_feed_mode_only L W feed Sample.fresh))
           Sample.article_url (HTTPError 500) eq_refl H).
Defined.

(** ** Trimming *)

Lemma drop_while_app_stop (f : N -> bool) (l : pystr) (c : N) :
  f c = false -> drop_while f (l ++ [c]) = drop_while f l ++ [c].
Proof.
  intros Hc. induction l as [|d l IH]; cbn; [now rewrite Hc|].
  destruct (f d); [exact IH|reflexivity].
Qed.

Lemma drop_while_suffix (f : N -> bool) (s : pystr) :
  exists pre, s = pre ++ drop_while f s /\ forallb f pre = true.
Proof.
  induction s as [|c s (pre & Hs & Hpre)]; [exists []; auto|].
  cbn. destruct (f c) eqn:Hc; [|exists []; auto].
  exists (c :: pre). cbn. rewrite Hc, Hpre. split; [now f_equal|reflexivity].
Qed.

Lemma drop_while_head (f : N -> bool) (s : pystr) (c : N) (r : pystr) :
  drop_while f s = c :: r -> f c = false.
Proof.
  induction s as [|d s IH]; cbn; [discriminate|].
  destruct (f d) eqn:Hd; [exact IH|]. now intros [= <- _].
Qed.

Lemma drop_while_stopped (f : N -> bool) (s : pystr) :
  match s with [] => True | c :: _ => f c = false end -> drop_while f s = s.
Proof. destruct s as [|c s]; cbn; [reflexivity|]. now intros ->. Qed.

Lemma rstrip_prefix (x : pystr) : exists suf, x = rstrip x ++ suf.
Proof.
  unfold rstrip. destruct (drop_while_suffix is_space (rev x)) as (pre & Hx & _).
  exists (rev pre). rewrite <- rev_app_distr, <- Hx. now rewrite rev_involutive.
Qed.

Lemma strip_idempotent (p : pystr) : strip (strip p) = strip p.
Proof.
  unfold strip at 1. set (y := strip p).
  assert (Hr : rstrip y = y).
  { unfold rstrip. subst y. unfold strip, rstrip. rewrite rev_involutive.
    rewrite drop_while_stopped; [reflexivity|].
    destruct (drop_while is_space (rev (lstrip p))) as [|c r] eqn:E; [exact I|].
    now apply drop_while_head in E. }
  assert (Hl : lstrip y = y).
  { unfold lstrip. apply drop_while_stopped.
    destruct y as [|c r] eqn:E; [exact I|].
    destruct (rstrip_prefix (lstrip p)) as (suf & Hsuf).
    subst y. unfold strip in E. rewrite E in Hsuf. cbn in Hsuf.
    unfold lstrip in Hsuf. now apply drop_while_head in Hsuf. }
  now rewrite Hl, Hr.
Qed.

Lemma strip_sublist (p : pystr) : sublist (strip p) p.
Proof.
  unfold strip. destruct (rstrip_prefix (lstrip p)) as (suf & Hsuf).
  destruct (drop_while_suffix is_space p) as (pre & Hp & _).
  rewrite Hp at 2. fold (lstrip p). rewrite Hsuf at 2.
  apply sublist_inserts_l, sublist_inserts_r. reflexivity.
Qed.

(** ** Keyword pieces *)

Lemma pieces_between_sep_free (s : pystr) :
  forall cur p,
    forallb (fun c => negb (is_sep c)) cur = true ->
    p ∈ pieces_between s cur -> forallb (fun c => negb (is_sep c)) p = true.
Proof.
  induction s as [|c s IH]; intros cur p Hcur; cbn [pieces_between].
  - intros ->%list_elem_of_singleton. rewrite forallb_forall in *.
    intros x Hx. apply Hcur. now apply in_rev.
  - destruct (is_sep c) eqn:Hc.
    + intros [->|Hp]%elem_of_cons; [|now apply (IH [])].
      rewrite forallb_forall in *. intros x Hx. apply Hcur. now apply in_rev.
    + apply IH. cbn. now rewrite Hc.
Qed.

Lemma pieces_between_run (k : pystr) :
  forall rest cur,
    forallb (fun c => negb (is_sep c)) k = true ->
    pieces_between (k ++ rest) cur = pieces_between rest (rev k ++ cur).
Proof.
  induction k as [|c k IH]; intros rest cur Hk; [reflexivity|].
  cbn in Hk. apply andb_prop in Hk as [Hc Hk]. apply negb_true_iff in Hc.
  cbn [app pieces_between rev]. rewrite Hc, IH by assumption. now rewrite <- app_assoc.
Qed.

Lemma pieces_between_join (l : list pystr) :
  l <> [] ->
  Forall (fun k => forallb (fun c => negb (is_sep c)) k = true) l ->
  pieces_between (join (utf8 ",") l) [] = l.
Proof.
  induction l as [|k l IH]; [contradiction|]. intros _ Hall.
  apply Forall_cons in Hall as [Hk Hall].
  destruct l as [|k' l].
  - cbn [join]. rewrite <- (app_nil_r k) at 1. rewrite pieces_between_run by assumption.
    cbn. now rewrite app_nil_r, rev_involutive.
  - change (join (utf8 ",") (k :: k' :: l)) with (k ++ 44 :: join (utf8 ",") (k' :: l)).
    rewrite pieces_between_run by assumption. cbn [pieces_between].
    change (is_sep 44) with true. cbn match.
    rewrite app_nil_r, rev_involutive, IH by (assumption || discriminate). reflexivity.
Qed.

Lemma sublist_forallb (f : N -> bool) (a b : pystr) :
  sublist a b -> forallb f b = true -> forallb f a = true.
Proof.
  rewrite !forallb_forall. intros Hsub Hb x Hx%list_elem_of_In. apply Hb, list_elem_of_In.
  eapply elem_of_sublist; eauto.
Qed.

Lemma split_kw_clean (s : pystr) : Forall clean_piece (split_kw s).
Proof.
  rewrite split_kw_comma_separated. unfold comma_separated.
  apply Forall_forall. intros k [Hk Hin]%list_elem_of_filter.
  apply list_elem_of_In, in_map_iff in Hin as (p & <- & Hp%list_elem_of_In).
  split; [now destruct (strip p)|]. split; [apply strip_idempotent|].
  eapply sublist_forallb; [apply strip_sublist|].
  now apply (pieces_between_sep_free s [] p).
Qed.

Lemma split_kw_join (l : list pystr) :
  Forall clean_piece l -> split_kw (join (utf8 ",") l) = l.
Proof.
  intros Hall. rewrite split_kw_comma_separated. unfold comma_separated.
  destruct l as [|k l]; [reflexivity|].
  rewrite pieces_between_join;
    [|discriminate|eapply Forall_impl; [exact Hall|intros x (_ & _ & H); exact H]].
  induction Hall as [|x l' (Hne & Hstrip & _) _ IH]; [reflexivity|].
  cbn [map]. rewrite Hstrip, filter_cons, decide_True by (now destruct x).
  now rewrite IH.
Qed.

(** X6.  Every keyword that [split_kw] returns is non-empty, has no blank
    at either end and holds none of the three separators; so splitting the
    comma-joined list again gives the same list. *)
Theorem split_kw_pieces_are_clean (s : pystr) :
  (forall k, k ∈ split_kw s ->
     k <> [] /\ strip k = k /\ (forall c, c ∈ k -> is_sep c = false))
  /\ split_kw (join (utf8 ",") (split_kw s)) = split_kw s.
Proof.
  pose proof (split_kw_clean s) as Hclean. split.
  - intros k Hk. rewrite Forall_forall in Hclean.
    destruct (Hclean k Hk) as (Hne & Hstrip & Hsep). repeat split; try assumption.
    intros c Hc%list_elem_of_In. rewrite forallb_forall in Hsep.
    now apply negb_true_iff, Hsep.
  - now apply split_kw_join.
Qed.

Lemma split_kw_pieces_are_clean_witness :
  let s := utf8 "A, B" in
  utf8 "B" ∈ split_kw s
  /\ utf8 "B" <> [] /\ strip (utf8 "B") = utf8 "B"
  /\ (forall c, c ∈ utf8 "B" -> is_sep c = false).
Proof.
  intros s.
  assert (H : utf8 "B" ∈ split_kw s) by (vm_compute; repeat constructor).
  split; [exact H|].
  exact (proj1 (split_kw_pieces_are_clean s) (utf8 "B") H).
Defined.

(** ** The picture *)

Lemma split_last_from_spec (c : N) (s : pystr) :
  forall cur,
    ((c ∉ s) /\ split_last_from c s cur = cur)
    \/ ((c ∉ split_last_from c s cur)
        /\ exists pre, s = pre ++ c :: split_last_from c s cur).
Proof.
  induction s as [|d s IH]; intros cur; cbn [split_last_from].
  - left. split; [set_solver|reflexivity].
  - destruct (d =? c) eqn:Hd.
    + apply N.eqb_eq in Hd as ->. right.
      destruct (IH s) as [[Hno ->]|[Hno (pre & Hpre)]].
      * split; [exact Hno|]. now exists [].
      * split; [exact Hno|]. exists (c :: pre). cbn. now f_equal.
    + apply N.eqb_neq in Hd.
      destruct (IH cur) as [[Hno ->]|[Hno (pre & Hpre)]].
      * left. split; [|reflexivity]. intros [?|?]%elem_of_cons; [congruence|contradiction].
      * right. split; [exact Hno|]. exists (d :: pre). cbn. now f_equal.
Qed.

Lemma split_last_spec (c : N) (s : pystr) :
  (c ∉ split_last c s) /\ exists pre, s = pre ++ split_last c s.
Proof.
  unfold split_last. destruct (split_last_from_spec c s s) as [[Hno ->]|[Hno (pre & Hpre)]].
  - split; [exact Hno|]. now exists [].
  - split; [exact Hno|]. exists (pre ++ [c]). now rewrite <- app_assoc.
Qed.

(** X7.  [fetch_pic] does not raise, makes exactly one request and leaves
    the posted file alone.  It returns [None] when the request raised or was
    answered with a status from 400 to 599; otherwise it returns the body of
    the answer and its content type under a name made of [image.] and what
    follows the last slash of the content type, which holds no slash and is
    [jpeg] when the answer has no content type. *)
Theorem fetch_pic_never_raises (L : libs) (W : world) (url : pystr) (st : state) :
  let answer := http_get W (ticks st) url in
  let run := fetch_pic L W url st in
  posted_file run.2 = posted_file st
  /\ ticks run.2 = S (ticks st)
  /\ fetches (drop (length (events st)) (events run.2)) = [(url, answer_status answer)]
  /\ match fetch_failure answer with
     | Some e => run.1 = OK None
     | None =>
       exists r ext,
         answer = OK r
         /\ run.1 = OK (Some (utf8 "image." ++ ext, resp_content r, content_type r))
         /\ (47 ∉ ext)
         /\ (exists pre, default (utf8 "image/jpeg") (content_type r) = pre ++ ext)
         /\ (content_type r = None -> ext = utf8 "jpeg")
     end.
Proof.
  intros answer run. subst run.
  destruct (fetch_failure answer) as [e|] eqn:Hfail.
  - rewrite (fetch_pic_failure L W url st e Hfail).
    cbn [fst snd after_events posted_file ticks events Nat.add].
    rewrite drop_app_length. auto.
  - unfold fetch_failure in Hfail. unfold fetch_pic, try_except, bind, requests_get, tick.
    fold answer. destruct answer as [r|e] eqn:Hans; [|discriminate].
    unfold raise_for_status.
    destruct ((400 <=? status_code r)%Z && (status_code r <? 600)%Z); [discriminate|].
    cbn [fst snd ret posted_file ticks events]. rewrite drop_app_length.
    split; [reflexivity|]. split; [reflexivity|]. split; [reflexivity|].
    exists r, (split_last 47 (default (utf8 "image/jpeg") (content_type r))).
    destruct (split_last_spec 47 (default (utf8 "image/jpeg") (content_type r))) as [Hno Hpre].
    repeat split; try assumption. intros ->. reflexivity.
Qed.

Lemma fetch_pic_never_raises_witness :
  let L := Sample.libs_for Sample.covered_article in
  let W := Sample.site Sample.covered_article 200 200 200 200 [] in
  exists r ext,
    http_get W 0 Sample.image_url = OK r
    /\ (fetch_pic L W Sample.image_url Sample.fresh).1
       = OK (Some (utf8 "image." ++ ext, resp_content r, content_type r))
    /\ (47 ∉ ext).
Proof.
  intros L W.
  destruct (proj2 (proj2 (proj2 (fetch_pic_never_raises L W Sample.image_url Sample.fresh))))
    as (r & ext & Hr & Hrun & Hno & _).
  exists r, ext. auto.
Defined.

(** ** The fields of the article *)

Lemma split_head_no_sep (c : N) (s : pystr) : c ∉ split_head c s.
Proof.
  induction s as [|d s IH]; cbn; [set_solver|].
  destruct (d =? c) eqn:Hd; [set_solver|].
  apply N.eqb_neq in Hd. intros [?|?]%elem_of_cons; [congruence|contradiction].
Qed.

Lemma split_head_sublist (c : N) (s : pystr) : sublist (split_head c s) s.
Proof.
  induction s as [|d s IH]; cbn; [constructor|].
  destruct (d =? c); [apply sublist_nil_l|now constructor].
Qed.

Lemma replace_char_gone (c d : N) (s : pystr) : c <> d -> c ∉ replace_char c d s.
Proof.
  intros Hcd. unfold replace_char. induction s as [|x s IH]; cbn [map]; [set_solver|].
  intros [Heq|Hin]%elem_of_cons; [|exact (IH Hin)].
  destruct (x =? c) eqn:Hx; [congruence|]. apply N.eqb_neq in Hx. congruence.
Qed.

(** X8.  The fields of an article that [read_article] returns.  The page
    was fetched at the URL and parsed; the title is the stripped text of the
    title query and has no blank at either end; the keywords are those of
    the page; the creation time is the published time with every T turned
    into a space and cut at the first plus sign, so it holds neither, and
    it is the clock read after the first fetch when the page gives none; the
    cover is the Open Graph image when there is one, and otherwise a
    non-empty cover is the first image that the normaliser recorded. *)
Theorem article_fields_come_from_the_page (L : libs) (W : world) (url : pystr)
    (st st' : state) (art : article) :
  read_article L W url st = (OK art, st') ->
  exists resp doc,
    http_get W (ticks st) url = OK resp
    /\ parse_page L (resp_text resp) url = OK doc
    /\ art_title art = strip (concat_str (title_text doc))
    /\ strip (art_title art) = art_title art
    /\ art_keywords art = keywords_of (meta_keywords doc) (tag_links doc)
    /\ (let created := concat_str (published_time doc) in
        if truthy created
        then art_created art = split_head 43 (replace_char 84 32 created)
             /\ (84 ∉ art_created art) /\ (43 ∉ art_created art)
        else art_created art = clock W (S (ticks st)))
    /\ (let cover := concat_str (og_image doc) in
        if truthy cover then art_cover art = Some cover
        else forall src, art_cover art = Some src -> src <> [] ->
             exists raw root segs,
               html_fromstring L raw = OK root
               /\ normalize L root = OK (segs, Some src)).
Proof.
  unfold read_article. intros H.
  apply bind_ok in H as (resp & s1 & Hget & H).
  apply bind_ok in H as (? & s2 & Hst & H).
  apply bind_ok in H as (doc & s3 & [Hdoc ->]%lift_ok & H).
  apply bind_ok in H as (created & s4 & Hcreated & H).
  apply bind_ok in H as (rj & s5 & _ & H).
  apply bind_ok in H as (raw & s6 & _ & H).
  apply bind_ok in H as (root & s7 & [Hroot _]%lift_ok & H).
  apply bind_ok in H as ([segs fi] & s8 & [Hnorm _]%lift_ok & H).
  unfold requests_get, tick in Hget. injection Hget as Hget <-.
  assert (Hs2 : ticks s2 = S (ticks st)).
  { unfold raise_for_status in Hst.
    destruct ((400 <=? status_code resp)%Z && (status_code resp <? 600)%Z);
      [discriminate|]. unfold ret in Hst. inversion Hst. reflexivity. }
  inversion H; subst. cbn [art_title art_created art_keywords art_cover].
  exists resp, doc. split; [assumption|]. split; [assumption|]. split; [reflexivity|].
  split; [apply strip_idempotent|]. split; [reflexivity|]. split.
  - cbv zeta. destruct (truthy (concat_str (published_time doc))).
    + injection Hcreated as <- _. split; [reflexivity|]. split.
      * intros Hin. eapply elem_of_sublist in Hin; [|apply split_head_sublist].
        revert Hin. now apply replace_char_gone.
      * apply split_head_no_sep.
    + unfold now, tick in Hcreated. injection Hcreated as <- _. now rewrite Hs2.
  - cbv zeta. unfold py_or. cbn [py_truthy].
    destruct (truthy (concat_str (og_image doc))); [reflexivity|].
    intros src Hfi Hsrc. exists raw, root, segs. split; [assumption|]. now rewrite <- Hfi.
Qed.

Lemma article_fields_come_from_the_page_witness :
  let L := Sample.libs_for Sample.text_article in
  let W := Sample.site Sample.text_article 200 200 200 200 [] in
  exists art st',
    read_article L W Sample.article_url Sample.fresh = (OK art, st')
    /\ strip (art_title art) = art_title art
    /\ art_keywords art = utf8 "DecoTV,A,B,C".
Proof.
  intros L W.
  destruct (read_article L W Sample.article_url Sample.fresh) as [[art|e] st'] eqn:E;
    [|vm_compute in E; discriminate E].
  exists art, st'. split; [reflexivity|].
  destruct (article_fields_come_from_the_page L W _ _ _ _ E)
    as (resp & doc & Hget & Hdoc & _ & Hstrip & Hkw & _).
  split; [exact Hstrip|]. rewrite Hkw.
  vm_compute in Hget. injection Hget as <-.
  vm_compute in Hdoc. injection Hdoc as <-. vm_compute. reflexivity.
Defined.

(** ** Attribute stripping *)

Lemma rx_strip_from_sublist (s : pystr) : forall skip, sublist (rx_strip_from s skip) s.
Proof.
  induction s as [|c s IH]; intros skip; cbn [rx_strip_from]; [constructor|].
  destruct skip as [|k]; [|apply sublist_cons, IH].
  destruct (rx_strip_match (c :: s)); [apply sublist_cons, IH|apply sublist_skip, IH].
Qed.

Lemma elem_of_drop_inv (n : nat) (s : pystr) (c : N) : c ∈ drop n s -> c ∈ s.
Proof. intros H. rewrite <- (take_drop n s). apply elem_of_app. now right. Qed.

Lemma match_eq_quote {A} (l : pystr) (f : pystr -> option A) (x : A) :
  match l with 61 :: 34 :: s3 => f s3 | _ => None end = Some x ->
  exists s3, l = 61 :: 34 :: s3 /\ f s3 = Some x.
Proof.
  intros H. destruct l as [|a [|b s3]].
  - discriminate H.
  - destruct a as [|pa]; [discriminate H|].
    do 6 (destruct pa as [pa|pa|]; try discriminate H).
  - destruct a as [|pa]; [discriminate H|].
    do 6 (destruct pa as [pa|pa|]; try discriminate H).
    destruct b as [|pb]; [discriminate H|].
    do 6 (destruct pb as [pb|pb|]; try discriminate H).
    eauto.
Qed.

Lemma match_quote {A} (l : pystr) (y x : A) :
  match l with 34 :: _ => Some y | _ => None end = Some x ->
  y = x /\ exists r, l = 34 :: r.
Proof.
  intros H. destruct l as [|b r]; [discriminate H|].
  destruct b as [|pb]; [discriminate H|].
  do 6 (destruct pb as [pb|pb|]; try discriminate H).
  injection H as ->. eauto.
Qed.

Lemma span_len_positive (f : N -> bool) (s : pystr) (k : nat) :
  span_len f s = S k -> exists c r, s = c :: r /\ f c = true.
Proof.
  destruct s as [|c r]; cbn; [discriminate|]. destruct (f c) eqn:Hc; [eauto|discriminate].
Qed.

Lemma rx_strip_match_needs (s : pystr) (n : nat) :
  rx_strip_match s = Some n ->
  (exists c r, s = c :: r /\ is_space c = true) /\ 34 ∈ s.
Proof.
  unfold rx_strip_match.
  destruct (span_len is_space s) as [|k] eqn:Hsp; [discriminate|].
  destruct (attr_name_len (drop (S k) s)) as [n2|]; [|discriminate].
  intros (s3 & Hd & _)%match_eq_quote. split; [eapply span_len_positive; eassumption|].
  apply (elem_of_drop_inv (S k + n2)). rewrite Hd. set_solver.
Qed.

Lemma rx_strip_from_unmatched (s : pystr) :
  (forall c, c ∈ s -> c <> 34) \/ (forall c, c ∈ s -> is_space c = false) ->
  rx_strip_from s O = s.
Proof.
  induction s as [|c s IH]; intros H; cbn [rx_strip_from]; [reflexivity|].
  destruct (rx_strip_match (c :: s)) as [n|] eqn:Hm.
  - exfalso. apply rx_strip_match_needs in Hm as [(c' & r & [= <- <-] & Hsp) Hq].
    destruct H as [H|H]; [now apply (H 34)|].
    rewrite H in Hsp by set_solver. discriminate.
  - f_equal. apply IH. destruct H as [H|H]; [left|right]; intros; apply H; set_solver.
Qed.

(** X9.  [strip_unwanted_attrs] only deletes: its result is a subsequence
    of its argument, and a string without double quote, or without blank
    character, is returned as it is. *)
Theorem strip_unwanted_attrs_only_deletes (s : pystr) :
  sublist (strip_unwanted_attrs s) s
  /\ ((forall c, c ∈ s -> c <> 34) -> strip_unwanted_attrs s = s)
  /\ ((forall c, c ∈ s -> is_space c = false) -> strip_unwanted_attrs s = s).
Proof.
  unfold strip_unwanted_attrs. split; [apply rx_strip_from_sublist|].
  split; intros H; apply rx_strip_from_unmatched; auto.
Qed.

Lemma strip_unwanted_attrs_only_deletes_witness :
  let s := utf8 "<p>a b</p>" in
  (forall c, c ∈ s -> c <> 34) /\ strip_unwanted_attrs s = s.
Proof.
  intros s.
  assert (H : forall c, c ∈ s -> c <> 34).
  { intros c Hc%list_elem_of_In ->. vm_compute in Hc. intuition discriminate. }
  split; [exact H|].
  exact (proj1 (proj2 (strip_unwanted_attrs_only_deletes s)) H).
Defined.

Lemma span_len_app (f : N -> bool) (ws x : pystr) :
  forallb f ws = true -> span_len f (ws ++ x) = (length ws + span_len f x)%nat.
Proof.
  induction ws as [|c ws IH]; cbn; [reflexivity|].
  intros [-> H]%andb_prop. now rewrite IH.
Qed.

Lemma span_len_until (f : N -> bool) (t : pystr) (c : N) (x : pystr) :
  forallb f t = true -> f c = false -> span_len f (t ++ c :: x) = length t.
Proof.
  intros Ht Hc. rewrite span_len_app by assumption. cbn. rewrite Hc. lia.
Qed.

Lemma rx_strip_from_skip (m b : pystr) : rx_strip_from (m ++ b) (length m) = rx_strip_from b O.
Proof. induction m as [|c m IH]; [reflexivity|exact IH]. Qed.

Lemma rx_strip_from_passes (a x : pystr) :
  forallb (fun c => negb (is_space c)) a = true ->
  rx_strip_from (a ++ x) O = a ++ rx_strip_from x O.
Proof.
  induction a as [|c a IH]; [reflexivity|]. cbn [forallb app rx_strip_from].
  intros [Hc Ha]%andb_prop. apply negb_true_iff in Hc.
  unfold rx_strip_match. cbn [span_len]. rewrite Hc. now rewrite IH.
Qed.

Lemma attr_name_len_listed (n rest : pystr) :
  listed_name n ->
  attr_name_len (n ++ 61 :: rest) = Some (length n)
  /\ exists c r, n = c :: r /\ is_space c = false.
Proof.
  intros [Hn|(t & Hne & Ht & ->)].
  - unfold stripped_names in Hn. cbn [map] in Hn.
    repeat (apply elem_of_cons in Hn as [->|Hn]);
      [split; [vm_compute; reflexivity|eexists _, _; split; [vm_compute; reflexivity|reflexivity]]..|].
    inversion Hn.
  - split; [|eexists _, _; split; [vm_compute; reflexivity|reflexivity]].
    unfold attr_name_len.
    change (utf8 "data-" ++ t) with (100 :: 97 :: 116 :: 97 :: 45 :: t).
    assert (Hf : filter (fun n => starts_with_ci n ((100 :: 97 :: 116 :: 97 :: 45 :: t)
                                   ++ 61 :: rest) = true) stripped_names = [])
      by (vm_compute; reflexivity).
    rewrite Hf.
    change (starts_with_ci (utf8 "data-") ((100 :: 97 :: 116 :: 97 :: 45 :: t) ++ 61 :: rest))
      with true.
    cbv iota. change (drop 5 ((100 :: 97 :: 116 :: 97 :: 45 :: t) ++ 61 :: rest))
      with (t ++ 61 :: rest).
    rewrite span_len_until by (assumption || reflexivity).
    destruct t as [|c t]; [contradiction|]. reflexivity.
Qed.

Lemma rx_strip_match_attribute (ws n v b : pystr) :
  ws <> [] -> forallb is_space ws = true ->
  listed_name n ->
  forallb (fun c => negb (c =? 34)) v = true ->
  rx_strip_match (ws ++ n ++ 61 :: 34 :: v ++ 34 :: b)
  = Some (length (ws ++ n ++ 61 :: 34 :: v ++ [34])).
Proof.
  intros Hne Hws Hn Hv.
  destruct (attr_name_len_listed n (34 :: v ++ 34 :: b) Hn) as [Hlen (c & r & Hc & Hsp)].
  unfold rx_strip_match.
  rewrite span_len_app by assumption. rewrite Hc at 1. cbn [app span_len]. rewrite Hsp.
  rewrite Nat.add_0_r. remember (length ws) as n1 eqn:Hn1.
  destruct n1 as [|k]; [destruct ws; [contradiction|discriminate]|].
  rewrite Hn1, drop_app_length, Hlen.
  rewrite <- drop_drop, drop_app_length, drop_app_length.
  cbv iota.
  rewrite span_len_until by (assumption || reflexivity).
  rewrite drop_app_length. cbv iota. f_equal.
  rewrite !length_app. cbn [length]. rewrite length_app. cbn [length]. lia.
Qed.

(** X10.  An attribute with a listed name and a double-quoted value is
    removed together with the blanks in front of it, when no blank occurs
    before them.  After [data-] the name is any non-empty run without equals
    sign, whatever else it holds. *)
Theorem listed_attribute_is_removed (a ws n v b : pystr) :
  forallb (fun c => negb (is_space c)) a = true ->
  ws <> [] -> forallb is_space ws = true ->
  listed_name n ->
  forallb (fun c => negb (c =? 34)) v = true ->
  strip_unwanted_attrs (a ++ ws ++ n ++ utf8 "=" ++ dq ++ v ++ dq ++ b)
  = a ++ strip_unwanted_attrs b.
Proof.
  intros Ha Hne Hws Hn Hv. unfold strip_unwanted_attrs.
  rewrite rx_strip_from_passes by assumption. f_equal.
  change (ws ++ n ++ utf8 "=" ++ dq ++ v ++ dq ++ b)
    with (ws ++ n ++ 61 :: 34 :: v ++ 34 :: b).
  pose proof (rx_strip_match_attribute ws n v b Hne Hws Hn Hv) as Hm.
  replace (ws ++ n ++ 61 :: 34 :: v ++ 34 :: b)
    with ((ws ++ n ++ 61 :: 34 :: v ++ [34]) ++ b) in *
    by (rewrite <- !app_assoc; cbn; rewrite <- app_assoc; reflexivity).
  set (m := ws ++ n ++ 61 :: 34 :: v ++ [34]) in *.
  destruct m as [|c m'] eqn:Em; [destruct ws; [contradiction|discriminate Em]|].
  cbn [app rx_strip_from]. cbn [app] in Hm. rewrite Hm. cbn [length Nat.pred].
  apply rx_strip_from_skip.
Qed.

Lemma listed_attribute_is_removed_witness :
  let a := utf8 "<p" in
  let ws := utf8 " " in
  let n := utf8 "data-id" in
  let v := utf8 "7" in
  let b := utf8 ">x</p>" in
  forallb (fun c => negb (is_space c)) a = true
  /\ ws <> [] /\ forallb is_space ws = true
  /\ listed_name n
  /\ forallb (fun c => negb (c =? 34)) v = true
  /\ strip_unwanted_attrs (a ++ ws ++ n ++ utf8 "=" ++ dq ++ v ++ dq ++ b)
     = a ++ strip_unwanted_attrs b.
Proof.
  intros a ws n v b.
  assert (Hws : ws <> []) by discriminate.
  assert (Hn : listed_name n).
  { right. exists (utf8 "id"). split; [discriminate|]. split; reflexivity. }
  split; [reflexivity|]. split; [exact Hws|]. split; [reflexivity|].
  split; [exact Hn|]. split; [reflexivity|].
  exact (listed_attribute_is_removed a ws n v b eq_refl Hws eq_refl Hn eq_refl).
Defined.

(** ** The style of a paragraph *)

Lemma replace_first_char_at (c : N) (new pre post : pystr) :
  c ∉ pre -> replace_first_char c new (pre ++ c :: post) = pre ++ new ++ post.
Proof.
  induction pre as [|d pre IH]; intros Hno; cbn [app replace_first_char].
  - now rewrite N.eqb_refl.
  - destruct (d =? c) eqn:Hd; [apply N.eqb_eq in Hd; set_solver|].
    f_equal. apply IH. set_solver.
Qed.

Lemma replace_first_char_absent (c : N) (new s : pystr) :
  c ∉ s -> replace_first_char c new s = s.
Proof.
  induction s as [|d s IH]; intros Hno; cbn [replace_first_char]; [reflexivity|].
  destruct (d =? c) eqn:Hd; [apply N.eqb_eq in Hd; set_solver|].
  f_equal. apply IH. set_solver.
Qed.

Lemma starts_with_app (p x : pystr) : starts_with p (p ++ x) = true.
Proof. induction p as [|c p IH]; [reflexivity|]. cbn. now rewrite N.eqb_refl. Qed.

(** No suffix of a string in front of the quoted style begins a match that
    runs into it: the pattern has no period. *)
Lemma quoted_style_no_overlap (x rest : pystr) :
  x <> [] -> starts_with quoted_style x = false ->
  starts_with quoted_style (x ++ quoted_style ++ rest) = false.
Proof.
  change quoted_style with [115; 116; 121; 108; 101; 61; 34].
  intros Hne H.
  destruct x as [|x0 [|x1 [|x2 [|x3 [|x4 [|x5 [|x6 x]]]]]]]; [contradiction|..];
    cbn [app starts_with] in *;
    repeat match goal with
           | |- context [?a =? ?b] =>
             lazymatch a with
             | N.pos _ =>
               lazymatch b with
               | N.pos _ => fail
               | _ => destruct (a =? b) eqn:?; cbn [andb]; try reflexivity
               end
             end
           end;
    try reflexivity; try discriminate.
Qed.

Lemma merge_style_cons (extra : pystr) (c : N) (s' : pystr) :
  merge_style extra (c :: s')
  = let s := c :: s' in
    let after := drop 7 s in
    let n := span_len (fun c => negb (c =? 34)) after in
    if starts_with quoted_style s && starts_with dq (drop n after)
    then quoted_style ++ rstrip_char 59 (take n after) ++ utf8 "; " ++ extra ++ dq
         ++ drop (S n) after
    else c :: merge_style extra s'.
Proof. reflexivity. Qed.

Lemma merge_style_here (extra v post : pystr) :
  forallb (fun c => negb (c =? 34)) v = true ->
  merge_style extra (quoted_style ++ v ++ 34 :: post)
  = quoted_style ++ rstrip_char 59 v ++ utf8 "; " ++ extra ++ dq ++ post.
Proof.
  intros Hv.
  change (quoted_style ++ v ++ 34 :: post)
    with (115 :: (116 :: 121 :: 108 :: 101 :: 61 :: 34 :: v ++ 34 :: post)) at 1.
  rewrite merge_style_cons. cbv zeta.
  change (115 :: 116 :: 121 :: 108 :: 101 :: 61 :: 34 :: v ++ 34 :: post)
    with (quoted_style ++ v ++ 34 :: post).
  rewrite starts_with_app.
  change (drop 7 (quoted_style ++ v ++ 34 :: post)) with (v ++ 34 :: post).
  rewrite span_len_until by (assumption || reflexivity).
  rewrite drop_app_length, take_app_length.
  change (starts_with dq (34 :: post)) with true. cbn [andb].
  replace (drop (S (length v)) (v ++ 34 :: post)) with post; [reflexivity|].
  change (S (length v)) with (1 + length v)%nat.
  rewrite Nat.add_comm, <- drop_drop, drop_app_length. reflexivity.
Qed.

Lemma merge_style_first (extra pre v post : pystr) :
  contains quoted_style pre = false ->
  forallb (fun c => negb (c =? 34)) v = true ->
  merge_style extra (pre ++ quoted_style ++ v ++ dq ++ post)
  = pre ++ quoted_style ++ rstrip_char 59 v ++ utf8 "; " ++ extra ++ dq ++ post.
Proof.
  intros Hpre Hv. induction pre as [|c pre IH].
  - now apply merge_style_here.
  - cbn [contains] in Hpre. apply orb_false_elim in Hpre as [Hc Hpre].
    cbn [app]. rewrite merge_style_cons. cbv zeta.
    change (c :: pre ++ quoted_style ++ v ++ dq ++ post)
      with ((c :: pre) ++ quoted_style ++ v ++ dq ++ post).
    rewrite quoted_style_no_overlap by (discriminate || assumption).
    cbn [andb app]. f_equal. now apply IH.
Qed.

Lemma merge_style_absent (extra s : pystr) :
  contains quoted_style s = false -> merge_style extra s = s.
Proof.
  induction s as [|c s IH]; [reflexivity|]. intros H.
  cbn [contains] in H. apply orb_false_elim in H as [Hc Hs].
  rewrite merge_style_cons. cbv zeta. rewrite Hc. cbn [andb]. f_equal. now apply IH.
Qed.

(** X11.  The four cases of [add_or_merge_style].  Without the text
    [ style=] in the tag, the style attribute is put in front of the first
    closing angle bracket, and a tag without such a bracket is returned as
    it is.  With that text, the declaration is appended to the value of the
    first double-quoted style attribute of the string, after its trailing
    semicolons were dropped, wherever that attribute stands; and a string
    without double-quoted style attribute is returned as it is. *)
Theorem add_or_merge_style_cases (tag extra : pystr) :
  (contains (utf8 " style=") tag = false ->
     (forall pre post,
        tag = pre ++ utf8 ">" ++ post -> 62 ∉ pre ->
        add_or_merge_style tag extra
        = pre ++ utf8 " style=" ++ dq ++ extra ++ dq ++ utf8 ">" ++ post)
     /\ (62 ∉ tag -> add_or_merge_style tag extra = tag))
  /\ (contains (utf8 " style=") tag = true ->
        (forall pre v post,
           tag = pre ++ quoted_style ++ v ++ dq ++ post ->
           contains quoted_style pre = false ->
           forallb (fun c => negb (c =? 34)) v = true ->
           add_or_merge_style tag extra
           = pre ++ quoted_style ++ rstrip_char 59 v ++ utf8 "; " ++ extra ++ dq ++ post)
        /\ (contains quoted_style tag = false -> add_or_merge_style tag extra = tag)).
Proof.
  unfold add_or_merge_style. split; intros ->; cbn [negb]; split.
  - intros pre post -> Hpre.
    change (utf8 ">" ++ post) with (62 :: post).
    rewrite replace_first_char_at by assumption. now rewrite <- !app_assoc.
  - apply replace_first_char_absent.
  - intros pre v post -> Hpre Hv. now apply merge_style_first.
  - apply merge_style_absent.
Qed.

Lemma add_or_merge_style_cases_witness :
  let pre := utf8 "<p><span " in
  let v := utf8 "color:red;" in
  let post := utf8 ">x</span></p>" in
  let tag := pre ++ quoted_style ++ v ++ dq ++ post in
  contains (utf8 " style=") tag = true
  /\ contains quoted_style pre = false
  /\ forallb (fun c => negb (c =? 34)) v = true
  /\ add_or_merge_style tag justify
     = pre ++ quoted_style ++ utf8 "color:red" ++ utf8 "; " ++ justify ++ dq ++ post.
Proof.
  intros pre v post tag.
  split; [reflexivity|]. split; [reflexivity|]. split; [reflexivity|].
  exact (proj1 (proj2 (add_or_merge_style_cases tag justify) eq_refl)
           pre v post eq_refl eq_refl eq_refl).
Defined.

(** ** Placeholders *)

Lemma uint_digits_are_digits (d : Decimal.uint) : forallb is_digit (uint_digits d) = true.
Proof. induction d; cbn; auto. Qed.

Lemma uint_digits_inj (d d' : Decimal.uint) : uint_digits d = uint_digits d' -> d = d'.
Proof.
  revert d'. induction d; intros d' H; destruct d'; cbn in H; try discriminate H;
    try reflexivity; injection H as H; f_equal; auto.
Qed.

Lemma str_of_nat_inj (n m : nat) : str_of_nat n = str_of_nat m -> n = m.
Proof.
  unfold str_of_nat. intros H%uint_digits_inj.
  rewrite <- (Unsigned.of_to n), <- (Unsigned.of_to m). now f_equal.
Qed.

Lemma digits_until_underscore (x y r r' : pystr) :
  forallb is_digit x = true -> forallb is_digit y = true ->
  x ++ 95 :: r = y ++ 95 :: r' -> x = y /\ r = r'.
Proof.
  revert y. induction x as [|c x IH]; intros [|d y] Hx Hy H; cbn in *.
  - now injection H as <-.
  - injection H as <- _. apply andb_prop in Hy as [Hd _]. discriminate Hd.
  - injection H as -> _. apply andb_prop in Hx as [Hc _]. discriminate Hc.
  - injection H as <- H. apply andb_prop in Hx as [_ Hx]. apply andb_prop in Hy as [_ Hy].
    destruct (IH y Hx Hy H) as [-> ->]. auto.
Qed.

Lemma placeholder_chars (n i : nat) :
  placeholder n i
  = 95 :: 95 :: 73 :: 77 :: 71 :: 95 :: str_of_nat n ++ 95 :: str_of_nat i ++ [95; 95].
Proof. reflexivity. Qed.

Lemma starts_with_prefix (p s : pystr) : starts_with p s = true -> exists r, s = p ++ r.
Proof.
  revert s. induction p as [|a p IH]; intros s H; [now exists s|].
  destruct s as [|b s]; [discriminate|]. cbn in H.
  apply andb_prop in H as [->%N.eqb_eq H]. destruct (IH s H) as (r & ->). now exists r.
Qed.

Lemma contains_after_digits (p ds rest : pystr) :
  forallb is_digit ds = true ->
  contains (95 :: p) (ds ++ rest) = contains (95 :: p) rest.
Proof.
  induction ds as [|d ds IH]; [reflexivity|]. cbn [forallb app].
  intros [Hd Hds]%andb_prop. cbn [contains starts_with]. rewrite IH by assumption.
  replace (95 =? d) with false; [reflexivity|].
  symmetry. apply N.eqb_neq. intros <-. discriminate Hd.
Qed.

Lemma str_of_nat_digits (n : nat) : forallb is_digit (str_of_nat n) = true.
Proof. apply uint_digits_are_digits. Qed.

Lemma str_of_nat_head (n : nat) :
  exists d ds, str_of_nat n = d :: ds /\ (95 =? d) = false
               /\ forallb is_digit (d :: ds) = true.
Proof.
  pose proof (str_of_nat_digits n) as Hd. unfold str_of_nat in *.
  pose proof (Unsigned.to_of (Nat.to_uint n)) as H. rewrite Unsigned.of_to in H.
  destruct (uint_digits (Nat.to_uint n)) as [|d ds] eqn:E.
  - exfalso. rewrite H in E. unfold Decimal.unorm in E.
    destruct (Decimal.nzhead (Nat.to_uint n)); discriminate E.
  - exists d, ds. split; [reflexivity|]. split; [|exact Hd].
    cbn in Hd. apply andb_prop in Hd as [Hd _]. apply N.eqb_neq. intros <-. discriminate Hd.
Qed.

(** X12.  The placeholder of an image occurs in the placeholder of an
    image only when both have the same block number and the same index: two
    placeholders are different for different pairs, and none is part of
    another. *)
Theorem placeholders_do_not_overlap (n i n' i' : nat) :
  contains (placeholder n i) (placeholder n' i') = true -> n = n' /\ i = i'.
Proof.
  rewrite !placeholder_chars.
  set (x := str_of_nat n ++ 95 :: str_of_nat i ++ [95; 95]).
  cbn [contains]. intros H.
  apply orb_prop in H as [H|H].
  - apply starts_with_prefix in H as (r & H). subst x.
    injection H as H. rewrite <- !app_assoc in H. cbn [app] in H.
    symmetry in H.
    apply digits_until_underscore in H as [Hn H]; [|apply str_of_nat_digits..].
    rewrite <- !app_assoc in H. cbn [app] in H.
    apply digits_until_underscore in H as [Hi _]; [|apply str_of_nat_digits..].
    split; now apply str_of_nat_inj.
  - exfalso. revert H.
    destruct (str_of_nat_head n') as (d & ds & -> & Hd & Hds).
    destruct (str_of_nat_head i') as (e & es & -> & He & Hes).
    cbn [starts_with app].
    change (95 =? 73) with false. change (95 =? 77) with false.
    change (95 =? 71) with false. change (95 =? 95) with true. rewrite Hd.
    cbn [andb orb].
    change (d :: ds ++ 95 :: e :: es ++ [95; 95])
      with ((d :: ds) ++ 95 :: e :: es ++ [95; 95]).
    rewrite (contains_after_digits _ (d :: ds) _ Hds).
    cbn [contains starts_with]. change (95 =? 95) with true. rewrite He. cbn [andb orb].
    cbn [forallb] in Hes. apply andb_prop in Hes as [_ Hes].
    rewrite (contains_after_digits _ es _ Hes).
    cbn. discriminate.
Qed.

Lemma placeholders_do_not_overlap_witness :
  contains (placeholder 0 1) (placeholder 0 1) = true /\ (0 = 0 /\ 1 = 1)%nat.
Proof.
  assert (H : contains (placeholder 0 1) (placeholder 0 1) = true) by (vm_compute; reflexivity).
  split; [exact H|]. exact (placeholders_do_not_overlap 0 1 0 1 H).
Defined.

(** ** Shape *)

Lemma child_paths_nonempty (ds : list (list path)) :
  forall i q, q ∈ child_paths i ds -> q <> [].
Proof.
  induction ds as [|d ds IH]; intros i q; cbn [child_paths]; [intros H; inversion H|].
  intros [H|H]%elem_of_app; [|eauto].
  apply elem_of_cons in H as [->|H]; [discriminate|].
  apply list_elem_of_In, in_map_iff in H as (x & <- & _). discriminate.
Qed.

Lemma descendants_nonempty (e : element) (q : path) : q ∈ descendants e -> q <> [].
Proof. destruct e. cbn [descendants]. apply child_paths_nonempty. Qed.

Lemma descendants_children (e : element) :
  descendants e = child_paths 0 (map descendants (children e)).
Proof. now destruct e. Qed.

Lemma descendants_modify (f : element -> element) (P : path) :
  (forall x, children (f x) = children x) ->
  forall e, descendants (modify_at f e P) = descendants e.
Proof.
  intros Hf. induction P as [|i P IH]; intros e; cbn [modify_at].
  - now rewrite !descendants_children, Hf.
  - destruct (children e !! i) as [c|] eqn:Hc; [|reflexivity].
    rewrite (descendants_children e). cbn [descendants]. f_equal.
    change (map descendants ?l) with (descendants <$> l).
    rewrite list_fmap_insert, IH. apply list_insert_id.
    now rewrite list_lookup_fmap, Hc.
Qed.

Lemma has_ancestor_below (t : pystr) (pp ip : path) :
  forall e p0,
    get_at e pp = Some p0 -> tag p0 = t -> ip <> [] ->
    has_ancestor t e (pp ++ ip) = true.
Proof.
  induction pp as [|j pp IH]; intros e p0 Hp Ht Hip; cbn [app].
  - cbn in Hp. injection Hp as ->. destruct ip as [|i ip]; [contradiction|].
    cbn [has_ancestor]. now rewrite bool_decide_eq_true_2.
  - cbn [get_at] in Hp. cbn [has_ancestor].
    destruct (children e !! j) as [c|]; [|discriminate].
    rewrite (IH c p0) by assumption. apply orb_true_r.
Qed.

(** ** What [clean_img_html] needs *)

Lemma clean_img_html_ok_iff (L : libs) (x : element) :
  (exists ih, clean_img_html L x = OK ih)
  <-> forallb xml_blank (tail x) = true /\ get x (utf8 "src") <> None.
Proof.
  unfold clean_img_html, cleaned_img, xml_roundtrip, get.
  destruct (forallb xml_blank (tail x)); cbn [rbind attrib].
  - destruct (assoc (utf8 "src") (attrib x)) as [src|]; cbn [set rbind].
    + split; [auto|intros _].
      destruct (truthy (default [] (assoc (utf8 "alt") (attrib x)))); cbn [set rbind]; eauto.
    + split; [intros (ih & H); discriminate|intros [_ H]; contradiction].
  - split; [intros (ih & H); discriminate|intros [H _]; discriminate].
Qed.

Lemma clean_img_html_same_node (L : libs) (y x : element) :
  same_node y x -> tag x = utf8 "img" -> clean_img_html L y = clean_img_html L x.
Proof.
  destruct x as [t a tx cs tl], y as [t' a' tx' cs' tl'].
  intros (Ht & Ha & Htl) Htag. cbn in Ht, Ha, Htl, Htag. subst t' a' tl' t.
  unfold clean_img_html, cleaned_img, xml_roundtrip, get. cbn [tail tag attrib text children].
  destruct (forallb xml_blank tl); [|reflexivity]. cbn [rbind attrib_clear tag attrib text children tail].
  destruct (assoc (utf8 "src") a) as [src|]; [|reflexivity]. cbn [set rbind tag attrib text children tail].
  destruct (truthy (default [] (assoc (utf8 "alt") a)));
    cbn [set rbind tag attrib text children tail tostring_html];
    change (is_void (utf8 "img")) with true; reflexivity.
Qed.

(** ** The loops, with what was cleaned *)

Lemma replaced_refl (L : libs) (root : element) : replaced L root root.
Proof. intros s. destruct (get_at root s); [left; apply same_node_refl|exact I]. Qed.

Lemma replaced_placeholder (L : libs) (root cur : element) (P : path) (y : element)
    (ph : pystr) :
  replaced L root cur -> get_at cur P = Some y -> tag y = utf8 "img" ->
  (exists ih, clean_img_html L y = OK ih) ->
  has_ancestor (utf8 "p") root P = true ->
  replaced L root (modify_at (to_placeholder ph) cur P).
Proof.
  intros Hr HP Htag Hclean Hanc s. specialize (Hr s).
  pose proof (get_at_modify (to_placeholder ph) cur P s (to_placeholder_children ph)) as Hm.
  destruct (get_at cur s) as [ys|] eqn:Hs.
  - destruct (get_at root s) as [x|]; [|contradiction].
    destruct (decide (s = P)) as [->|Hne].
    + rewrite Hm. rewrite HP in Hs. injection Hs as <-.
      destruct Hr as [Hsame|(_ & Hspan & _)].
      * right. destruct Hsame as (Ht & Ha & Htl).
        assert (Hx : tag x = utf8 "img") by congruence.
        split; [exact Hx|]. split; [reflexivity|]. split; [reflexivity|].
        split; [exact Hanc|].
        rewrite <- (clean_img_html_same_node L y x) by (repeat split; assumption).
        exact Hclean.
      * rewrite Hspan in Htag. destruct (span_not_img Htag).
    + destruct Hm as (y' & -> & Hsame). destruct Hr as [Hr|(Hx & Hy & Ha & Hrest)].
      * left. eapply same_node_trans; eassumption.
      * right. destruct Hsame as (-> & -> & _). auto.
  - rewrite Hm. assumption.
Qed.

Section Cleaned.

Context (L : libs) (root : element).

Lemma paragraph_images_replaced (pp : path) (p0 : element) (n : nat) (imgs : list path) :
  get_at root pp = Some p0 -> tag p0 = utf8 "p" ->
  forall cur i phs fi cur' phs' fi',
    paragraph_images L cur pp n i imgs phs fi = OK (cur', phs', fi') ->
    replaced L root cur ->
    (forall ip, ip ∈ imgs ->
       ip <> [] /\ forall y, get_at cur (pp ++ ip) = Some y ->
                             tag y = utf8 "img" \/ attrib y = []) ->
    replaced L root cur' /\ descendants cur' = descendants cur.
Proof.
  intros Hp0 Htag0.
  induction imgs as [|ip imgs IH]; intros cur i phs fi cur' phs' fi' H Hr Himgs;
    cbn [paragraph_images] in H.
  - injection H as <- <- <-. auto.
  - destruct (Himgs ip ltac:(left)) as [Hne Hip].
    destruct (get_at cur (pp ++ ip)) as [img|] eqn:Himg.
    + destruct (clean_img_html L img) as [ih|e] eqn:Hclean; cbn [rbind] in H; [|discriminate].
      assert (Htag : tag img = utf8 "img").
      { destruct (Hip img eq_refl) as [Ht|Ha]; [exact Ht|].
        apply clean_img_html_src in Hclean. unfold get in Hclean. rewrite Ha in Hclean.
        contradiction. }
      apply IH in H as [Hr' Hd].
      * split; [exact Hr'|]. rewrite Hd. apply descendants_modify. reflexivity.
      * eapply replaced_placeholder; eauto. eapply has_ancestor_below; eauto.
      * intros ip' Hin. destruct (Himgs ip' ltac:(now right)) as [Hne' Hip'].
        split; [exact Hne'|]. intros y1 Hy1.
        pose proof (get_at_modify (to_placeholder (placeholder n i)) cur (pp ++ ip)
                      (pp ++ ip') (to_placeholder_children _)) as Hm.
        destruct (get_at cur (pp ++ ip')) as [y|]; [|congruence].
        destruct (decide (pp ++ ip' = pp ++ ip)) as [Heq|Hneq].
        -- rewrite decide_True in Hm by assumption.
           rewrite Hm in Hy1. injection Hy1 as <-. now right.
        -- rewrite decide_False in Hm by assumption.
           destruct Hm as (y' & Hy' & (Ht & Ha & _)). rewrite Hy' in Hy1.
           injection Hy1 as <-. rewrite Ht, Ha. now apply Hip'.
    + apply IH in H; [exact H|exact Hr|].
      intros ip' Hin. apply Himgs. now right.
Qed.

Lemma paragraphs_loop_replaced (ps : list path) :
  (forall pp, pp ∈ ps -> has_tag (utf8 "p") root pp = true) ->
  forall cur segs fi cur' segs' fi',
    paragraphs_loop L cur ps segs fi = OK (cur', segs', fi') ->
    replaced L root cur ->
    replaced L root cur' /\ descendants cur' = descendants cur
    /\ exists psegs, segs' = segs ++ psegs /\ (length psegs <= length ps)%nat.
Proof.
  induction ps as [|pp ps IH]; intros Hps cur segs fi cur' segs' fi' H Hr;
    cbn [paragraphs_loop] in H.
  - injection H as <- <- <-. split; [exact Hr|]. split; [reflexivity|].
    exists []. rewrite app_nil_r. auto.
  - assert (Hps' : forall pp', pp' ∈ ps -> has_tag (utf8 "p") root pp' = true)
      by (intros; apply Hps; now right).
    assert (Hskip : forall (X : replaced L root cur' /\ descendants cur' = descendants cur
              /\ exists psegs, segs' = segs ++ psegs /\ (length psegs <= length ps)%nat),
              replaced L root cur' /\ descendants cur' = descendants cur
              /\ exists psegs, segs' = segs ++ psegs /\ (length psegs <= length (pp :: ps))%nat).
    { intros (? & ? & psegs & ? & ?). repeat split; try assumption.
      exists psegs. cbn [length]. split; [assumption|lia]. }
    destruct (get_at cur pp) as [pc|] eqn:Hpc; [|apply Hskip; eauto].
    destruct (is_linked_thumbnail pc); [apply Hskip; eauto|].
    destruct (paragraph_images L cur pp (length segs) 0
                (xpath_descendants (utf8 "img") pc) [] fi)
      as [[[cur1 phs] fi1]|e] eqn:Himgs; cbn [rbind] in H; [|discriminate].
    pose proof (Hps pp ltac:(left)) as Hpp. unfold has_tag in Hpp.
    destruct (get_at root pp) as [p0|] eqn:Hp0; [|discriminate].
    apply bool_decide_eq_true in Hpp.
    eapply paragraph_images_replaced in Himgs as [Hr1 Hd1]; eauto.
    + apply IH in H as (Hr' & Hd' & psegs & -> & Hlen); [|exact Hps'|exact Hr1].
      split; [exact Hr'|]. split; [congruence|].
      eexists (_ :: psegs). rewrite <- app_assoc. split; [reflexivity|]. cbn [length]. lia.
    + intros ip [Htag Hin]%list_elem_of_filter.
      split; [eapply descendants_nonempty; eassumption|].
      intros y Hy. left. unfold has_tag in Htag. rewrite get_at_app, Hpc in Hy.
      rewrite Hy in Htag. now apply bool_decide_eq_true in Htag.
Qed.

End Cleaned.

(** ** The tree that the second loop sees *)

Lemma replaced_same_paragraphs (L : libs) (root cur : element) :
  replaced L root cur -> same_paragraphs root cur.
Proof.
  intros Hr s. specialize (Hr s).
  destruct (get_at root s) as [x|], (get_at cur s) as [y|]; try exact Hr.
  destruct Hr as [(Ht & _)|(Hx & Hy & _)]; [now rewrite Ht|].
  rewrite Hx, Hy. split; intros H; [discriminate H|destruct (span_not_p H)].
Qed.

Lemma same_paragraphs_child (a b ca cb : element) (i : nat) :
  same_paragraphs a b -> children a !! i = Some ca -> children b !! i = Some cb ->
  same_paragraphs ca cb.
Proof.
  intros H Ha Hb s. specialize (H (i :: s)). cbn [get_at] in H.
  now rewrite Ha, Hb in H.
Qed.

Lemma has_ancestor_same_paragraphs (q : path) :
  forall a b,
    same_paragraphs a b ->
    has_ancestor (utf8 "p") b q = has_ancestor (utf8 "p") a q.
Proof.
  induction q as [|i q IH]; intros a b H; cbn [has_ancestor]; [reflexivity|].
  pose proof (H []) as H0. cbn [get_at] in H0.
  rewrite (bool_decide_ext _ _ H0).
  pose proof (H [i]) as Hi. cbn [get_at] in Hi.
  destruct (children a !! i) as [ca|] eqn:Ha, (children b !! i) as [cb|] eqn:Hb;
    try contradiction; [|reflexivity].
  f_equal. apply IH. eapply same_paragraphs_child; eassumption.
Qed.

Lemma replaced_outside (L : libs) (root cur : element) (q : path) :
  replaced L root cur ->
  has_tag (utf8 "img") cur q && negb (has_ancestor (utf8 "p") cur q)
  = has_tag (utf8 "img") root q && negb (has_ancestor (utf8 "p") root q).
Proof.
  intros Hr. rewrite (has_ancestor_same_paragraphs q root cur)
    by (eapply replaced_same_paragraphs; eassumption).
  specialize (Hr q). unfold has_tag.
  destruct (get_at root q) as [x|], (get_at cur q) as [y|]; try contradiction; [|reflexivity].
  destruct Hr as [(Ht & _)|(_ & _ & _ & Hanc & _)]; [now rewrite Ht|].
  rewrite Hanc. cbn [negb]. now rewrite !andb_false_r.
Qed.

Lemma replaced_outside_paths (L : libs) (root cur : element) :
  replaced L root cur -> descendants cur = descendants root ->
  xpath_imgs_outside_p cur = xpath_imgs_outside_p root.
Proof.
  intros Hr Hd. unfold xpath_imgs_outside_p. rewrite Hd.
  apply list_filter_iff. intros q. now rewrite (replaced_outside L root cur q Hr).
Qed.

Lemma replaced_outside_node (L : libs) (root cur : element) (q : path) :
  replaced L root cur -> q ∈ xpath_imgs_outside_p root ->
  exists x y, get_at root q = Some x /\ get_at cur q = Some y
              /\ same_node y x /\ tag x = utf8 "img".
Proof.
  intros Hr [Hq _]%list_elem_of_filter. apply andb_prop in Hq as [Htag Hanc].
  apply negb_true_iff in Hanc. specialize (Hr q). unfold has_tag in Htag.
  destruct (get_at root q) as [x|]; [|discriminate].
  apply bool_decide_eq_true in Htag.
  destruct (get_at cur q) as [y|]; [|contradiction].
  exists x, y. destruct Hr as [Hs|(_ & _ & _ & Ha & _)]; [auto|congruence].
Qed.

Lemma outside_images_replaced (L : libs) (root cur : element) (imgs : list path) :
  replaced L root cur ->
  (forall q, q ∈ imgs -> q ∈ xpath_imgs_outside_p root) ->
  forall segs fi,
    outside_images L cur imgs segs fi = outside_images L root imgs segs fi.
Proof.
  intros Hr. induction imgs as [|q imgs IH]; intros Himgs segs fi; [reflexivity|].
  cbn [outside_images].
  destruct (replaced_outside_node L root cur q Hr (Himgs q ltac:(left)))
    as (x & y & -> & -> & Hs & Htag).
  rewrite (clean_img_html_same_node L y x Hs Htag).
  destruct (clean_img_html L x) as [ih|e]; cbn [rbind]; [|reflexivity].
  destruct Hs as (_ & Ha & _). unfold get. rewrite Ha.
  apply IH. intros; apply Himgs. now right.
Qed.

Lemma outside_images_blocks (L : libs) (root : element) (imgs : list path) :
  (forall q, q ∈ imgs -> is_Some (get_at root q)) ->
  forall segs fi segs' fi',
    outside_images L root imgs segs fi = OK (segs', fi') ->
    exists hs,
      segs' = segs ++ map image_block hs
      /\ Forall2 (fun q h => exists img, get_at root q = Some img
                                        /\ clean_img_html L img = OK h) imgs hs
      /\ fi' = fold_left py_or (map (src_at root) imgs) fi.
Proof.
  induction imgs as [|q imgs IH]; intros Himgs segs fi segs' fi' H; cbn [outside_images] in H.
  - injection H as <- <-. exists []. cbn. rewrite app_nil_r. auto.
  - destruct (Himgs q ltac:(left)) as [img Hq]. rewrite Hq in H.
    destruct (clean_img_html L img) as [ih|e] eqn:Hc; cbn [rbind] in H; [|discriminate].
    apply IH in H as (hs & -> & Hall & ->); [|intros; apply Himgs; now right].
    exists (ih :: hs). rewrite <- app_assoc. split; [reflexivity|].
    split; [constructor; eauto|]. cbn [map fold_left].
    replace (src_at root q) with (get img (utf8 "src")) by (unfold src_at; now rewrite Hq).
    reflexivity.
Qed.

Lemma fold_py_or_first (l : list (option pystr)) :
  forall fi,
    py_truthy fi = false ->
    match first_truthy l with
    | Some src => fold_left py_or l fi = src
    | None => py_truthy (fold_left py_or l fi) = false
    end.
Proof.
  assert (Hkeep : forall l fi, py_truthy fi = true -> fold_left py_or l fi = fi).
  { clear. induction l as [|x l IH]; intros fi H; [reflexivity|].
    cbn [fold_left]. unfold py_or at 2. rewrite H. now apply IH. }
  induction l as [|x l IH]; intros fi Hfi; [exact Hfi|].
  assert (Hor : py_or fi x = x) by (unfold py_or; now rewrite Hfi).
  unfold first_truthy in *. cbn [find fold_left]. rewrite Hor.
  destruct (py_truthy x) eqn:Hx.
  - now apply Hkeep.
  - now apply IH.
Qed.

Lemma normalize_replaced (L : libs) (root cur : element) (segs : list pystr)
    (fi : option pystr) :
  paragraphs_loop L root (xpath_descendants (utf8 "p") root) [] (Some []) = OK (cur, segs, fi) ->
  replaced L root cur
  /\ xpath_imgs_outside_p cur = xpath_imgs_outside_p root
  /\ (length segs <= length (xpath_descendants (utf8 "p") root))%nat
  /\ py_truthy fi = false.
Proof.
  intros H. pose proof (paragraphs_never_record_an_image _ _ _ _ _ _ _ H) as Hfi.
  apply (paragraphs_loop_replaced L root) in H as (Hr & Hd & psegs & -> & Hlen).
  - split; [exact Hr|]. split; [now apply (replaced_outside_paths L)|]. auto.
  - intros pp [Hpp _]%list_elem_of_filter. exact Hpp.
  - apply replaced_refl.
Qed.

Lemma outside_resolves (root : element) (q : path) :
  q ∈ xpath_imgs_outside_p root -> is_Some (get_at root q).
Proof.
  intros [Hq _]%list_elem_of_filter. apply andb_prop in Hq as [Hq _].
  unfold has_tag in Hq. destruct (get_at root q); [eauto|discriminate].
Qed.

Lemma normalize_split (L : libs) (root : element) (segs : list pystr)
    (fi : option pystr) :
  normalize L root = OK (segs, fi) ->
  exists cur psegs fi0 hs,
    paragraphs_loop L root (xpath_descendants (utf8 "p") root) [] (Some [])
    = OK (cur, psegs, fi0)
    /\ segs = psegs ++ map image_block hs
    /\ Forall2 (fun q h => exists img, get_at root q = Some img
                                      /\ clean_img_html L img = OK h)
               (xpath_imgs_outside_p root) hs
    /\ fi = fold_left py_or (map (src_at root) (xpath_imgs_outside_p root)) fi0.
Proof.
  intros H. unfold normalize in H.
  destruct (paragraphs_loop L root (xpath_descendants (utf8 "p") root) [] (Some []))
    as [[[cur psegs] fi0]|e] eqn:Hloop; cbn [rbind] in H; [|discriminate].
  pose proof Hloop as Hloop'.
  apply normalize_replaced in Hloop' as (Hr & Hout & _ & _).
  rewrite Hout, (outside_images_replaced L root cur) in H by auto.
  apply outside_images_blocks in H as (hs & -> & Hall & ->); [|apply outside_resolves].
  exists cur, psegs, fi0, hs. auto.
Qed.

(** X13.  The second loop of the normaliser does not see what the first
    did.  When [normalize] returns, its blocks are at most one per paragraph
    of the body followed by exactly one block per image outside the
    paragraphs of the body as it was parsed, in document order, each holding
    the cleaned markup of that image; and the first image that is recorded
    is the first non-empty [src] among those images, or nothing that counts
    as true when there is none, whatever the paragraphs hold. *)
Theorem outside_images_follow_the_paragraphs (L : libs) (root : element)
    (segs : list pystr) (fi : option pystr) :
  normalize L root = OK (segs, fi) ->
  let outside := xpath_imgs_outside_p root in
  exists psegs hs,
    segs = psegs ++ map image_block hs
    /\ (length psegs <= length (xpath_descendants (utf8 "p") root))%nat
    /\ Forall2 (fun q h => exists img, get_at root q = Some img
                                      /\ clean_img_html L img = OK h) outside hs
    /\ match first_truthy (map (src_at root) outside) with
       | Some src => fi = src
       | None => py_truthy fi = false
       end.
Proof.
  intros H. cbv zeta.
  apply normalize_split in H as (cur & psegs & fi0 & hs & Hloop & -> & Hall & ->).
  apply normalize_replaced in Hloop as (_ & _ & Hlen & Hfi0).
  exists psegs, hs. repeat split; try assumption.
  now apply fold_py_or_first.
Qed.

Lemma outside_images_uncleanable (L : libs) (root : element) (q : path) (img : element)
    (e0 : exn) (imgs : list path) :
  q ∈ imgs -> get_at root q = Some img -> clean_img_html L img = Raise e0 ->
  forall segs fi, exists e, outside_images L root imgs segs fi = Raise e.
Proof.
  intros Hin Hq Hc. induction imgs as [|q0 imgs IH]; intros segs fi; [inversion Hin|].
  cbn [outside_images]. apply elem_of_cons in Hin as [<-|Hin].
  - rewrite Hq, Hc. eauto.
  - destruct (get_at root q0) as [img0|]; [|auto].
    destruct (clean_img_html L img0) as [ih|e]; cbn [rbind]; eauto.
Qed.

Lemma uncleanable_image_raises (L : libs) (root : element) (q : path) (img : element)
    (e0 : exn) :
  get_at root q = Some img ->
  tag img = utf8 "img" ->
  clean_img_html L img = Raise e0 ->
  cleaned_at root q ->
  exists e, normalize L root = Raise e.
Proof.
  intros Hq Htag Hc Hcleaned. unfold normalize.
  destruct (paragraphs_loop L root (xpath_descendants (utf8 "p") root) [] (Some []))
    as [[[cur segs] fi]|e] eqn:Hloop; cbn [rbind]; [|eauto].
  pose proof Hloop as Hloop'.
  apply normalize_replaced in Hloop as (Hr & Hout & _ & _).
  apply (paragraphs_loop_inv L root) in Hloop' as (_ & _ & Hps & _); [|apply tracks_refl].
  pose proof (Hr q) as Hcur. rewrite Hq in Hcur.
  destruct (get_at cur q) as [y|] eqn:Hy; [|contradiction].
  destruct Hcur as [Hsame|(_ & _ & _ & _ & ih & Hok)]; [|congruence].
  destruct Hcleaned as [(Hne & Hanc)|(q1 & r & p & -> & Hq1 & Hne & Hp & Hptag & Hnt)].
  - rewrite Hout, (outside_images_replaced L root cur) by auto.
    eapply outside_images_uncleanable; [|exact Hq|exact Hc].
    apply list_elem_of_filter. split.
    + unfold has_tag. rewrite Hq, Hanc, bool_decide_eq_true_2 by assumption. reflexivity.
    + apply descendants_elem; [exact Hne|]. rewrite Hq. eauto.
  - exfalso. apply (Hps q1 p r); try assumption.
    + eapply xpath_descendants_elem; eassumption.
    + unfold img_at, has_tag. rewrite Hy. apply bool_decide_eq_true.
      destruct Hsame as (-> & _). exact Htag.
Qed.

(** X14.  An image that the normaliser cleans and whose tail holds more
    than blanks (text that follows the image inside its parent) makes
    [normalize] raise, whatever else the body holds. *)
Theorem image_followed_by_text_aborts (L : libs) (root : element) (q : path)
    (img : element) :
  get_at root q = Some img ->
  tag img = utf8 "img" ->
  forallb xml_blank (tail img) = false ->
  cleaned_at root q ->
  exists e, normalize L root = Raise e.
Proof.
  intros Hq Htag Htail Hcleaned.
  destruct (clean_img_html L img) as [ih|e0] eqn:Hc.
  - assert (Hok : exists ih, clean_img_html L img = OK ih) by eauto.
    apply clean_img_html_ok_iff in Hok as [Hblank _]. congruence.
  - eapply uncleanable_image_raises; eassumption.
Qed.

Lemma filter_none {A} (P : A -> Prop) `{!forall x, Decision (P x)} (l : list A) :
  (forall x, x ∈ l -> ~ P x) -> filter P l = [].
Proof.
  induction l as [|x l IH]; intros Hl; [reflexivity|].
  rewrite filter_cons, decide_False by (apply Hl; left).
  apply IH. intros; apply Hl. now right.
Qed.

(** X15.  A body without paragraph below its root yields no block, and so
    the no-content notice, when it has no image or when the root itself is a
    paragraph: text, headings and lists outside paragraphs are dropped, and
    so is a body that is a single paragraph. *)
Theorem content_outside_paragraphs_is_dropped (L : libs) (root : element) :
  xpath_descendants (utf8 "p") root = [] ->
  xpath_descendants (utf8 "img") root = [] \/ tag root = utf8 "p" ->
  normalize L root = OK ([], Some [])
  /\ forall url title,
       assemble_body [] url title = no_content ++ attribution url title.
Proof.
  intros Hp Himg. split; [|reflexivity].
  unfold normalize. rewrite Hp. cbn [paragraphs_loop rbind].
  assert (Hout : xpath_imgs_outside_p root = []).
  { apply filter_none. intros q Hq H. apply andb_prop in H as [Htag Hanc].
    destruct Himg as [Hnone|Hroot].
    - assert (Hin : q ∈ xpath_descendants (utf8 "img") root)
        by (apply list_elem_of_filter; auto).
      rewrite Hnone in Hin. inversion Hin.
    - apply negb_true_iff in Hanc. apply descendants_nonempty in Hq.
      destruct q as [|i q]; [contradiction|]. cbn [has_ancestor] in Hanc.
      rewrite bool_decide_eq_true_2 in Hanc by assumption. discriminate. }
  rewrite Hout. reflexivity.
Qed.

Lemma outside_images_follow_the_paragraphs_witness :
  let L := Sample.libs_for Sample.text_article in
  let root :=
    Sample.elem "div" [] ""
      [Sample.elem "p" [] "Text" [Sample.elem "img" [("src", "b.jpg")]%string "" [] ""] "";
       Sample.elem "img" [("src", "a.jpg")]%string "" [] ""] "" in
  exists segs fi,
    normalize L root = OK (segs, fi)
    /\ xpath_imgs_outside_p root = [[1%nat]]
    /\ fi = Some (utf8 "a.jpg").
Proof.
  intros L root.
  destruct (normalize L root) as [[segs fi]|e] eqn:E; [|vm_compute in E; discriminate E].
  exists segs, fi. split; [reflexivity|]. split; [vm_compute; reflexivity|].
  destruct (outside_images_follow_the_paragraphs L root segs fi E)
    as (psegs & hs & _ & _ & _ & Hfi).
  exact Hfi.
Defined.

Lemma image_followed_by_text_aborts_witness :
  let L := Sample.libs_for Sample.text_article in
  let img := Sample.elem "img" [("src", "a.jpg")]%string "" [] "caption" in
  let root := Sample.elem "div" [] "" [Sample.elem "p" [] "Text " [img] ""] "" in
  get_at root [0; 0]%nat = Some img
  /\ forallb xml_blank (tail img) = false
  /\ cleaned_at root [0; 0]%nat
  /\ exists e, normalize L root = Raise e.
Proof.
  intros L img root.
  assert (Hc : cleaned_at root [0; 0]%nat).
  { right. exists [0%nat], [0%nat], (Sample.elem "p" [] "Text " [img] "").
    repeat split; discriminate || reflexivity. }
  split; [reflexivity|]. split; [reflexivity|]. split; [exact Hc|].
  exact (image_followed_by_text_aborts L root [0; 0]%nat img eq_refl eq_refl eq_refl Hc).
Defined.

Lemma content_outside_paragraphs_is_dropped_witness :
  let L := Sample.libs_for Sample.text_article in
  let root :=
    Sample.elem "p" [] "The only paragraph "
      [Sample.elem "img" [("src", "a.jpg")]%string "" [] ""] "" in
  xpath_descendants (utf8 "p") root = []
  /\ tag root = utf8 "p"
  /\ normalize L root = OK ([], Some []).
Proof.
  intros L root.
  assert (Hp : xpath_descendants (utf8 "p") root = []) by (vm_compute; reflexivity).
  split; [exact Hp|]. split; [reflexivity|].
  exact (proj1 (content_outside_paragraphs_is_dropped L root Hp (or_intror eq_refl))).
Defined.

(** ** One block for each paragraph *)

Lemma kept_changes_refl (root : element) : kept_changes root root.
Proof. intros s x y Hx Hy Hne. congruence. Qed.

Lemma kept_changes_placeholder (root cur : element) (P : path) (ph : pystr) :
  kept_changes root cur -> below_kept root P ->
  kept_changes root (modify_at (to_placeholder ph) cur P).
Proof.
  intros Hk HP s x y Hx Hy Hne.
  pose proof (get_at_modify (to_placeholder ph) cur P s (to_placeholder_children ph)) as Hm.
  destruct (get_at cur s) as [y0|] eqn:Hs; [|congruence].
  destruct (decide (s = P)) as [->|Hsp]; [exact HP|].
  destruct Hm as (y' & Hy' & (Ht & _)). rewrite Hy' in Hy. injection Hy as <-.
  apply (Hk s x y0); congruence.
Qed.

Lemma paragraph_images_kept (L : libs) (root : element) (pp : path) (p0 : element)
    (n : nat) (imgs : list path) :
  get_at root pp = Some p0 -> tag p0 = utf8 "p" -> is_linked_thumbnail p0 = false ->
  (forall ip, ip ∈ imgs -> ip <> []) ->
  forall cur i phs fi cur' phs' fi',
    paragraph_images L cur pp n i imgs phs fi = OK (cur', phs', fi') ->
    kept_changes root cur -> kept_changes root cur'.
Proof.
  intros Hp0 Htag Hkept. induction imgs as [|ip imgs IH];
    intros Himgs cur i phs fi cur' phs' fi' H Hk; cbn [paragraph_images] in H.
  - now injection H as <- _ _.
  - assert (Hrest : forall ip', ip' ∈ imgs -> ip' <> []) by (intros; apply Himgs; now right).
    destruct (get_at cur (pp ++ ip)) as [img|]; [|eapply IH; eassumption].
    destruct (clean_img_html L img) as [ih|e]; cbn [rbind] in H; [|discriminate].
    eapply IH; [exact Hrest|exact H|].
    apply kept_changes_placeholder; [exact Hk|].
    exists pp, ip, p0. repeat split; try assumption. apply Himgs. now left.
Qed.

Lemma replaced_tracks (L : libs) (root cur : element) : replaced L root cur -> tracks root cur.
Proof.
  intros Hr s. specialize (Hr s).
  destruct (get_at root s) as [x|], (get_at cur s) as [y|]; try exact Hr.
  destruct Hr as [Hs|(_ & Hy & Ha & _ & ih & Hc)]; [now left|right].
  split; [eapply clean_img_html_src; eassumption|auto].
Qed.

Lemma thumbnail_shape (p0 : element) :
  is_linked_thumbnail p0 = true ->
  exists a c rest,
    children p0 = [a] /\ tag a = utf8 "a" /\ children a = c :: rest /\ tag c = utf8 "img".
Proof.
  unfold is_linked_thumbnail.
  destruct (children p0) as [|a [|? ?]]; try discriminate.
  intros [Ha Hc]%andb_prop. apply bool_decide_eq_true in Ha.
  destruct (children a) as [|c rest] eqn:Hcs; [discriminate|].
  apply bool_decide_eq_true in Hc. exists a, c, rest. auto.
Qed.

Lemma a_not_p : utf8 "a" <> utf8 "p".
Proof. discriminate. Qed.

(** Below a paragraph that is a link around an image, and that is in no
    other paragraph, the link and the image keep their tags. *)
Lemma thumbnail_untouched (root cur : element) (pp : path) (p0 a c : element)
    (rest : list element) :
  kept_changes root cur ->
  get_at root pp = Some p0 -> is_linked_thumbnail p0 = true ->
  has_ancestor (utf8 "p") root pp = false ->
  children p0 = [a] -> tag a = utf8 "a" -> children a = c :: rest -> tag c = utf8 "img" ->
  forall t x y,
    t = [0%nat] \/ t = [0%nat; 0%nat] ->
    get_at root (pp ++ t) = Some x -> get_at cur (pp ++ t) = Some y -> tag y = tag x.
Proof.
  intros Hk Hp0 Hthumb Hanc Hcs Hta Hacs Htc t x y Ht Hx Hy.
  destruct (decide (tag y = tag x)) as [|Hne]; [assumption|exfalso].
  destruct (Hk _ _ _ Hx Hy Hne) as (pp' & r & p' & Heq & Hr & Hp' & Htag' & Hkept').
  assert (Hsame : pp' = pp -> False) by (intros ->; congruence).
  assert (Ha0 : get_at root (pp ++ [0%nat]) = Some a)
    by (rewrite get_at_app, Hp0; cbn [get_at]; now rewrite Hcs).
  apply app_eq_inv in Heq as [(k & -> & Hk2)|(k & -> & Hk2)].
  - destruct k as [|j k]; [apply Hsame; now rewrite app_nil_r|].
    rewrite (has_ancestor_below (utf8 "p") pp' (j :: k) root p') in Hanc
      by (assumption || discriminate).
    discriminate.
  - destruct k as [|j k]; [apply Hsame; now rewrite app_nil_r|].
    destruct Ht as [->| ->].
    + injection Hk2 as Hj Hk2. subst j. destruct k; [|discriminate]. cbn in Hk2. congruence.
    + injection Hk2 as Hj Hk2. subst j. destruct k as [|j' k].
      * rewrite Ha0 in Hp'. injection Hp' as <-. rewrite Hta in Htag'.
        destruct (a_not_p Htag').
      * injection Hk2 as Hj Hk2. subst j'. destruct k; [|discriminate]. cbn in Hk2.
        congruence.
Qed.

Lemma thumbnail_in_cur (L : libs) (root cur : element) (pp : path) (p0 pc : element) :
  replaced L root cur -> kept_changes root cur ->
  get_at root pp = Some p0 -> get_at cur pp = Some pc ->
  has_ancestor (utf8 "p") root pp = false ->
  is_linked_thumbnail p0 = true -> is_linked_thumbnail pc = true.
Proof.
  intros Hr Hk Hp0 Hpc Hanc Hthumb.
  destruct (thumbnail_shape p0 Hthumb) as (a & c & rest & Hcs & Hta & Hacs & Htc).
  pose proof (thumbnail_untouched root cur pp p0 a c rest Hk Hp0 Hthumb Hanc Hcs Hta Hacs Htc)
    as Hun.
  assert (Ha0 : get_at root (pp ++ [0%nat]) = Some a)
    by (rewrite get_at_app, Hp0; cbn [get_at]; now rewrite Hcs).
  assert (Ha1 : get_at root (pp ++ [1%nat]) = None)
    by (rewrite get_at_app, Hp0; cbn [get_at]; now rewrite Hcs).
  assert (Hc0 : get_at root (pp ++ [0%nat; 0%nat]) = Some c).
  { change [0%nat; 0%nat] with ([0%nat] ++ [0%nat]). rewrite app_assoc, get_at_app, Ha0.
    cbn [get_at]. now rewrite Hacs. }
  pose proof (Hr (pp ++ [0%nat])) as R0. rewrite Ha0 in R0.
  pose proof (Hr (pp ++ [1%nat])) as R1. rewrite Ha1 in R1.
  pose proof (Hr (pp ++ [0%nat; 0%nat])) as R00. rewrite Hc0 in R00.
  destruct (get_at cur (pp ++ [0%nat])) as [a'|] eqn:Ea; [|contradiction].
  destruct (get_at cur (pp ++ [1%nat])) as [?|] eqn:E1; [contradiction|].
  destruct (get_at cur (pp ++ [0%nat; 0%nat])) as [c'|] eqn:Ec; [|contradiction].
  assert (Hta' : tag a' = utf8 "a")
    by (rewrite <- Hta; apply (Hun [0%nat] a a'); auto).
  assert (Htc' : tag c' = utf8 "img")
    by (rewrite <- Htc; apply (Hun [0%nat; 0%nat] c c'); auto).
  rewrite get_at_app, Hpc in Ea, E1. cbn [get_at] in Ea, E1.
  change [0%nat; 0%nat] with ([0%nat] ++ [0%nat]) in Ec.
  rewrite app_assoc, get_at_app, get_at_app, Hpc in Ec. cbn [get_at] in Ec.
  unfold is_linked_thumbnail.
  destruct (children pc) as [|a1 [|a2 ?]]; try discriminate.
  cbn in Ec. cbn in Ea. injection Ea as ->.
  rewrite bool_decide_eq_true_2 by assumption. cbn [andb].
  destruct (children a') as [|c1 ?]; [discriminate|]. cbn in Ec. injection Ec as ->.
  now apply bool_decide_eq_true.
Qed.

Lemma paragraphs_loop_kept (L : libs) (root : element) (ps : list path) :
  (forall pp, pp ∈ ps ->
     has_tag (utf8 "p") root pp = true /\ has_ancestor (utf8 "p") root pp = false) ->
  forall cur segs fi cur' segs' fi',
    paragraphs_loop L cur ps segs fi = OK (cur', segs', fi') ->
    replaced L root cur -> kept_changes root cur ->
    length segs'
    = (length segs + length (filter (fun pp => thumbnail_at root pp = false) ps))%nat.
Proof.
  induction ps as [|pp ps IH]; intros Hps cur segs fi cur' segs' fi' H Hr Hk;
    cbn [paragraphs_loop] in H.
  - injection H as _ <- _. cbn. lia.
  - assert (Hps' : forall pp', pp' ∈ ps ->
              has_tag (utf8 "p") root pp' = true /\ has_ancestor (utf8 "p") root pp' = false)
      by (intros; apply Hps; now right).
    destruct (Hps pp ltac:(left)) as [Hpp Hanc]. unfold has_tag in Hpp.
    destruct (get_at root pp) as [p0|] eqn:Hp0; [|discriminate].
    apply bool_decide_eq_true in Hpp.
    pose proof (Hr pp) as Hshape. rewrite Hp0 in Hshape.
    destruct (get_at cur pp) as [pc|] eqn:Hpc; [|contradiction].
    assert (Hat : thumbnail_at root pp = is_linked_thumbnail p0)
      by (unfold thumbnail_at; now rewrite Hp0).
    rewrite filter_cons.
    destruct (is_linked_thumbnail pc) eqn:Hthumb.
    + rewrite decide_False
        by (rewrite Hat, (thumbnail_tracks root cur pp p0 pc)
              by (eauto using replaced_tracks); discriminate).
      eapply IH; eassumption.
    + assert (Hkept : is_linked_thumbnail p0 = false).
      { destruct (is_linked_thumbnail p0) eqn:E; [|reflexivity].
        rewrite (thumbnail_in_cur L root cur pp p0 pc) in Hthumb by assumption.
        discriminate. }
      rewrite decide_True by (now rewrite Hat).
      destruct (paragraph_images L cur pp (length segs) 0
                  (xpath_descendants (utf8 "img") pc) [] fi)
        as [[[cur1 phs] fi1]|e] eqn:Himgs; cbn [rbind] in H; [|discriminate].
      assert (Hne : forall ip, ip ∈ xpath_descendants (utf8 "img") pc -> ip <> []).
      { intros ip [_ Hin]%list_elem_of_filter. eapply descendants_nonempty; eassumption. }
      pose proof (paragraph_images_kept L root pp p0 _ _ Hp0 Hpp Hkept Hne
                    _ _ _ _ _ _ _ Himgs Hk) as Hk1.
      eapply (paragraph_images_replaced L root) in Himgs as [Hr1 _]; eauto.
      * rewrite (IH Hps' _ _ _ _ _ _ H Hr1 Hk1), length_app. cbn [length]. lia.
      * intros ip Hin. split; [now apply Hne|].
        apply list_elem_of_filter in Hin as [Htag _].
        intros y Hy. left. unfold has_tag in Htag. rewrite get_at_app, Hpc in Hy.
        rewrite Hy in Htag. now apply bool_decide_eq_true in Htag.
Qed.

(** X16.  When no paragraph of the body stands inside another paragraph
    and [normalize] returns, there is exactly one block for each paragraph
    that is not a link around an image, and one for each image outside the
    paragraphs: none is lost and none is doubled. *)
Theorem one_block_for_each_kept_paragraph (L : libs) (root : element)
    (segs : list pystr) (fi : option pystr) :
  (forall pp, pp ∈ xpath_descendants (utf8 "p") root ->
     has_ancestor (utf8 "p") root pp = false) ->
  normalize L root = OK (segs, fi) ->
  length segs
  = (length (kept_paragraphs root) + length (xpath_imgs_outside_p root))%nat.
Proof.
  intros Hnest H.
  apply normalize_split in H as (cur & psegs & fi0 & hs & Hloop & -> & Hall & _).
  apply Forall2_length in Hall.
  apply (paragraphs_loop_kept L root) in Hloop;
    [|intros pp Hpp; split; [now apply list_elem_of_filter in Hpp as [? _]|auto]
     |apply replaced_refl|apply kept_changes_refl].
  rewrite length_app, length_map, Hloop, Hall. reflexivity.
Qed.

Lemma one_block_for_each_kept_paragraph_witness :
  let L := Sample.libs_for Sample.linked_thumbnail_article in
  let root :=
    Sample.elem "div" [] ""
      [Sample.elem "p" [] "One" [] "";
       Sample.elem "p" [] ""
         [Sample.elem "a" [("href", "/big")]%string ""
            [Sample.elem "img" [("src", "t.jpg")]%string "" [] ""] ""] "";
       Sample.elem "p" [] "Two " [Sample.elem "img" [("src", "b.jpg")]%string "" [] ""] "";
       Sample.elem "img" [("src", "a.jpg")]%string "" [] ""] "" in
  (forall pp, pp ∈ xpath_descendants (utf8 "p") root ->
     has_ancestor (utf8 "p") root pp = false)
  /\ kept_paragraphs root = [[0%nat]; [2%nat]]
  /\ exists segs fi, normalize L root = OK (segs, fi) /\ length segs = 3%nat.
Proof.
  intros L root.
  assert (Hnest : forall pp, pp ∈ xpath_descendants (utf8 "p") root ->
                    has_ancestor (utf8 "p") root pp = false).
  { intros pp Hpp. vm_compute in Hpp.
    repeat (apply elem_of_cons in Hpp as [->|Hpp]; [vm_compute; reflexivity|]).
    inversion Hpp. }
  split; [exact Hnest|]. split; [vm_compute; reflexivity|].
  destruct (normalize L root) as [[segs fi]|e] eqn:E; [|vm_compute in E; discriminate E].
  exists segs, fi. split; [reflexivity|].
  exact (one_block_for_each_kept_paragraph L root segs fi Hnest E).
Defined.

Lemma posted_forms_app (a b : list event) :
  posted_forms (a ++ b) = posted_forms a ++ posted_forms b.
Proof. apply omap_app. Qed.

Lemma posted_forms_quiet (evs : list event) :
  forallb is_quiet evs = true -> posted_forms evs = [].
Proof. induction evs as [|[] evs IH]; cbn; intros H; try discriminate; auto. Qed.

Lemma regular_quiet (L : libs) (W : world) (evs : list event) :
  forallb is_quiet evs = true -> Forall (regular_event L W) evs.
Proof.
  induction evs as [|ev evs IH]; cbn; [constructor|].
  intros [Hev Hevs]%andb_prop. constructor; [|auto]. destruct ev; try exact I; discriminate.
Qed.

Lemma cover_files_shape (L : libs) (W : world) (c : option pystr) (st st' : state)
    (files : files_arg) :
  cover_files L W c st = (OK files, st') ->
  files = [] \/ exists p, files = [(utf8 "pic", p)].
Proof.
  unfold cover_files. destruct c as [c|]; [destruct (truthy c)|].
  - intros (f & s1 & _ & H)%bind_ok. injection H as <- _. eauto.
  - intros [= <- _]. auto.
  - intros [= <- _]. auto.
Qed.

Lemma before_submission_files (L : libs) (W : world) (url : pystr) (st st1 : state)
    (art : article) (files : files_arg) (t : pystr) :
  before_submission L W url st = (OK (art, files, t), st1) ->
  files = [] \/ exists p, files = [(utf8 "pic", p)].
Proof.
  unfold before_submission. intros H.
  apply bind_ok in H as (? & s0 & _ & H).
  apply bind_ok in H as (art' & s1 & _ & H).
  apply bind_ok in H as (files' & s2 & Hfiles & H).
  apply bind_ok in H as (t' & s3 & _ & H).
  injection H as <- <- <- _. eapply cover_files_shape; eassumption.
Qed.

Lemma push_article_posts (L : libs) (W : world) (url : pystr) (seen : gset pystr)
    (st : state) :
  let run := push_article L W url seen st in
  exists new,
    events run.2 = events st ++ new
    /\ Forall (regular_event L W) new
    /\ (length (posted_forms new) <= 1)%nat.
Proof.
  intros run. subst run. destruct (decide (md5 L url ∈ seen)) as [Hin|Hout].
  - rewrite push_article_skip by assumption. eexists. cbn [snd after_events events].
    split; [reflexivity|]. split; [repeat constructor|cbn; lia].
  - rewrite push_article_fresh by assumption.
    destruct (before_submission L W url st) as [[[[art files] t]|e] st1] eqn:E.
    + pose proof (before_submission_files _ _ _ _ _ _ _ _ E) as Hfiles.
      apply quiet_before_submission in E as (_ & new1 & Hev & Hq).
      rewrite publish_run.
      assert (Hpost : forall r, regular_event L W
                (EvPost (API_URL W) (form_data L W art t) files r)).
      { intros r. split; [reflexivity|]. split; [repeat split|exact Hfiles]. }
      destruct (http_post W (ticks st1) (API_URL W) (form_data L W art t) files) as [rsp|e1];
        [destruct (status_code rsp =? 409)%Z;
          [|destruct ((400 <=? status_code rsp)%Z && (status_code rsp <? 600)%Z)]|];
        cbn [snd after_events events]; rewrite Hev, <- app_assoc;
        (eexists; split; [reflexivity|]);
        (split; [apply Forall_app; split; [now apply regular_quiet|];
                 repeat first [apply List.Forall_nil
                              |apply Forall_cons; split; [first [apply Hpost|exact I]|]]
                |rewrite posted_forms_app, (posted_forms_quiet _ Hq); cbn; lia]).
    + apply quiet_before_submission in E as (_ & new1 & Hev & Hq).
      exists new1. cbn [snd]. split; [exact Hev|].
      split; [now apply regular_quiet|]. rewrite (posted_forms_quiet _ Hq). cbn; lia.
Qed.

Lemma process_entries_posts (L : libs) (W : world) (seen : gset pystr)
    (entries : list pystr) :
  forall (res : results) (st : state),
    let run := process_entries L W seen res entries st in
    exists new,
      events run.2 = events st ++ new
      /\ Forall (regular_event L W) new
      /\ (length (posted_forms new) <= length entries)%nat.
Proof.
  induction entries as [|link entries IH]; intros res st run; subst run.
  - exists []. cbn. rewrite app_nil_r. repeat split; [constructor|lia].
  - cbn [process_entries]. unfold bind. rewrite process_entry_run.
    destruct (push_article_posts L W link seen st) as (n1 & He1 & Hr1 & Hl1).
    destruct (push_article L W link seen st) as [[[ok|]|e] s1]; cbn [fst snd] in *.
    + destruct (IH {| success := success res ++ [link]; failed := failed res |} s1)
        as (n2 & He2 & Hr2 & Hl2).
      exists (n1 ++ n2). rewrite He2, He1, <- app_assoc. split; [reflexivity|].
      split; [now apply Forall_app|]. rewrite posted_forms_app, length_app. cbn [length]. lia.
    + destruct (IH res s1) as (n2 & He2 & Hr2 & Hl2).
      exists (n1 ++ n2). rewrite He2, He1, <- app_assoc. split; [reflexivity|].
      split; [now apply Forall_app|]. rewrite posted_forms_app, length_app. cbn [length]. lia.
    + unfold log, emit. cbn [snd].
      match goal with |- context [process_entries _ _ _ ?r _ ?s] =>
        destruct (IH r s) as (n2 & He2 & Hr2 & Hl2) end.
      cbn [events] in He2.
      exists (n1 ++ [EvLog ERROR (utf8 "Err " ++ link ++ utf8 ": " ++ str_exn L e)] ++ n2).
      rewrite He2, He1, <- !app_assoc. split; [reflexivity|].
      split; [apply Forall_app; split; [assumption|constructor; [exact I|assumption]]|].
      rewrite !posted_forms_app, !length_app. cbn [posted_forms omap list_omap length]. lia.
Qed.

(** X17.  The submissions of a run of [process_rss].  Every form goes to
    [API_URL]; its signature is the hash of its own title, its own signing
    time and the API key; its description is empty, its type 2 and its
    article type 5; its files are empty or the one entry [pic]; and there is
    at most one submission per entry of the feed. *)
Theorem every_submission_is_signed (L : libs) (W : world) (feed_url : pystr) (st : state) :
  let run := process_rss L W feed_url st in
  exists new,
    events run.2 = events st ++ new
    /\ (forall u d f r,
          EvPost u d f r ∈ new ->
          u = API_URL W /\ signed_form L W d
          /\ (f = [] \/ exists p, f = [(utf8 "pic", p)]))
    /\ (length (posted_forms new) <= length (feed_entries W (ticks st) feed_url))%nat.
Proof.
  intros run. subst run. rewrite process_rss_run.
  match goal with |- context [process_entries ?a ?b ?c ?d ?e ?s] =>
    destruct (process_entries_posts a b c e d s) as (new & He & Hr & Hl);
    destruct (process_entries a b c d e s) as [[res|e0] s4] end;
    cbn [fst snd events] in *;
    (exists (EvLog INFO (utf8 "RSS: " ++ feed_url) :: new);
     rewrite He, <- app_assoc; split; [reflexivity|]; split; [|exact Hl];
     intros u d f r [Heq|Hin]%elem_of_cons; [discriminate|];
     rewrite Forall_forall in Hr; exact (Hr _ Hin)).
Qed.

Lemma every_submission_is_signed_witness :
  let L := Sample.libs_for Sample.text_article in
  let W := Sample.site Sample.text_article 200 200 200 200 [Sample.article_url] in
  let run := process_rss L W (utf8 "https://site.example/feed") Sample.fresh in
  exists new,
    events run.2 = events Sample.fresh ++ new
    /\ (length (posted_forms new) <= 1)%nat
    /\ forall u d f r, EvPost u d f r ∈ new -> signed_form L W d.
Proof.
  intros L W run.
  destruct (every_submission_is_signed L W (utf8 "https://site.example/feed") Sample.fresh)
    as (new & He & Hposts & Hl).
  exists new. split; [exact He|]. split; [exact Hl|].
  intros u d f r Hin. exact (proj1 (proj2 (Hposts u d f r Hin))).
Defined.
